(** * Keyframe animation engine (the [Animation] class): shallow embedding
    and verification of its evaluator, registries, serializer and additive
    converter.

    JavaScript numbers are IEEE 754 binary64 values: they are modelled by
    Rocq's primitive floats, so that [NaN], the infinities and the signed
    zeros behave as they do in the source. *)

From Stdlib Require Import ZArith List Bool Lia.
From Stdlib Require Import Floats.
From stdpp Require Import base option list gmap strings.

Set Default Proof Using "Type".
Set Warnings "-inexact-float".
Local Open Scope Z_scope.

(** ** JavaScript numbers *)

Module JsNumber.

Definition number := float.

(** The relational operators of the language on numbers. *)
Definition lt (x y : number) : bool := PrimFloat.ltb x y.
Definition le (x y : number) : bool := PrimFloat.leb x y.
Definition gt (x y : number) : bool := PrimFloat.ltb y x.
Definition ge (x y : number) : bool := PrimFloat.leb y x.
(** [===] on two numbers. *)
Definition strictEq (x y : number) : bool := PrimFloat.eqb x y.
Definition isNaN (x : number) : bool := negb (PrimFloat.eqb x x).

(** The comparison the four operators above are specified with. *)
Definition cmp (x y : number) : option comparison :=
  SFcompare (Prim2SF x) (Prim2SF y).

Definition le_c (c : comparison) : bool :=
  match c with Gt => false | _ => true end.

End JsNumber.

Abbreviation number := JsNumber.number.

(** ** Outcomes of a call

    A call returns a value or throws.  [TypeError] is the exception the
    language raises when a property of [undefined] is read.  [IllTyped]
    marks a run that left the data model's typing invariant (a key value that
    is not an instance of the track's data type, a range dictionary whose
    prototype is replaced by a range): the model does not follow the source
    there.  [OutOfFuel] is what the model answers when the bound
    it gives the one loop that needs one is used up; the bound is shown to be
    enough. *)

Inductive error := TypeError | IllTyped | OutOfFuel.

Inductive outcome (A : Type) : Type :=
| Returns (a : A)
| Throws (e : error).
Arguments Returns {A} a.
Arguments Throws {A} e.

Definition bind {A B} (m : outcome A) (k : A -> outcome B) : outcome B :=
  match m with
  | Returns a => k a
  | Throws e => Throws e
  end.

Notation "'let*' x ':=' m 'in' k" := (bind m (fun x => k))
  (at level 10, x name, m at level 100, k at level 200).

(** [a[i]] for a number [i] that is an integer: [undefined] out of range. *)
Definition lookupZ {A} (l : list A) (i : Z) : option A :=
  if i <? 0 then None else l !! Z.to_nat i.

(** [a.splice(i, 1)] and [a.splice(i, 0, x)] on the contents of [a]. *)
Definition splice_remove {A} (l : list A) (i : nat) : list A :=
  take i l ++ drop (S i) l.
Definition splice_insert {A} (l : list A) (i : nat) (x : A) : list A :=
  take i l ++ x :: drop i l.

(** ** The value types of the Maths library *)

Record Vector2 := MkVector2 { v2_x : number; v2_y : number }.
Arguments MkVector2 (v2_x v2_y)%_float.
Record Vector3 := MkVector3 { v3_x : number; v3_y : number; v3_z : number }.
Arguments MkVector3 (v3_x v3_y v3_z)%_float.
Record Quaternion :=
  MkQuaternion { q_x : number; q_y : number; q_z : number; q_w : number }.
Arguments MkQuaternion (q_x q_y q_z q_w)%_float.
Record Color3 := MkColor3 { c3_r : number; c3_g : number; c3_b : number }.
Arguments MkColor3 (c3_r c3_g c3_b)%_float.
Record Color4 :=
  MkColor4 { c4_r : number; c4_g : number; c4_b : number; c4_a : number }.
Arguments MkColor4 (c4_r c4_g c4_b c4_a)%_float.
Record Size := MkSize { width : number; height : number }.
Arguments MkSize (width height)%_float.
(** The sixteen entries of a matrix, in the order of [asArray]. *)
Record Matrix := MkMatrix { m_entries : list number }.

(** What a key's [value], a tangent or a cursor slot (all typed [any] in the
    source) holds on a well-typed track. *)
Inductive Value :=
| VNumber (n : number)
| VVector2 (v : Vector2)
| VVector3 (v : Vector3)
| VQuaternion (q : Quaternion)
| VMatrix (m : Matrix)
| VColor3 (c : Color3)
| VColor4 (c : Color4)
| VSize (s : Size).

(** The functions of the Maths library (math.scalar, math.vector,
    math.color, math.size) that the class calls.  The library is not part of
    the sources at hand: its functions are parameters of the development, and
    every theorem below holds for whatever they compute.  In-place variants
    ([addInPlace], [conjugateInPlace], the [ToRef] forms) are given by the
    contents they leave in their target. *)
Module Maths.
Record t := {
  Scalar_Lerp : number -> number -> number -> number;
  Scalar_Hermite : number -> number -> number -> number -> number -> number;
  Quaternion_Slerp : Quaternion -> Quaternion -> number -> Quaternion;
  Quaternion_Hermite :
    Quaternion -> Quaternion -> Quaternion -> Quaternion -> number -> Quaternion;
  Quaternion_normalize : Quaternion -> Quaternion;
  Quaternion_scale : Quaternion -> number -> Quaternion;
  Quaternion_add : Quaternion -> Quaternion -> Quaternion;
  Quaternion_conjugate : Quaternion -> Quaternion;
  Quaternion_multiply : Quaternion -> Quaternion -> Quaternion;
  Vector3_Lerp : Vector3 -> Vector3 -> number -> Vector3;
  Vector3_Hermite : Vector3 -> Vector3 -> Vector3 -> Vector3 -> number -> Vector3;
  Vector3_scale : Vector3 -> number -> Vector3;
  Vector3_add : Vector3 -> Vector3 -> Vector3;
  Vector3_subtract : Vector3 -> Vector3 -> Vector3;
  Vector3_divide : Vector3 -> Vector3 -> Vector3;
  Vector2_Lerp : Vector2 -> Vector2 -> number -> Vector2;
  Vector2_Hermite : Vector2 -> Vector2 -> Vector2 -> Vector2 -> number -> Vector2;
  Vector2_scale : Vector2 -> number -> Vector2;
  Vector2_add : Vector2 -> Vector2 -> Vector2;
  Vector2_subtract : Vector2 -> Vector2 -> Vector2;
  Size_Lerp : Size -> Size -> number -> Size;
  Size_scale : Size -> number -> Size;
  Size_add : Size -> Size -> Size;
  Color3_Lerp : Color3 -> Color3 -> number -> Color3;
  Color3_Hermite : Color3 -> Color3 -> Color3 -> Color3 -> number -> Color3;
  Color3_scale : Color3 -> number -> Color3;
  Color3_add : Color3 -> Color3 -> Color3;
  Color3_subtract : Color3 -> Color3 -> Color3;
  Color4_Lerp : Color4 -> Color4 -> number -> Color4;
  Color4_Hermite : Color4 -> Color4 -> Color4 -> Color4 -> number -> Color4;
  Color4_scale : Color4 -> number -> Color4;
  Color4_add : Color4 -> Color4 -> Color4;
  Color4_subtract : Color4 -> Color4 -> Color4;
  Matrix_Lerp : Matrix -> Matrix -> number -> Matrix;
  Matrix_DecomposeLerp : Matrix -> Matrix -> number -> Matrix;
(** [decompose(scale, rotation, translation)] *)
Matrix_decompose : Matrix -> Vector3 * Quaternion * Vector3;
Matrix_Compose : Vector3 -> Quaternion -> Vector3 -> Matrix;
}.
End Maths.

(** ** Keys, cursors, ranges and events *)

(** [AnimationKeyInterpolation.STEP] *)
Definition STEP : number := 1%float.

(** What the [interpolation] slot of a key holds: a number (the enumeration
    value) or, after [Parse] on a Color4 track, the object that
    [Color4.FromArray] built from the number found in the slot. *)
Inductive InterpolationSlot :=
| InterpNumber (n : number)
| InterpColor4FromArray (n : number).

Module IAnimationKey.
Record t := mk {
  frame : number;
  value : Value;
  inTangent : option Value;
  outTangent : option Value;
  interpolation : option InterpolationSlot;
}.
End IAnimationKey.

(** [key.interpolation === AnimationKeyInterpolation.STEP] *)
Definition isStep (k : IAnimationKey.t) : bool :=
  match IAnimationKey.interpolation k with
  | Some (InterpNumber n) => JsNumber.strictEq n STEP
  | _ => false
  end.

Module _IAnimationState.
Record t := mk {
  key : Z;
  repeatCount : number;
  workValue : option Value;
  loopMode : option Z;
  offsetValue : option Value;
  highLimitValue : option Value;
}.
Definition set_key (k : Z) (s : t) : t :=
  mk k (repeatCount s) (workValue s) (loopMode s) (offsetValue s) (highLimitValue s).
Definition set_workValue (w : option Value) (s : t) : t :=
  mk (key s) (repeatCount s) w (loopMode s) (offsetValue s) (highLimitValue s).
Definition set_loopMode (l : option Z) (s : t) : t :=
  mk (key s) (repeatCount s) (workValue s) l (offsetValue s) (highLimitValue s).
End _IAnimationState.

Module AnimationRange.
Record t := mk { name : string; from : number; to : number }.
Definition clone (r : t) : t := mk (name r) (from r) (to r).
End AnimationRange.

(** An event: its frame, and a tag standing for the rest of the object
    (action, flags), which the class never reads. *)
Module AnimationEvent.
Record t := mk { frame : number; tag : nat }.
Arguments mk frame%_float tag%_nat.
End AnimationEvent.

(** The two static switches of the class. *)
Record Switches := {
  AllowMatricesInterpolation : bool;
  AllowMatrixDecomposeForInterpolation : bool;
}.

(** ** Plain objects used as dictionaries

    [_ranges] is a plain object, [{}] when the track is made.  Reading
    [o[name]] finds the property of that name the object has for itself or,
    when it has none, the member its prototype has under that name: the
    prototype of [{}] is [Object.prototype], whose members are the functions
    listed below and the accessor [__proto__].  An assignment [o[name] = v]
    writes a property of the object's own, except under the name [__proto__]
    while that accessor is inherited: its setter makes [v] the prototype of
    [o]. *)

Module Dictionary.

(** The names [Object.prototype] has a member under (the language standard,
    properties of the Object prototype object). *)
Definition inheritedNames : list string :=
  ["constructor"; "hasOwnProperty"; "isPrototypeOf"; "propertyIsEnumerable";
   "toLocaleString"; "toString"; "valueOf"; "__defineGetter__"; "__defineSetter__";
   "__lookupGetter__"; "__lookupSetter__"; "__proto__"].

Definition inherited (name : string) : bool :=
  bool_decide (name ∈ inheritedNames).

(** The prototype of a dictionary: [Object.prototype], or null once null
    was assigned to [__proto__]. *)
Inductive prototype := ObjectPrototype | NullPrototype.

(** What [o[name]] finds: the value of a property of [o]'s own, the member of
    [Object.prototype] of that name (a function; [Object.prototype] itself
    under [__proto__]), or [undefined]. *)
Inductive property (A : Type) : Type :=
| Own (a : A)
| Inherited (name : string)
| Undefined.
Arguments Own {A} a.
Arguments Inherited {A} name.
Arguments Undefined {A}.

(** [o[name]], for the object whose own properties are [own]. *)
Definition get {A} (own : gmap string A) (proto : prototype) (name : string)
    : property A :=
  match own !! name with
  | Some a => Own a
  | None =>
      match proto with
      | ObjectPrototype => if inherited name then Inherited name else Undefined
      | NullPrototype => Undefined
      end
  end.

(** [if (o[name])] where the own properties hold an object or null: an
    object and an inherited member are truthy, null and [undefined] are not. *)
Definition truthy {A} (p : property (option A)) : bool :=
  match p with
  | Own (Some _) | Inherited _ => true
  | Own None | Undefined => false
  end.

End Dictionary.

(** ** The language's [Array.prototype.sort]

    The standard fixes the result of [sort(comparefn)] when [comparefn] is a
    consistent comparator for the elements of the array: they come in
    ascending order of [comparefn], and those it holds equal keep the order
    they had in the array (the sort is stable).  For any other [comparefn]
    the order is implementation-defined; the array still holds the same
    elements.  The sort of the engine is therefore a parameter of the class,
    and [conforms] says what the standard requires of it. *)

Module ArraySort.

(** [a <CF b], [a =CF b] (a zero of either sign) and [a >CF b]. *)
Definition before {A} (comparefn : A -> A -> number) (a b : A) : bool :=
  JsNumber.lt (comparefn a b) 0%float.
Definition same {A} (comparefn : A -> A -> number) (a b : A) : bool :=
  JsNumber.strictEq (comparefn a b) 0%float.
Definition after {A} (comparefn : A -> A -> number) (a b : A) : bool :=
  JsNumber.gt (comparefn a b) 0%float.

(** [comparefn] is a consistent comparator for the values of [S]: it never
    answers [NaN], and [=CF] is reflexive, symmetric and transitive, [<CF]
    and [>CF] are transitive. *)
Definition consistent {A} (comparefn : A -> A -> number) (S : list A) : Prop :=
  forall a b c, In a S -> In b S -> In c S ->
    JsNumber.isNaN (comparefn a b) = false
    /\ same comparefn a a = true
    /\ (same comparefn a b = true -> same comparefn b a = true)
    /\ (same comparefn a b = true -> same comparefn b c = true ->
        same comparefn a c = true)
    /\ (before comparefn a b = true -> before comparefn b c = true ->
        before comparefn a c = true)
    /\ (after comparefn a b = true -> after comparefn b c = true ->
        after comparefn a c = true).

(** The stable sort: the elements are inserted from left to right, each one
    before the first element that [comparefn] puts strictly after it. *)
Fixpoint insert {A} (comparefn : A -> A -> number) (x : A) (sorted : list A)
    : list A :=
  match sorted with
  | [] => [x]
  | y :: rest =>
      if before comparefn x y then x :: y :: rest
      else y :: insert comparefn x rest
  end.

Definition stable {A} (comparefn : A -> A -> number) (l : list A) : list A :=
  fold_left (fun sorted x => insert comparefn x sorted) l [].

(** A sort function of the language. *)
Definition t : Type := forall A : Type, (A -> A -> number) -> list A -> list A.

(** What the standard requires of it. *)
Definition conforms (sort : t) : Prop :=
  forall (A : Type) (comparefn : A -> A -> number) (l : list A),
    sort A comparefn l ≡ₚ l
    /\ (consistent comparefn l -> sort A comparefn l = stable comparefn l).

(** An engine whose sort is the stable sort for every [comparefn]. *)
Definition reference : t := fun A => stable.

End ArraySort.

(** ** The class *)

Module Animation.

Definition ANIMATIONTYPE_FLOAT : Z := 0.
Definition ANIMATIONTYPE_VECTOR3 : Z := 1.
Definition ANIMATIONTYPE_QUATERNION : Z := 2.
Definition ANIMATIONTYPE_MATRIX : Z := 3.
Definition ANIMATIONTYPE_COLOR3 : Z := 4.
Definition ANIMATIONTYPE_COLOR4 : Z := 7.
Definition ANIMATIONTYPE_VECTOR2 : Z := 5.
Definition ANIMATIONTYPE_SIZE : Z := 6.
Definition ANIMATIONLOOPMODE_RELATIVE : Z := 0.
Definition ANIMATIONLOOPMODE_CYCLE : Z := 1.
Definition ANIMATIONLOOPMODE_CONSTANT : Z := 2.
Definition ANIMATIONLOOPMODE_YOYO : Z := 4.

(** The contents of a track.  [_easingFunction] is the [ease] method of the
    easing object, [None] for [null].  [_ranges] holds the properties the
    range dictionary has for itself: a name is mapped to [Some r], or to
    [None] once the range was deleted (the property stays, holding [null]);
    [_rangesPrototype] is the prototype of that dictionary.  [_keys] is the
    contents of the key array. *)
Record t := mk {
  uniqueId : Z;
  name : string;
  targetProperty : string;
  framePerSecond : number;
  dataType : Z;
  loopMode : Z;
  enableBlending : option bool;
  blendingSpeed : number;
  _keys : list IAnimationKey.t;
  _easingFunction : option (number -> number);
  _events : list AnimationEvent.t;
  _ranges : gmap string (option AnimationRange.t);
  _rangesPrototype : Dictionary.prototype;
}.

Definition set_keys (ks : list IAnimationKey.t) (a : t) : t :=
  mk (uniqueId a) (name a) (targetProperty a) (framePerSecond a) (dataType a)
     (loopMode a) (enableBlending a) (blendingSpeed a) ks (_easingFunction a)
     (_events a) (_ranges a) (_rangesPrototype a).
Definition set_events (es : list AnimationEvent.t) (a : t) : t :=
  mk (uniqueId a) (name a) (targetProperty a) (framePerSecond a) (dataType a)
     (loopMode a) (enableBlending a) (blendingSpeed a) (_keys a)
     (_easingFunction a) es (_ranges a) (_rangesPrototype a).
Definition set_ranges (rs : gmap string (option AnimationRange.t)) (a : t) : t :=
  mk (uniqueId a) (name a) (targetProperty a) (framePerSecond a) (dataType a)
     (loopMode a) (enableBlending a) (blendingSpeed a) (_keys a)
     (_easingFunction a) (_events a) rs (_rangesPrototype a).
Definition set_rangesPrototype (p : Dictionary.prototype) (a : t) : t :=
  mk (uniqueId a) (name a) (targetProperty a) (framePerSecond a) (dataType a)
     (loopMode a) (enableBlending a) (blendingSpeed a) (_keys a)
     (_easingFunction a) (_events a) (_ranges a) p.

(** The constructor; [uid] is the value of [_UniqueIdGenerator] at the
    call, and [loopMode] defaults to CYCLE. *)
Definition new (uid : Z) (name targetProperty : string) (framePerSecond : number)
    (dataType : Z) (loopMode : option Z) (enableBlending : option bool) : t :=
  mk uid name targetProperty framePerSecond dataType
     (match loopMode with None => ANIMATIONLOOPMODE_CYCLE | Some m => m end)
     enableBlending 0.01%float [] None [] ∅ Dictionary.ObjectPrototype.

Definition getKeys (this : t) : list IAnimationKey.t := _keys this.
Definition getEvents (this : t) : list AnimationEvent.t := _events this.
Definition getEasingFunction (this : t) : option (number -> number) :=
  _easingFunction this.
(** [getRange(name)]: what [this._ranges[name]] finds, a range, null, an
    inherited member or [undefined]. *)
Definition getRange (this : t) (name : string)
    : Dictionary.property (option AnimationRange.t) :=
  Dictionary.get (_ranges this) (_rangesPrototype this) name.

(** [_getKeyValue]: key values are data here, never functions. *)
Definition _getKeyValue (v : Value) : Value := v.

(** *** The evaluator *)

Section Evaluator.
Context (M : Maths.t) (sw : Switches).

Definition floatInterpolateFunction (startValue endValue gradient : number) :=
  Maths.Scalar_Lerp M startValue endValue gradient.
Definition floatInterpolateFunctionWithTangents
    (startValue outTangent endValue inTangent gradient : number) :=
  Maths.Scalar_Hermite M startValue outTangent endValue inTangent gradient.
Definition quaternionInterpolateFunction (startValue endValue : Quaternion)
    (gradient : number) :=
  Maths.Quaternion_Slerp M startValue endValue gradient.
Definition quaternionInterpolateFunctionWithTangents
    (startValue outTangent endValue inTangent : Quaternion) (gradient : number) :=
  Maths.Quaternion_normalize M
    (Maths.Quaternion_Hermite M startValue outTangent endValue inTangent gradient).
Definition vector3InterpolateFunction (startValue endValue : Vector3)
    (gradient : number) :=
  Maths.Vector3_Lerp M startValue endValue gradient.
Definition vector3InterpolateFunctionWithTangents
    (startValue outTangent endValue inTangent : Vector3) (gradient : number) :=
  Maths.Vector3_Hermite M startValue outTangent endValue inTangent gradient.
Definition vector2InterpolateFunction (startValue endValue : Vector2)
    (gradient : number) :=
  Maths.Vector2_Lerp M startValue endValue gradient.
Definition vector2InterpolateFunctionWithTangents
    (startValue outTangent endValue inTangent : Vector2) (gradient : number) :=
  Maths.Vector2_Hermite M startValue outTangent endValue inTangent gradient.
Definition sizeInterpolateFunction (startValue endValue : Size)
    (gradient : number) :=
  Maths.Size_Lerp M startValue endValue gradient.
Definition color3InterpolateFunction (startValue endValue : Color3)
    (gradient : number) :=
  Maths.Color3_Lerp M startValue endValue gradient.
Definition color3InterpolateFunctionWithTangents
    (startValue outTangent endValue inTangent : Color3) (gradient : number) :=
  Maths.Color3_Hermite M startValue outTangent endValue inTangent gradient.
Definition color4InterpolateFunction (startValue endValue : Color4)
    (gradient : number) :=
  Maths.Color4_Lerp M startValue endValue gradient.
Definition color4InterpolateFunctionWithTangents
    (startValue outTangent endValue inTangent : Color4) (gradient : number) :=
  Maths.Color4_Hermite M startValue outTangent endValue inTangent gradient.

(** [matrixInterpolateFunction]: the matrix returned; when a [result]
    matrix is passed it is that object, overwritten. *)
Definition matrixInterpolateFunction (startValue endValue : Matrix)
    (gradient : number) : Matrix :=
  if AllowMatrixDecomposeForInterpolation sw
  then Maths.Matrix_DecomposeLerp M startValue endValue gradient
  else Maths.Matrix_Lerp M startValue endValue gradient.

(** [while (key >= 0 && currentFrame < keys[key].frame) --key;]
    run with [n = key + 1] (0 when [key] is negative): the guard
    [key >= 0] holds exactly when [n] is a successor. *)
Fixpoint walkLeft (keys : list IAnimationKey.t) (currentFrame : number)
    (n : nat) (key : Z) : outcome Z :=
  match n with
  | O => Returns key
  | S n' =>
      match lookupZ keys key with
      | None => Throws TypeError
      | Some k =>
          if JsNumber.lt currentFrame (IAnimationKey.frame k)
          then walkLeft keys currentFrame n' (key - 1)
          else Returns key
      end
  end.

(** [while (key + 1 <= keysLength - 1 && currentFrame >= keys[key + 1].frame) ++key;]
    run with [n = keysLength - 1 - key] (0 when that is negative): the
    guard [key + 1 <= keysLength - 1] holds exactly when [n] is a
    successor. *)
Fixpoint walkRight (keys : list IAnimationKey.t) (currentFrame : number)
    (n : nat) (key : Z) : outcome Z :=
  match n with
  | O => Returns key
  | S n' =>
      match lookupZ keys (key + 1) with
      | None => Throws TypeError
      | Some k =>
          if JsNumber.ge currentFrame (IAnimationKey.frame k)
          then walkRight keys currentFrame n' (key + 1)
          else Returns key
      end
  end.

(** [keys[i].value], a TypeError when [keys[i]] is undefined. *)
Definition keyValueAt (keys : list IAnimationKey.t) (i : Z) : outcome Value :=
  match lookupZ keys i with
  | Some k => Returns (_getKeyValue (IAnimationKey.value k))
  | None => Throws TypeError
  end.

Definition isLoopMode (m : Z) (l : option Z) : bool :=
  match l with Some x => x =? m | None => false end.

(** [case CYCLE: case CONSTANT: case YOYO:] *)
Definition isCycleConstantYoyo (l : option Z) : bool :=
  isLoopMode ANIMATIONLOOPMODE_CYCLE l
  || isLoopMode ANIMATIONLOOPMODE_CONSTANT l
  || isLoopMode ANIMATIONLOOPMODE_YOYO l.

(** [x.m(...)] on a slot that may be undefined. *)
Definition defined {A} (o : option A) : outcome A :=
  match o with Some a => Returns a | None => Throws TypeError end.

Definition asNumber (v : Value) : outcome number :=
  match v with VNumber n => Returns n | _ => Throws IllTyped end.
Definition asQuaternion (v : Value) : outcome Quaternion :=
  match v with VQuaternion q => Returns q | _ => Throws IllTyped end.
Definition asVector3 (v : Value) : outcome Vector3 :=
  match v with VVector3 q => Returns q | _ => Throws IllTyped end.
Definition asVector2 (v : Value) : outcome Vector2 :=
  match v with VVector2 q => Returns q | _ => Throws IllTyped end.
Definition asSize (v : Value) : outcome Size :=
  match v with VSize q => Returns q | _ => Throws IllTyped end.
Definition asColor3 (v : Value) : outcome Color3 :=
  match v with VColor3 q => Returns q | _ => Throws IllTyped end.
Definition asColor4 (v : Value) : outcome Color4 :=
  match v with VColor4 q => Returns q | _ => Throws IllTyped end.
Definition asMatrix (v : Value) : outcome Matrix :=
  match v with VMatrix q => Returns q | _ => Throws IllTyped end.

(** The [switch (state.loopMode)] of a data type whose interpolated value
    is [v]: the value itself under CYCLE, CONSTANT and YOYO, [relative]
    under RELATIVE, [otherwise] under any other mode. *)
Definition loopSwitch (state : _IAnimationState.t) (v : Value)
    (relative otherwise : outcome Value) : outcome Value :=
  if isCycleConstantYoyo (_IAnimationState.loopMode state) then Returns v
  else if isLoopMode ANIMATIONLOOPMODE_RELATIVE (_IAnimationState.loopMode state)
  then relative
  else otherwise.

(** [return 0], reached when a [switch] matched no case. *)
Definition fallThrough : outcome Value := Returns (VNumber 0%float).

(** The [switch (this.dataType)] of [_interpolate], reached with the two
    keys that bound the frame. *)
Definition interpolateSegment (this : t) (startKey endKey : IAnimationKey.t)
    (frameDelta gradient : number) (state : _IAnimationState.t)
    : outcome Value * _IAnimationState.t :=
  let startValue := _getKeyValue (IAnimationKey.value startKey) in
  let endValue := _getKeyValue (IAnimationKey.value endKey) in
  let tangents :=
    match IAnimationKey.outTangent startKey, IAnimationKey.inTangent endKey with
    | Some o, Some i => Some (o, i)
    | _, _ => None
    end in
  let repeatCount := _IAnimationState.repeatCount state in
  let offsetValue := _IAnimationState.offsetValue state in
  let dt := dataType this in
  if dt =? ANIMATIONTYPE_FLOAT then
    (let* s := asNumber startValue in
     let* e := asNumber endValue in
     let* floatValue :=
       match tangents with
       | Some (o, i) =>
           let* o := asNumber o in
           let* i := asNumber i in
           Returns (floatInterpolateFunctionWithTangents
                      s (o * frameDelta)%float e (i * frameDelta)%float gradient)
       | None => Returns (floatInterpolateFunction s e gradient)
       end in
     loopSwitch state (VNumber floatValue)
       (match offsetValue with
        | None => Returns (VNumber (nan * repeatCount + floatValue)%float)
        | Some off =>
            let* off := asNumber off in
            Returns (VNumber (off * repeatCount + floatValue)%float)
        end)
       fallThrough,
     state)
  else if dt =? ANIMATIONTYPE_QUATERNION then
    (let* s := asQuaternion startValue in
     let* e := asQuaternion endValue in
     let* quatValue :=
       match tangents with
       | Some (o, i) =>
           let* o := asQuaternion o in
           let* i := asQuaternion i in
           Returns (quaternionInterpolateFunctionWithTangents
                      s (Maths.Quaternion_scale M o frameDelta)
                      e (Maths.Quaternion_scale M i frameDelta) gradient)
       | None => Returns (quaternionInterpolateFunction s e gradient)
       end in
     loopSwitch state (VQuaternion quatValue)
       (let* off := defined offsetValue in
        let* off := asQuaternion off in
        Returns (VQuaternion (Maths.Quaternion_add M quatValue
                                (Maths.Quaternion_scale M off repeatCount))))
       (Returns (VQuaternion quatValue)),
     state)
  else if dt =? ANIMATIONTYPE_VECTOR3 then
    (let* s := asVector3 startValue in
     let* e := asVector3 endValue in
     let* vec3Value :=
       match tangents with
       | Some (o, i) =>
           let* o := asVector3 o in
           let* i := asVector3 i in
           Returns (vector3InterpolateFunctionWithTangents
                      s (Maths.Vector3_scale M o frameDelta)
                      e (Maths.Vector3_scale M i frameDelta) gradient)
       | None => Returns (vector3InterpolateFunction s e gradient)
       end in
     loopSwitch state (VVector3 vec3Value)
       (let* off := defined offsetValue in
        let* off := asVector3 off in
        Returns (VVector3 (Maths.Vector3_add M vec3Value
                             (Maths.Vector3_scale M off repeatCount))))
       fallThrough,
     state)
  else if dt =? ANIMATIONTYPE_VECTOR2 then
    (let* s := asVector2 startValue in
     let* e := asVector2 endValue in
     let* vec2Value :=
       match tangents with
       | Some (o, i) =>
           let* o := asVector2 o in
           let* i := asVector2 i in
           Returns (vector2InterpolateFunctionWithTangents
                      s (Maths.Vector2_scale M o frameDelta)
                      e (Maths.Vector2_scale M i frameDelta) gradient)
       | None => Returns (vector2InterpolateFunction s e gradient)
       end in
     loopSwitch state (VVector2 vec2Value)
       (let* off := defined offsetValue in
        let* off := asVector2 off in
        Returns (VVector2 (Maths.Vector2_add M vec2Value
                             (Maths.Vector2_scale M off repeatCount))))
       fallThrough,
     state)
  else if dt =? ANIMATIONTYPE_SIZE then
    (if isCycleConstantYoyo (_IAnimationState.loopMode state)
        || isLoopMode ANIMATIONLOOPMODE_RELATIVE (_IAnimationState.loopMode state)
     then
       let* s := asSize startValue in
       let* e := asSize endValue in
       let sizeValue := sizeInterpolateFunction s e gradient in
       loopSwitch state (VSize sizeValue)
         (let* off := defined offsetValue in
          let* off := asSize off in
          Returns (VSize (Maths.Size_add M sizeValue
                            (Maths.Size_scale M off repeatCount))))
         fallThrough
     else fallThrough,
     state)
  else if dt =? ANIMATIONTYPE_COLOR3 then
    (let* s := asColor3 startValue in
     let* e := asColor3 endValue in
     let* color3Value :=
       match tangents with
       | Some (o, i) =>
           let* o := asColor3 o in
           let* i := asColor3 i in
           Returns (color3InterpolateFunctionWithTangents
                      s (Maths.Color3_scale M o frameDelta)
                      e (Maths.Color3_scale M i frameDelta) gradient)
       | None => Returns (color3InterpolateFunction s e gradient)
       end in
     loopSwitch state (VColor3 color3Value)
       (let* off := defined offsetValue in
        let* off := asColor3 off in
        Returns (VColor3 (Maths.Color3_add M color3Value
                            (Maths.Color3_scale M off repeatCount))))
       fallThrough,
     state)
  else if dt =? ANIMATIONTYPE_COLOR4 then
    (let* s := asColor4 startValue in
     let* e := asColor4 endValue in
     let* color4Value :=
       match tangents with
       | Some (o, i) =>
           let* o := asColor4 o in
           let* i := asColor4 i in
           Returns (color4InterpolateFunctionWithTangents
                      s (Maths.Color4_scale M o frameDelta)
                      e (Maths.Color4_scale M i frameDelta) gradient)
       | None => Returns (color4InterpolateFunction s e gradient)
       end in
     loopSwitch state (VColor4 color4Value)
       (let* off := defined offsetValue in
        let* off := asColor4 off in
        Returns (VColor4 (Maths.Color4_add M color4Value
                            (Maths.Color4_scale M off repeatCount))))
       fallThrough,
     state)
  else if dt =? ANIMATIONTYPE_MATRIX then
    if isCycleConstantYoyo (_IAnimationState.loopMode state) then
      if AllowMatricesInterpolation sw then
        match asMatrix startValue, asMatrix endValue with
        | Returns s, Returns e =>
            let result := VMatrix (matrixInterpolateFunction s e gradient) in
            (Returns result,
             match _IAnimationState.workValue state with
             | Some _ => _IAnimationState.set_workValue (Some result) state
             | None => state
             end)
        | Throws err, _ | _, Throws err => (Throws err, state)
        end
      else (Returns startValue, state)
    else if isLoopMode ANIMATIONLOOPMODE_RELATIVE (_IAnimationState.loopMode state)
    then (Returns startValue, state)
    else (fallThrough, state)
  else (fallThrough, state).

(** The two loops that move the cached index [key] to the key at or
    before [currentFrame]. *)
Definition resolveKey (keys : list IAnimationKey.t) (currentFrame : number)
    (key : Z) : outcome Z :=
  let keysLength := Z.of_nat (length keys) in
  let* key := walkLeft keys currentFrame (Z.to_nat (key + 1)) key in
  walkRight keys currentFrame (Z.to_nat (keysLength - 1 - key)) key.

(** [_interpolate(currentFrame, state)]: what the call returns or
    throws, and the cursor it leaves. *)
Definition _interpolate (this : t) (currentFrame : number)
    (state : _IAnimationState.t) : outcome Value * _IAnimationState.t :=
  if isLoopMode ANIMATIONLOOPMODE_CONSTANT (_IAnimationState.loopMode state)
     && JsNumber.gt (_IAnimationState.repeatCount state) 0%float
  then (defined (_IAnimationState.highLimitValue state), state)
  else
    let keys := _keys this in
    let keysLength := Z.of_nat (length keys) in
    match resolveKey keys currentFrame (_IAnimationState.key state) with
    | Throws e => (Throws e, state)
    | Returns key =>
        let state := _IAnimationState.set_key key state in
        if key <? 0 then (keyValueAt keys 0, state)
        else if key + 1 >? keysLength - 1
        then (keyValueAt keys (keysLength - 1), state)
        else
          match lookupZ keys key, lookupZ keys (key + 1) with
          | Some startKey, Some endKey =>
              let startValue := _getKeyValue (IAnimationKey.value startKey) in
              let endValue := _getKeyValue (IAnimationKey.value endKey) in
              if isStep startKey then
                if JsNumber.gt (IAnimationKey.frame endKey) currentFrame
                then (Returns startValue, state)
                else (Returns endValue, state)
              else
                let frameDelta :=
                  (IAnimationKey.frame endKey - IAnimationKey.frame startKey)%float in
                let gradient :=
                  ((currentFrame - IAnimationKey.frame startKey) / frameDelta)%float in
                let gradient :=
                  match getEasingFunction this with
                  | Some ease => ease gradient
                  | None => gradient
                  end in
                interpolateSegment this startKey endKey frameDelta gradient state
          | _, _ => (Throws TypeError, state)
          end
    end.

(** [evaluate(currentFrame)] *)
Definition evaluate (this : t) (currentFrame : number) : outcome Value :=
  fst (_interpolate this currentFrame
         (_IAnimationState.mk 0 0%float None (Some ANIMATIONLOOPMODE_CONSTANT)
            None None)).

End Evaluator.

(** *** Events and ranges *)

(** [(a, b) => a.frame - b.frame] *)
Definition frameComparator (a b : AnimationEvent.t) : number :=
  (AnimationEvent.frame a - AnimationEvent.frame b)%float.

(** [addEvent(event)], on an engine whose [Array.prototype.sort] is [sort]. *)
Definition addEvent (sort : ArraySort.t) (this : t) (event : AnimationEvent.t) : t :=
  let events := _events this ++ [event] in
  set_events (sort AnimationEvent.t frameComparator events) this.

(** The loop of [removeEvents], run with [n = length - index]: the guard
    [index < this._events.length] holds exactly when [n] is a successor
    (and [events[index]] is then defined). *)
Fixpoint removeEventsLoop (frame : number) (n : nat)
    (events : list AnimationEvent.t) (index : nat) : list AnimationEvent.t :=
  match n with
  | O => events
  | S n' =>
      match events !! index with
      | None => events
      | Some e =>
          if JsNumber.strictEq (AnimationEvent.frame e) frame
          then removeEventsLoop frame n' (splice_remove events index) index
          else removeEventsLoop frame n' events (S index)
      end
  end.

(** [removeEvents(frame)] *)
Definition removeEvents (this : t) (frame : number) : t :=
  set_events (removeEventsLoop frame (length (_events this)) (_events this) 0%nat) this.

(** [createRange(name, from, to)]: nothing is done when [this._ranges[name]]
    is truthy, a range or an inherited member.  Otherwise the assignment
    makes or overwrites a property of the dictionary's own: the name is not
    an inherited one there, so that no setter is reached. *)
Definition createRange (this : t) (name : string) (from to : number) : t :=
  if Dictionary.truthy (Dictionary.get (_ranges this) (_rangesPrototype this) name)
  then this
  else set_ranges (<[name := Some (AnimationRange.mk name from to)]> (_ranges this)) this.

(** The loop of [deleteRange], from the highest index down, run with
    [n = key + 1]; [keys[key]] is defined at every index it visits. *)
Fixpoint deleteRangeLoop (from to : number) (n : nat) (keys : list IAnimationKey.t)
    : list IAnimationKey.t :=
  match n with
  | O => keys
  | S key =>
      match keys !! key with
      | None => keys
      | Some k =>
          if JsNumber.ge (IAnimationKey.frame k) from
             && JsNumber.le (IAnimationKey.frame k) to
          then deleteRangeLoop from to key (splice_remove keys key)
          else deleteRangeLoop from to key keys
      end
  end.

(** [deleteRange(name, deleteFrames)].  When [this._ranges[name]] is an
    inherited member, [range.from] and [range.to] are [undefined], which no
    frame compares with (they are [NaN] in the comparisons of the loop); the
    assignment of null then makes a property of the dictionary's own, except
    under [__proto__], where the inherited setter makes null the prototype of
    the dictionary. *)
Definition deleteRange (this : t) (name : string) (deleteFrames : bool) : t :=
  match Dictionary.get (_ranges this) (_rangesPrototype this) name with
  | Dictionary.Own (Some range) =>
      let this :=
        if deleteFrames
        then set_keys (deleteRangeLoop (AnimationRange.from range) (AnimationRange.to range)
                         (length (_keys this)) (_keys this)) this
        else this in
      set_ranges (<[name := None]> (_ranges this)) this
  | Dictionary.Inherited _ =>
      let this :=
        if deleteFrames
        then set_keys (deleteRangeLoop nan nan (length (_keys this)) (_keys this)) this
        else this in
      if String.eqb name "__proto__"
      then set_rangesPrototype Dictionary.NullPrototype this
      else set_ranges (<[name := None]> (_ranges this)) this
  | Dictionary.Own None | Dictionary.Undefined => this
  end.

(** [getHighestFrame()] *)
Definition getHighestFrame (this : t) : number :=
  fold_left (fun ret k => if JsNumber.lt ret (IAnimationKey.frame k)
                          then IAnimationKey.frame k else ret)
            (_keys this) 0%float.

(** [setEasingFunction(easingFunction)] *)
Definition setEasingFunction (this : t) (easingFunction : option (number -> number)) : t :=
  mk (uniqueId this) (name this) (targetProperty this) (framePerSecond this)
     (dataType this) (loopMode this) (enableBlending this) (blendingSpeed this)
     (_keys this) easingFunction (_events this) (_ranges this) (_rangesPrototype this).

(** [setKeys(values)]: the track gets a copy of the array. *)
Definition setKeys (this : t) (values : list IAnimationKey.t) : t :=
  set_keys values this.

(** *** Serialization *)

(** An element of the [values] array of a serialized key: a number,
    [undefined], the array [asArray()] made of a tangent, or the object found
    in the [interpolation] slot of a key. *)
Inductive SValue :=
| SNumber (n : number)
| SUndefined
| SArray (ns : list number)
| SColor4FromArray (n : number).

Module SerializedKey.
Record t := mk { frame : number; values : option (list SValue) }.
End SerializedKey.

Module SerializedRange.
Record t := mk { name : string; from : number; to : number }.
End SerializedRange.

(** The serialization object; the fields [Parse] tests before it reads them
    are optional. *)
Module Serialized.
Record t := mk {
  name : string;
  property : string;
  framePerSecond : number;
  dataType : Z;
  loopBehavior : option Z;
  enableBlending : option bool;
  blendingSpeed : option number;
  keys : list SerializedKey.t;
  ranges : option (list SerializedRange.t);
}.
End Serialized.

(** [v.asArray()] *)
Definition asArray (v : Value) : outcome (list number) :=
  match v with
  | VNumber _ => Throws TypeError
  | VVector2 v => Returns [v2_x v; v2_y v]
  | VVector3 v => Returns [v3_x v; v3_y v; v3_z v]
  | VQuaternion q => Returns [q_x q; q_y q; q_z q; q_w q]
  | VMatrix m => Returns (m_entries m)
  | VColor3 c => Returns [c3_r c; c3_g c; c3_b c]
  | VColor4 c => Returns [c4_r c; c4_g c; c4_b c; c4_a c]
  | VSize _ => Throws IllTyped
  end.

Definition interpolationToS (i : InterpolationSlot) : SValue :=
  match i with
  | InterpNumber n => SNumber n
  | InterpColor4FromArray n => SColor4FromArray n
  end.

(** [if (x === undefined) key.values.push(undefined)] *)
Definition placeholder {A} (x : option A) : list SValue :=
  match x with
  | Some _ => []
  | None => [SUndefined]
  end.

(** The pushes that follow the value: [tangent] turns a tangent into the
    element pushed for it. *)
Definition optionalSlots (tangent : Value -> outcome SValue) (k : IAnimationKey.t)
    : outcome (list SValue) :=
  let* ins :=
    match IAnimationKey.inTangent k with
    | Some t => let* e := tangent t in Returns [e]
    | None => Returns []
    end in
  let* outs :=
    match IAnimationKey.outTangent k with
    | Some t =>
        let* e := tangent t in
        Returns (placeholder (IAnimationKey.inTangent k) ++ [e])
    | None => Returns []
    end in
  let interps :=
    match IAnimationKey.interpolation k with
    | Some i =>
        placeholder (IAnimationKey.inTangent k)
        ++ placeholder (IAnimationKey.outTangent k)
        ++ [interpolationToS i]
    | None => []
    end in
  Returns (ins ++ outs ++ interps).

(** The [switch (dataType)] of [serialize] for one key; [key.values] stays
    undefined for the data types it has no case for. *)
Definition serializeKey (dataType : Z) (animationKey : IAnimationKey.t)
    : outcome SerializedKey.t :=
  if dataType =? ANIMATIONTYPE_FLOAT then
    let* v := asNumber (IAnimationKey.value animationKey) in
    let* rest := optionalSlots (fun t => let* n := asNumber t in Returns (SNumber n))
                   animationKey in
    Returns (SerializedKey.mk (IAnimationKey.frame animationKey) (Some (SNumber v :: rest)))
  else if (dataType =? ANIMATIONTYPE_QUATERNION) || (dataType =? ANIMATIONTYPE_MATRIX)
          || (dataType =? ANIMATIONTYPE_VECTOR3) || (dataType =? ANIMATIONTYPE_COLOR3)
          || (dataType =? ANIMATIONTYPE_COLOR4)
  then
    let* vs := asArray (IAnimationKey.value animationKey) in
    let* rest := optionalSlots (fun t => let* a := asArray t in Returns (SArray a))
                   animationKey in
    Returns (SerializedKey.mk (IAnimationKey.frame animationKey)
               (Some (List.map SNumber vs ++ rest)))
  else Returns (SerializedKey.mk (IAnimationKey.frame animationKey) None).

Fixpoint serializeKeys (dataType : Z) (keys : list IAnimationKey.t)
    : outcome (list SerializedKey.t) :=
  match keys with
  | [] => Returns []
  | k :: rest =>
      let* sk := serializeKey dataType k in
      let* srest := serializeKeys dataType rest in
      Returns (sk :: srest)
  end.

(** The loop of [serialize] over the entries of [this._ranges]: null
    entries are skipped. *)
Definition serializeRanges (ranges : gmap string (option AnimationRange.t))
    : list SerializedRange.t :=
  omap (fun entry =>
          match entry.2 with
          | Some source =>
              Some (SerializedRange.mk entry.1 (AnimationRange.from source)
                      (AnimationRange.to source))
          | None => None
          end)
       (map_to_list ranges).

(** [serialize()] *)
Definition serialize (this : t) : outcome Serialized.t :=
  let* keys := serializeKeys (dataType this) (getKeys this) in
  Returns (Serialized.mk (name this) (targetProperty this) (framePerSecond this)
             (dataType this) (Some (loopMode this)) (enableBlending this)
             (Some (blendingSpeed this)) keys (Some (serializeRanges (_ranges this)))).

(** [if (x)] on an element of a [values] array (a missing element is
    [undefined]). *)
Definition truthy (x : option SValue) : bool :=
  match x with
  | Some (SNumber n) => negb (JsNumber.strictEq n 0%float) && negb (JsNumber.isNaN n)
  | Some SUndefined | None => false
  | Some (SArray _) | Some (SColor4FromArray _) => true
  end.

(** The numbers [FromArray] reads at [offset], ..., [offset + n - 1]; an
    element that is not a number leaves the typing invariant. *)
Fixpoint numbersAt (values : list SValue) (offset n : nat) : outcome (list number) :=
  match n with
  | O => Returns []
  | S n =>
      match values !! offset with
      | Some (SNumber x) =>
          let* rest := numbersAt values (S offset) n in Returns (x :: rest)
      | _ => Throws IllTyped
      end
  end.

Definition Quaternion_FromArray (values : list SValue) (offset : nat) : outcome Quaternion :=
  let* ns := numbersAt values offset 4 in
  match ns with
  | [x; y; z; w] => Returns (MkQuaternion x y z w)
  | _ => Throws IllTyped
  end.
Definition Vector3_FromArray (values : list SValue) : outcome Vector3 :=
  let* ns := numbersAt values 0 3 in
  match ns with
  | [x; y; z] => Returns (MkVector3 x y z)
  | _ => Throws IllTyped
  end.
Definition Color3_FromArray (values : list SValue) : outcome Color3 :=
  let* ns := numbersAt values 0 3 in
  match ns with
  | [r; g; b] => Returns (MkColor3 r g b)
  | _ => Throws IllTyped
  end.
Definition Color4_FromArray (values : list SValue) : outcome Color4 :=
  let* ns := numbersAt values 0 4 in
  match ns with
  | [r; g; b; a] => Returns (MkColor4 r g b a)
  | _ => Throws IllTyped
  end.
Definition Matrix_FromArray (values : list SValue) : outcome Matrix :=
  let* ns := numbersAt values 0 16 in Returns (MkMatrix ns).

(** [q.equals(Quaternion.Zero())] *)
Definition isZeroQuaternion (q : Quaternion) : bool :=
  JsNumber.strictEq (q_x q) 0%float && JsNumber.strictEq (q_y q) 0%float
  && JsNumber.strictEq (q_z q) 0%float && JsNumber.strictEq (q_w q) 0%float.

(** An element read as a number, a tangent array or an interpolation value;
    [None] for [undefined]. *)
Definition elementNumber (x : option SValue) : outcome (option Value) :=
  match x with
  | Some (SNumber n) => Returns (Some (VNumber n))
  | Some SUndefined | None => Returns None
  | _ => Throws IllTyped
  end.
Definition elementInterpolation (x : option SValue) : outcome (option InterpolationSlot) :=
  match x with
  | Some (SNumber n) => Returns (Some (InterpNumber n))
  | Some (SColor4FromArray n) => Returns (Some (InterpColor4FromArray n))
  | Some SUndefined | None => Returns None
  | Some (SArray _) => Throws IllTyped
  end.
(** [if (key.values[i]) tangent = T.FromArray(key.values[i])] *)
Definition elementTangent {T} (fromArray : list SValue -> outcome T) (wrap : T -> Value)
    (x : option SValue) : outcome (option Value) :=
  if truthy x then
    match x with
    | Some (SArray ns) => let* t := fromArray (List.map SNumber ns) in Returns (Some (wrap t))
    | _ => Throws IllTyped
    end
  else Returns None.

(** The [switch (dataType)] of [Parse] for one key. *)
Definition parseKey (dataType : Z) (key : SerializedKey.t) : outcome IAnimationKey.t :=
  match SerializedKey.values key with
  | None => Throws TypeError
  | Some values =>
      let len := length values in
      let frame := SerializedKey.frame key in
      if dataType =? ANIMATIONTYPE_FLOAT then
        let* data := elementNumber (values !! 0%nat) in
        let* data := match data with Some v => Returns v | None => Throws IllTyped end in
        let* inTangent := if (2 <=? len)%nat then elementNumber (values !! 1%nat)
                          else Returns None in
        let* outTangent := if (3 <=? len)%nat then elementNumber (values !! 2%nat)
                           else Returns None in
        let* interpolation := if (4 <=? len)%nat then elementInterpolation (values !! 3%nat)
                              else Returns None in
        Returns (IAnimationKey.mk frame data inTangent outTangent interpolation)
      else if dataType =? ANIMATIONTYPE_QUATERNION then
        let* data := Quaternion_FromArray values 0 in
        let* inTangent :=
          if (8 <=? len)%nat then
            let* t := Quaternion_FromArray values 4 in
            Returns (if isZeroQuaternion t then None else Some (VQuaternion t))
          else Returns None in
        let* outTangent :=
          if (12 <=? len)%nat then
            let* t := Quaternion_FromArray values 8 in
            Returns (if isZeroQuaternion t then None else Some (VQuaternion t))
          else Returns None in
        let* interpolation := if (13 <=? len)%nat then elementInterpolation (values !! 12%nat)
                              else Returns None in
        Returns (IAnimationKey.mk frame (VQuaternion data) inTangent outTangent interpolation)
      else if dataType =? ANIMATIONTYPE_MATRIX then
        let* data := Matrix_FromArray values in
        let* interpolation := if (17 <=? len)%nat then elementInterpolation (values !! 16%nat)
                              else Returns None in
        Returns (IAnimationKey.mk frame (VMatrix data) None None interpolation)
      else if dataType =? ANIMATIONTYPE_COLOR3 then
        let* data := Color3_FromArray values in
        let* inTangent := elementTangent Color3_FromArray VColor3 (values !! 3%nat) in
        let* outTangent := elementTangent Color3_FromArray VColor3 (values !! 4%nat) in
        let* interpolation :=
          if truthy (values !! 5%nat) then elementInterpolation (values !! 5%nat)
          else Returns None in
        Returns (IAnimationKey.mk frame (VColor3 data) inTangent outTangent interpolation)
      else if dataType =? ANIMATIONTYPE_COLOR4 then
        let* data := Color4_FromArray values in
        let* inTangent := elementTangent Color4_FromArray VColor4 (values !! 4%nat) in
        let* outTangent := elementTangent Color4_FromArray VColor4 (values !! 5%nat) in
        let* interpolation :=
          if truthy (values !! 6%nat) then
            match values !! 6%nat with
            | Some (SNumber n) => Returns (Some (InterpColor4FromArray n))
            | _ => Throws IllTyped
            end
          else Returns None in
        Returns (IAnimationKey.mk frame (VColor4 data) inTangent outTangent interpolation)
      else
        let* data := Vector3_FromArray values in
        let* inTangent := elementTangent Vector3_FromArray VVector3 (values !! 3%nat) in
        let* outTangent := elementTangent Vector3_FromArray VVector3 (values !! 4%nat) in
        let* interpolation :=
          if truthy (values !! 5%nat) then elementInterpolation (values !! 5%nat)
          else Returns None in
        Returns (IAnimationKey.mk frame (VVector3 data) inTangent outTangent interpolation)
  end.

Fixpoint parseKeys (dataType : Z) (keys : list SerializedKey.t)
    : outcome (list IAnimationKey.t) :=
  match keys with
  | [] => Returns []
  | k :: rest =>
      let* pk := parseKey dataType k in
      let* prest := parseKeys dataType rest in
      Returns (pk :: prest)
  end.

(** [Parse(parsedAnimation)]; [uid] is the value of [_UniqueIdGenerator] at
    the call. *)
Definition Parse (uid : Z) (parsedAnimation : Serialized.t) : outcome t :=
  let animation :=
    new uid (Serialized.name parsedAnimation) (Serialized.property parsedAnimation)
      (Serialized.framePerSecond parsedAnimation) (Serialized.dataType parsedAnimation)
      (Serialized.loopBehavior parsedAnimation) None in
  let animation :=
    mk (uniqueId animation) (name animation) (targetProperty animation)
       (framePerSecond animation) (dataType animation) (loopMode animation)
       (match Serialized.enableBlending parsedAnimation with
        | Some true => Some true
        | _ => enableBlending animation
        end)
       (match Serialized.blendingSpeed parsedAnimation with
        | Some b => if truthy (Some (SNumber b)) then b else blendingSpeed animation
        | None => blendingSpeed animation
        end)
       (_keys animation) (_easingFunction animation) (_events animation)
       (_ranges animation) (_rangesPrototype animation) in
  let* keys := parseKeys (Serialized.dataType parsedAnimation)
                 (Serialized.keys parsedAnimation) in
  let animation := setKeys animation keys in
  Returns
    match Serialized.ranges parsedAnimation with
    | Some ranges =>
        fold_left (fun animation data =>
                     createRange animation (SerializedRange.name data)
                       (SerializedRange.from data) (SerializedRange.to data))
                  ranges animation
    | None => animation
    end.

End Animation.

(** ** Static helpers of the class *)

(** [isFinite(x)] on a number. *)
Definition isFinite (x : number) : bool := PrimFloat.is_finite x.

Section Prepare.
(** What the test [!isNaN(parseFloat(from)) && isFinite(from)] answers on an
    instance of a Maths class: it is fixed by the conversions of these classes
    to strings and numbers, which are not part of the sources at hand. *)
Context (numericObject : Value -> bool).

(** [!isNaN(parseFloat(from)) && isFinite(from)]: on a number, [parseFloat]
    reads the number back from its decimal form ([NaN] stays [NaN], an
    infinity stays infinite), so the test is [isFinite(from)]. *)
Definition isNumeric (from : Value) : bool :=
  match from with
  | VNumber n => isFinite n
  | _ => numericObject from
  end.

(** [_PrepareAnimation(name, targetProperty, framePerSecond, totalFrame, from,
    to, loopMode, easingFunction)]; [None] for [null], and for arguments left
    [undefined].  [uid] is the value of [_UniqueIdGenerator] at the call. *)
Definition _PrepareAnimation (uid : Z) (name targetProperty : string)
    (framePerSecond totalFrame : number) (from to : Value) (loopMode : option Z)
    (easingFunction : option (number -> number)) : option Animation.t :=
  let dataType :=
    if isNumeric from then Some Animation.ANIMATIONTYPE_FLOAT
    else match from with
         | VQuaternion _ => Some Animation.ANIMATIONTYPE_QUATERNION
         | VVector3 _ => Some Animation.ANIMATIONTYPE_VECTOR3
         | VVector2 _ => Some Animation.ANIMATIONTYPE_VECTOR2
         | VColor3 _ => Some Animation.ANIMATIONTYPE_COLOR3
         | VColor4 _ => Some Animation.ANIMATIONTYPE_COLOR4
         | VSize _ => Some Animation.ANIMATIONTYPE_SIZE
         | VNumber _ | VMatrix _ => None
         end in
  match dataType with
  | None => None
  | Some dataType =>
      let animation :=
        Animation.new uid name targetProperty framePerSecond dataType loopMode None in
      let keys := [IAnimationKey.mk 0%float from None None None;
                   IAnimationKey.mk totalFrame to None None None] in
      let animation := Animation.setKeys animation keys in
      Some match easingFunction with
           | Some ease => Animation.setEasingFunction animation (Some ease)
           | None => animation
           end
  end.

End Prepare.

(** ** Objects and references

    [clone] and [MakeAnimationAdditive] share objects between tracks and
    update them in place, and the second compares two values by identity.
    They are modelled on a store of objects: a slot of a key holds a number
    or a reference; arrays, keys, ranges and the instances of the Maths types
    are objects of the store. *)

Module Objects.

Definition loc := nat.

(** What a slot typed [any] holds: a number or a reference to an object. *)
Inductive ref :=
| RNumber (n : number)
| RObject (l : loc).

Module Key.
Record t := mk {
  frame : number;
  value : ref;
  inTangent : option ref;
  outTangent : option ref;
  interpolation : option InterpolationSlot;
}.
Definition set_frame (f : number) (k : t) : t :=
  mk f (value k) (inTangent k) (outTangent k) (interpolation k).
Definition set_value (v : ref) (k : t) : t :=
  mk (frame k) v (inTangent k) (outTangent k) (interpolation k).
End Key.

Inductive object :=
| OKey (k : Key.t)
| OArray (elems : list loc)
| ORange (r : AnimationRange.t)
| OMath (v : Value).

(** The store: the objects allocated so far, the next free location, and
    the static counter [_UniqueIdGenerator]. *)
Record store := mkStore {
  objects : gmap loc object;
  next : loc;
  _UniqueIdGenerator : Z;
}.

Definition get (s : store) (l : loc) : option object := objects s !! l.
Definition put (l : loc) (o : object) (s : store) : store :=
  mkStore (<[l := o]> (objects s)) (next s) (_UniqueIdGenerator s).
(** [new ...] and literals: a fresh object. *)
Definition alloc (o : object) (s : store) : loc * store :=
  (next s, mkStore (<[next s := o]> (objects s)) (S (next s)) (_UniqueIdGenerator s)).

(** Every object lies below the next free location. *)
Definition wf (s : store) : Prop :=
  map_Forall (fun l _ => (l < next s)%nat) (objects s).

(** A track object.  [_keys] is the reference to its key array, [None]
    until keys are set; [_ranges] holds the properties the range dictionary
    has for itself, a name being mapped to the reference of a range, or to
    null.  In this layer the dictionary of a track has the prototype it was
    made with, [Object.prototype]. *)
Record Animation := mkAnimation {
  uniqueId : Z;
  name : string;
  targetProperty : string;
  framePerSecond : number;
  dataType : Z;
  loopMode : Z;
  enableBlending : option bool;
  blendingSpeed : number;
  _keys : option loc;
  _easingFunction : option (number -> number);
  _events : list AnimationEvent.t;
  _ranges : gmap string (option loc);
}.

Definition set_name (n : string) (a : Animation) : Animation :=
  mkAnimation (uniqueId a) n (targetProperty a) (framePerSecond a) (dataType a)
    (loopMode a) (enableBlending a) (blendingSpeed a) (_keys a) (_easingFunction a)
    (_events a) (_ranges a).

(** [new Animation(...)]: takes the next unique id. *)
Definition newAnimation (name targetProperty : string) (framePerSecond : number)
    (dataType : Z) (loopMode : option Z) (s : store) : Animation * store :=
  (mkAnimation (_UniqueIdGenerator s) name targetProperty framePerSecond dataType
     (match loopMode with None => Animation.ANIMATIONLOOPMODE_CYCLE | Some m => m end)
     None 0.01%float None None [] ∅,
   mkStore (objects s) (next s) (_UniqueIdGenerator s + 1)).

(** [this._keys = values.slice(0)]: a fresh array with the same elements. *)
Definition setKeys (this : Animation) (values : loc) (s : store)
    : outcome (Animation * store) :=
  match get s values with
  | Some (OArray elems) =>
      let '(arr, s) := alloc (OArray elems) s in
      Returns (mkAnimation (uniqueId this) (name this) (targetProperty this)
                 (framePerSecond this) (dataType this) (loopMode this)
                 (enableBlending this) (blendingSpeed this) (Some arr)
                 (_easingFunction this) (_events this) (_ranges this), s)
  | _ => Throws TypeError
  end.

(** The loop of [clone] over the entries of [this._ranges]: null entries are
    skipped, the others cloned ([range.clone()] makes a new range object).
    Under the name [__proto__] the assignment to the new dictionary reaches
    the inherited setter, which makes the cloned range its prototype: the
    dictionary is no longer one of this layer, and the model stops. *)
Fixpoint cloneRanges (entries : list (string * option loc))
    (acc : gmap string (option loc)) (s : store)
    : outcome (gmap string (option loc) * store) :=
  match entries with
  | [] => Returns (acc, s)
  | (_, None) :: rest => cloneRanges rest acc s
  | (name, Some l) :: rest =>
      match get s l with
      | Some (ORange r) =>
          if String.eqb name "__proto__" then Throws IllTyped else
          let '(l', s) := alloc (ORange (AnimationRange.clone r)) s in
          cloneRanges rest (<[name := Some l']> acc) s
      | _ => Throws TypeError
      end
  end.

(** [clone()] *)
Definition clone (this : Animation) (s : store) : outcome (Animation * store) :=
  let '(clone, s) :=
    newAnimation (name this) (targetProperty this) (framePerSecond this)
      (dataType this) (Some (loopMode this)) s in
  let clone :=
    mkAnimation (uniqueId clone) (name clone) (targetProperty clone)
      (framePerSecond clone) (dataType clone) (loopMode clone)
      (enableBlending this) (blendingSpeed this) (_keys clone)
      (_easingFunction clone) (_events clone) (_ranges clone) in
  let* cs :=
    match _keys this with
    | Some values => setKeys clone values s
    | None => Returns (clone, s)
    end in
  let '(clone, s) := cs in
  let* rs := cloneRanges (map_to_list (_ranges this)) ∅ s in
  let '(ranges, s) := rs in
  Returns (mkAnimation (uniqueId clone) (name clone) (targetProperty clone)
             (framePerSecond clone) (dataType clone) (loopMode clone)
             (enableBlending clone) (blendingSpeed clone) (_keys clone)
             (_easingFunction clone) (_events clone) ranges, s).

(** [getKeys()]: the track's own array. *)
Definition getKeys (this : Animation) : option loc := _keys this.

(** [getRange(name)]: what [this._ranges[name]] finds. *)
Definition getRange (this : Animation) (name : string)
    : Dictionary.property (option loc) :=
  Dictionary.get (_ranges this) Dictionary.ObjectPrototype name.

(** [this.getKeys()[i]], the reference of the track's key [i]. *)
Definition keyAt (s : store) (this : Animation) (i : nat) : option loc :=
  match _keys this with
  | Some arr =>
      match get s arr with
      | Some (OArray elems) => elems !! i
      | _ => None
      end
  | None => None
  end.

(** [this.getKeys()[i].frame], read through the store. *)
Definition keyFrameAt (s : store) (this : Animation) (i : nat) : option number :=
  match keyAt s this i with
  | Some l => match get s l with Some (OKey k) => Some (Key.frame k) | _ => None end
  | None => None
  end.

(** [this.getKeys()[i].value], read through the store. *)
Definition keyValueAt (s : store) (this : Animation) (i : nat) : option ref :=
  match keyAt s this i with
  | Some l => match get s l with Some (OKey k) => Some (Key.value k) | _ => None end
  | None => None
  end.

(** The objects a track has for itself after [clone]: its key array and its
    ranges. *)
Definition ownsArrayOrRange (a : Animation) (l : loc) : Prop :=
  _keys a = Some l \/ exists name, _ranges a !! name = Some (Some l).

(** [key.frame = f] on the key object at [l]. *)
Definition writeKeyFrame (l : loc) (f : number) (s : store) : store :=
  match get s l with
  | Some (OKey k) => put l (OKey (Key.set_frame f k)) s
  | _ => s
  end.

(** *** The additive converter *)

Section Additive.
Context (M : Maths.t) (sw : Switches).

(** The data a slot holds, read through the store. *)
Definition readValue (s : store) (r : ref) : outcome Value :=
  match r with
  | RNumber n => Returns (VNumber n)
  | RObject l =>
      match get s l with
      | Some (OMath v) => Returns v
      | _ => Throws IllTyped
      end
  end.

Definition readSlot (s : store) (r : option ref) : outcome (option Value) :=
  match r with
  | Some r => let* v := readValue s r in Returns (Some v)
  | None => Returns None
  end.

Definition readKey (s : store) (l : loc) : outcome IAnimationKey.t :=
  match get s l with
  | Some (OKey k) =>
      let* v := readValue s (Key.value k) in
      let* i := readSlot s (Key.inTangent k) in
      let* o := readSlot s (Key.outTangent k) in
      Returns (IAnimationKey.mk (Key.frame k) v i o (Key.interpolation k))
  | _ => Throws IllTyped
  end.

Fixpoint readKeys (s : store) (elems : list loc) : outcome (list IAnimationKey.t) :=
  match elems with
  | [] => Returns []
  | l :: rest =>
      let* k := readKey s l in
      let* ks := readKeys s rest in
      Returns (k :: ks)
  end.

(** [animation._keys], the elements of the array. *)
Definition keysOf (s : store) (animation : Animation) : outcome (list loc) :=
  match _keys animation with
  | Some arr =>
      match get s arr with
      | Some (OArray elems) => Returns elems
      | _ => Throws IllTyped
      end
  | None => Throws TypeError
  end.

(** The contents of the track, as the evaluator reads them. *)
Definition contents (s : store) (animation : Animation) : outcome Animation.t :=
  let* elems := keysOf s animation in
  let* keys := readKeys s elems in
  Returns (Animation.mk (uniqueId animation) (name animation) (targetProperty animation)
             (framePerSecond animation) (dataType animation) (loopMode animation)
             (enableBlending animation) (blendingSpeed animation) keys
             (_easingFunction animation) (_events animation) ∅
             Dictionary.ObjectPrototype).

(** [value.clone ? value.clone() : value]: the instances of the Maths types
    have a [clone] method, numbers and key objects have none. *)
Definition cloneValue (value : ref) (s : store) : ref * store :=
  match value with
  | RNumber n => (RNumber n, s)
  | RObject l =>
      match get s l with
      | Some (OMath v) => let '(l', s) := alloc (OMath v) s in (RObject l', s)
      | Some (ORange r) => let '(l', s) := alloc (ORange r) s in (RObject l', s)
      | _ => (RObject l, s)
      end
  end.

(** The copy of what [_interpolate] returned, as a value of the store. *)
Definition storeValue (v : Value) (s : store) : ref * store :=
  match v with
  | VNumber n => (RNumber n, s)
  | _ => let '(l, s) := alloc (OMath v) s in (RObject l, s)
  end.

(** [animation._interpolate(frame, { key: index, repeatCount: 0,
    loopMode: ANIMATIONLOOPMODE_CONSTANT })], then the copy of its result. *)
Definition sample (s : store) (animation : Animation) (frame : number) (index : nat)
    : outcome (ref * store) :=
  let* this := contents s animation in
  let* v := fst (Animation._interpolate M sw this frame
                   (_IAnimationState.mk (Z.of_nat index) 0%float None
                      (Some Animation.ANIMATIONLOOPMODE_CONSTANT) None None)) in
  Returns (storeValue v s).

(** [key.frame] for [key = animation._keys[i]], which may be undefined. *)
Definition frameOf (s : store) (key : option loc) : outcome number :=
  match key with
  | Some l =>
      match get s l with
      | Some (OKey k) => Returns (Key.frame k)
      | _ => Throws IllTyped
      end
  | None => Throws TypeError
  end.

Definition valueOf (s : store) (key : option loc) : outcome ref :=
  match key with
  | Some l =>
      match get s l with
      | Some (OKey k) => Returns (Key.value k)
      | _ => Throws IllTyped
      end
  | None => Throws TypeError
  end.

(** The variables of [MakeAnimationAdditive] that its loops update. *)
Record bookends := mkBookends {
  referenceValue : ref;
  referenceFound : bool;
  fromKeyFound : bool;
  toKeyFound : bool;
  startIndex : nat;
  endIndex : nat;
}.

(** "If reference frame wasn't found yet, check if we can interpolate to it" *)
Definition findReference (animation : Animation) (referenceFrame : number)
    (index : nat) (currentKey nextKey : option loc) (b : bookends) (s : store)
    : outcome (bookends * store) :=
  if referenceFound b then Returns (b, s) else
  let* currentFrame := frameOf s currentKey in
  if negb (JsNumber.ge referenceFrame currentFrame) then Returns (b, s) else
  let* nextFrame := frameOf s nextKey in
  if negb (JsNumber.le referenceFrame nextFrame) then Returns (b, s) else
  let* vs :=
    if JsNumber.strictEq referenceFrame currentFrame then
      let* value := valueOf s currentKey in Returns (cloneValue value s)
    else if JsNumber.strictEq referenceFrame nextFrame then
      let* value := valueOf s nextKey in Returns (cloneValue value s)
    else sample s animation referenceFrame index in
  let '(value, s) := vs in
  Returns (mkBookends value true (fromKeyFound b) (toKeyFound b)
             (startIndex b) (endIndex b), s).

(** [animation._keys.splice(index + 1, 0, { frame, value })] *)
Definition insertKey (animation : Animation) (index : nat) (frame : number)
    (value : ref) (s : store) : outcome store :=
  match _keys animation with
  | Some arr =>
      match get s arr with
      | Some (OArray elems) =>
          let '(l, s) := alloc (OKey (Key.mk frame value None None None)) s in
          Returns (put arr (OArray (splice_insert elems (index + 1) l)) s)
      | _ => Throws IllTyped
      end
  | None => Throws TypeError
  end.

(** "If from key wasn't found yet, check if we can interpolate to it" *)
Definition findFrom (animation : Animation) (from : number)
    (index : nat) (currentKey nextKey : option loc) (b : bookends) (s : store)
    : outcome (bookends * store) :=
  if fromKeyFound b then Returns (b, s) else
  let* currentFrame := frameOf s currentKey in
  if negb (JsNumber.ge from currentFrame) then Returns (b, s) else
  let* nextFrame := frameOf s nextKey in
  if negb (JsNumber.le from nextFrame) then Returns (b, s) else
  let* found :=
    if JsNumber.strictEq from currentFrame then Returns (index, s)
    else if JsNumber.strictEq from nextFrame then Returns ((index + 1)%nat, s)
    else
      let* vs := sample s animation from index in
      let '(value, s) := vs in
      let* s := insertKey animation index from value s in
      Returns ((index + 1)%nat, s) in
  let '(i, s) := found in
  Returns (mkBookends (referenceValue b) (referenceFound b) true (toKeyFound b)
             i (endIndex b), s).

(** "If to key wasn't found yet, check if we can interpolate to it" *)
Definition findTo (animation : Animation) (to : number)
    (index : nat) (currentKey nextKey : option loc) (b : bookends) (s : store)
    : outcome (bookends * store) :=
  if toKeyFound b then Returns (b, s) else
  let* currentFrame := frameOf s currentKey in
  if negb (JsNumber.ge to currentFrame) then Returns (b, s) else
  let* nextFrame := frameOf s nextKey in
  if negb (JsNumber.le to nextFrame) then Returns (b, s) else
  let* found :=
    if JsNumber.strictEq to currentFrame then Returns (index, s)
    else if JsNumber.strictEq to nextFrame then Returns ((index + 1)%nat, s)
    else
      let* vs := sample s animation to index in
      let '(value, s) := vs in
      let* s := insertKey animation index to value s in
      Returns ((index + 1)%nat, s) in
  let '(i, s) := found in
  Returns (mkBookends (referenceValue b) (referenceFound b) (fromKeyFound b) true
             (startIndex b) i, s).

(** The guard of the loop "Find key bookends". *)
Definition searching (b : bookends) (index : nat) (elems : list loc) : bool :=
  negb (referenceFound b) || negb (fromKeyFound b)
  || (negb (toKeyFound b) && (Z.of_nat index <? Z.of_nat (length elems) - 1)).

(** One iteration of the loop "Find key bookends, create them if they don't
    exist". *)
Definition findBookendsStep (animation : Animation) (referenceFrame from to : number)
    (index : nat) (elems : list loc) (b : bookends) (s : store)
    : outcome (bookends * store) :=
  let currentKey := elems !! index in
  let nextKey := elems !! (index + 1)%nat in
  let* bs := findReference animation referenceFrame index currentKey nextKey b s in
  let '(b, s) := bs in
  let* bs := findFrom animation from index currentKey nextKey b s in
  let '(b, s) := bs in
  findTo animation to index currentKey nextKey b s.

(** The loop itself, run for at most [fuel] iterations: [None] when they do
    not suffice. *)
Fixpoint findBookends (fuel : nat) (animation : Animation)
    (referenceFrame from to : number) (index : nat) (b : bookends) (s : store)
    : option (outcome (bookends * store)) :=
  match keysOf s animation with
  | Throws e => Some (Throws e)
  | Returns elems =>
      if searching b index elems then
        match fuel with
        | O => None
        | S fuel =>
            match findBookendsStep animation referenceFrame from to index elems b s with
            | Throws e => Some (Throws e)
            | Returns (b, s) =>
                findBookends fuel animation referenceFrame from to (S index) b s
            end
        end
      else Some (Returns (b, s))
  end.

(** The bookends still to be found; each may add one key to the array. *)
Definition pending (b : bookends) : nat :=
  (if fromKeyFound b then 0 else 1) + (if toKeyFound b then 0 else 1).

(** What "Conjugate the quaternion" and "Decompose matrix and conjugate the
    quaternion" leave in [valueStore]: nothing for the other data types. *)
Inductive prepared :=
| PreparedNone
| PreparedMatrix (referenceScaling : Vector3) (referenceQuaternion : Quaternion)
                 (referencePosition : Vector3).

Definition conjugated (q : Quaternion) : Quaternion :=
  Maths.Quaternion_conjugate M (Maths.Quaternion_normalize M q).

(** [valueStore.referenceValue.normalize().conjugateInPlace()] and its matrix
    counterpart; a reference value without these methods (a number, a key
    object) makes the call throw. *)
Definition prepareReference (animation : Animation) (b : bookends) (s : store)
    : outcome (prepared * store) :=
  if dataType animation =? Animation.ANIMATIONTYPE_QUATERNION then
    match referenceValue b with
    | RObject l =>
        match get s l with
        | Some (OMath (VQuaternion q)) =>
            Returns (PreparedNone, put l (OMath (VQuaternion (conjugated q))) s)
        | Some (OMath _) => Throws IllTyped
        | _ => Throws TypeError
        end
    | RNumber _ => Throws TypeError
    end
  else if dataType animation =? Animation.ANIMATIONTYPE_MATRIX then
    match referenceValue b with
    | RObject l =>
        match get s l with
        | Some (OMath (VMatrix m)) =>
            let '(scaling, rotation, position) := Maths.Matrix_decompose M m in
            Returns (PreparedMatrix scaling (conjugated rotation) position, s)
        | Some (OMath _) => Throws IllTyped
        | _ => Throws TypeError
        end
    | RNumber _ => Throws TypeError
    end
  else Returns (PreparedNone, s).

(** [a === b] on two slots. *)
Definition sameValue (a b : ref) : bool :=
  match a, b with
  | RNumber x, RNumber y => JsNumber.strictEq x y
  | RObject l1, RObject l2 => Nat.eqb l1 l2
  | _, _ => false
  end.

(** [o.width] and [o.height] on the reference value: a number on a Size,
    [undefined] (hence [NaN] once subtracted) on a key object. *)
Definition sizeOfReference (s : store) (r : ref) : outcome (number * number) :=
  match r with
  | RObject l =>
      match get s l with
      | Some (OMath (VSize sz)) => Returns (width sz, height sz)
      | Some (OKey _) => Returns (nan, nan)
      | _ => Throws IllTyped
      end
  | RNumber _ => Returns (nan, nan)
  end.

(** The number [key.value -= referenceValue] computes: an object operand
    converts to [NaN]. *)
Definition minus (value reference : ref) : number :=
  match value, reference with
  | RNumber v, RNumber r => (v - r)%float
  | _, _ => nan
  end.

(** The body of the [switch] of the subtraction pass, on the key at [l]. *)
Definition subtractReference (animation : Animation) (b : bookends) (p : prepared)
    (l : loc) (k : Key.t) (s : store) : outcome store :=
  let dt := dataType animation in
  if dt =? Animation.ANIMATIONTYPE_MATRIX then
    match Key.value k, p with
    | RObject lv, PreparedMatrix referenceScaling referenceQuaternion referencePosition =>
        match get s lv with
        | Some (OMath (VMatrix m)) =>
            let '(keyScaling, keyQuaternion, keyPosition) := Maths.Matrix_decompose M m in
            let keyPosition := Maths.Vector3_subtract M keyPosition referencePosition in
            let keyScaling := Maths.Vector3_divide M keyScaling referenceScaling in
            let keyQuaternion := Maths.Quaternion_multiply M referenceQuaternion keyQuaternion in
            Returns (put lv (OMath (VMatrix (Maths.Matrix_Compose M keyScaling keyQuaternion
                                              keyPosition))) s)
        | _ => Throws IllTyped
        end
    | _, _ => Throws IllTyped
    end
  else if dt =? Animation.ANIMATIONTYPE_QUATERNION then
    match Key.value k, referenceValue b with
    | RObject lv, RObject lr =>
        match get s lv, get s lr with
        | Some (OMath (VQuaternion q)), Some (OMath (VQuaternion r)) =>
            Returns (put lv (OMath (VQuaternion (Maths.Quaternion_multiply M r q))) s)
        | _, _ => Throws IllTyped
        end
    | _, _ => Throws IllTyped
    end
  else if (dt =? Animation.ANIMATIONTYPE_VECTOR2) || (dt =? Animation.ANIMATIONTYPE_VECTOR3)
          || (dt =? Animation.ANIMATIONTYPE_COLOR3) || (dt =? Animation.ANIMATIONTYPE_COLOR4)
  then
    match Key.value k, referenceValue b with
    | RObject lv, RObject lr =>
        match get s lv, get s lr with
        | Some (OMath (VVector2 v)), Some (OMath (VVector2 r)) =>
            Returns (put lv (OMath (VVector2 (Maths.Vector2_subtract M v r))) s)
        | Some (OMath (VVector3 v)), Some (OMath (VVector3 r)) =>
            Returns (put lv (OMath (VVector3 (Maths.Vector3_subtract M v r))) s)
        | Some (OMath (VColor3 v)), Some (OMath (VColor3 r)) =>
            Returns (put lv (OMath (VColor3 (Maths.Color3_subtract M v r))) s)
        | Some (OMath (VColor4 v)), Some (OMath (VColor4 r)) =>
            Returns (put lv (OMath (VColor4 (Maths.Color4_subtract M v r))) s)
        | _, _ => Throws IllTyped
        end
    | _, _ => Throws IllTyped
    end
  else if dt =? Animation.ANIMATIONTYPE_SIZE then
    match Key.value k with
    | RObject lv =>
        match get s lv with
        | Some (OMath (VSize v)) =>
            let* wh := sizeOfReference s (referenceValue b) in
            Returns (put lv (OMath (VSize (MkSize (width v - fst wh) (height v - snd wh)))) s)
        | _ => Throws IllTyped
        end
    | RNumber _ => Throws IllTyped
    end
  else
    Returns (put l (OKey (Key.set_value (RNumber (minus (Key.value k) (referenceValue b))) k)) s).

(** "Subtract the reference value from all of the key values":
    [for (index = startIndex; index <= endIndex; index++)], run with
    [n = endIndex + 1 - index]. *)
Fixpoint subtractLoop (n : nat) (animation : Animation) (firstKey : loc)
    (b : bookends) (p : prepared) (index : nat) (s : store) : outcome store :=
  match n with
  | O => Returns s
  | S n =>
      let* elems := keysOf s animation in
      match elems !! index with
      | None => Throws TypeError
      | Some l =>
          match get s l with
          | Some (OKey k) =>
              let* firstValue := valueOf s (Some firstKey) in
              if negb (Nat.eqb index 0)
                 && negb (dataType animation =? Animation.ANIMATIONTYPE_FLOAT)
                 && sameValue (Key.value k) firstValue
              then subtractLoop n animation firstKey b p (S index) s
              else
                let* s := subtractReference animation b p l k s in
                subtractLoop n animation firstKey b p (S index) s
          | _ => Throws IllTyped
          end
      end
  end.

(** [referenceFrame = referenceFrame >= 0 ? referenceFrame : 0] *)
Definition clampReferenceFrame (referenceFrame : number) : number :=
  if JsNumber.ge referenceFrame 0%float then referenceFrame else 0%float.

(** The part of [MakeAnimationAdditive] that follows the clamp of the
    reference frame, on a track with at least one key. *)
Definition makeAdditiveFrom (animation : Animation) (referenceFrame : number)
    (range : option string) (elems : list loc) (s : store)
    : outcome (Animation * store) :=
  let firstKey := elems !! 0%nat in
  let lastKey := elems !! (length elems - 1)%nat in
  let* firstValue := valueOf s firstKey in
  let* firstFrame := frameOf s firstKey in
  let* lastFrame := frameOf s lastKey in
  let* fromTo :=
    match range with
    | Some rangeName =>
        if String.eqb rangeName "" then Returns (firstFrame, lastFrame) else
        match getRange animation rangeName with
        | Dictionary.Own (Some l) =>
            match get s l with
            | Some (ORange r) => Returns (AnimationRange.from r, AnimationRange.to r)
            | _ => Throws IllTyped
            end
        | Dictionary.Inherited _ =>
            (* [rangeValue.from] and [rangeValue.to] are [undefined]: in the
               comparisons that follow they are [NaN] *)
            Returns (nan, nan)
        | Dictionary.Own None | Dictionary.Undefined => Returns (firstFrame, lastFrame)
        end
    | None => Returns (firstFrame, lastFrame)
    end in
  let '(from, to) := fromTo in
  let fromKeyFound := JsNumber.strictEq firstFrame from in
  let toKeyFound := JsNumber.strictEq lastFrame to in
  let lastIndex := (length elems - 1)%nat in
  let* bs :=
    if Nat.eqb (length elems) 1 then
      match firstKey with
      | Some l =>
          let '(value, s) := cloneValue (RObject l) s in
          Returns (mkBookends value true fromKeyFound toKeyFound 0 lastIndex, s)
      | None => Throws TypeError
      end
    else if JsNumber.le referenceFrame firstFrame then
      let '(value, s) := cloneValue firstValue s in
      Returns (mkBookends value true fromKeyFound toKeyFound 0 lastIndex, s)
    else if JsNumber.ge referenceFrame lastFrame then
      let* lastValue := valueOf s lastKey in
      let '(value, s) := cloneValue lastValue s in
      Returns (mkBookends value true fromKeyFound toKeyFound 0 lastIndex, s)
    else Returns (mkBookends firstValue false fromKeyFound toKeyFound 0 lastIndex, s) in
  let '(b, s) := bs in
  let* bs :=
    match findBookends (length elems + 3) animation referenceFrame from to 0 b s with
    | Some result => result
    | None => Throws OutOfFuel
    end in
  let '(b, s) := bs in
  let* ps := prepareReference animation b s in
  let '(p, s) := ps in
  match firstKey with
  | Some first =>
      let* s := subtractLoop (endIndex b + 1 - startIndex b) animation first b p
                  (startIndex b) s in
      Returns (animation, s)
  | None => Throws TypeError
  end.

(** [MakeAnimationAdditive(sourceAnimation, referenceFrame, range,
    cloneOriginal, clonedName)] *)
Definition MakeAnimationAdditive (sourceAnimation : Animation) (referenceFrame : number)
    (range : option string) (cloneOriginal : bool) (clonedName : option string)
    (s : store) : outcome (Animation * store) :=
  let* cs :=
    if cloneOriginal then
      let* cs := clone sourceAnimation s in
      let '(animation, s) := cs in
      Returns (set_name
                 (match clonedName with
                  | Some n => if String.eqb n "" then name animation else n
                  | None => name animation
                  end) animation, s)
    else Returns (sourceAnimation, s) in
  let '(animation, s) := cs in
  let* elems := keysOf s animation in
  if Nat.eqb (length elems) 0 then Returns (animation, s)
  else makeAdditiveFrom animation (clampReferenceFrame referenceFrame) range elems s.

End Additive.

End Objects.

(** ** Conditions on tracks and cursors *)

(** The frames of the keys never decrease from one key to the next (what
    callers are expected to supply). *)
Fixpoint nondecreasing (keys : list IAnimationKey.t) : bool :=
  match keys with
  | k1 :: ((k2 :: _) as rest) =>
      JsNumber.le (IAnimationKey.frame k1) (IAnimationKey.frame k2) && nondecreasing rest
  | _ => true
  end.

(** The cursor asks for the terminal value: CONSTANT mode, already repeated. *)
Definition shortCircuits (state : _IAnimationState.t) : bool :=
  Animation.isLoopMode Animation.ANIMATIONLOOPMODE_CONSTANT (_IAnimationState.loopMode state)
  && JsNumber.gt (_IAnimationState.repeatCount state) 0%float.

(** The cached index is one the evaluator can have left: an index of the key
    array, or -1. *)
Definition cursorInRange (keys : list IAnimationKey.t) (state : _IAnimationState.t) : Prop :=
  -1 <= _IAnimationState.key state < Z.of_nat (length keys).

(** No key's frame is [NaN]. *)
Definition framesDefined (keys : list IAnimationKey.t) : bool :=
  forallb (fun k => negb (JsNumber.isNaN (IAnimationKey.frame k))) keys.

(** [key.frame <= f] *)
Definition atOrBefore (f : number) (k : IAnimationKey.t) : bool :=
  JsNumber.ge f (IAnimationKey.frame k).

(** The index of the last key at or before [f] on a track whose frames never
    decrease: the number of such keys minus one, -1 when there is none. *)
Definition lastKeyAtOrBefore (keys : list IAnimationKey.t) (f : number) : Z :=
  Z.of_nat (length (List.filter (atOrBefore f) keys)) - 1.

(** The data type whose instances [v] is one of. *)
Definition dataTypeOf (v : Value) : Z :=
  match v with
  | VNumber _ => Animation.ANIMATIONTYPE_FLOAT
  | VVector2 _ => Animation.ANIMATIONTYPE_VECTOR2
  | VVector3 _ => Animation.ANIMATIONTYPE_VECTOR3
  | VQuaternion _ => Animation.ANIMATIONTYPE_QUATERNION
  | VMatrix _ => Animation.ANIMATIONTYPE_MATRIX
  | VColor3 _ => Animation.ANIMATIONTYPE_COLOR3
  | VColor4 _ => Animation.ANIMATIONTYPE_COLOR4
  | VSize _ => Animation.ANIMATIONTYPE_SIZE
  end.

Definition slotOfType (dataType : Z) (slot : option Value) : bool :=
  match slot with
  | Some v => dataTypeOf v =? dataType
  | None => true
  end.

(** The value and the tangents of the key are instances of the data type. *)
Definition wellTypedKey (dataType : Z) (k : IAnimationKey.t) : bool :=
  (dataTypeOf (IAnimationKey.value k) =? dataType)
  && slotOfType dataType (IAnimationKey.inTangent k)
  && slotOfType dataType (IAnimationKey.outTangent k).

(** Every key of the track is well typed for the track's data type. *)
Definition wellTyped (this : Animation.t) : bool :=
  forallb (wellTypedKey (Animation.dataType this)) (Animation._keys this).

(** A matrix has sixteen entries. *)
Definition sixteenEntries (v : Value) : bool :=
  match v with
  | VMatrix m => Nat.eqb (length (m_entries m)) 16
  | _ => true
  end.

Definition slotSixteen (slot : option Value) : bool :=
  match slot with Some v => sixteenEntries v | None => true end.

Definition wellFormedKey (k : IAnimationKey.t) : bool :=
  sixteenEntries (IAnimationKey.value k)
  && slotSixteen (IAnimationKey.inTangent k)
  && slotSixteen (IAnimationKey.outTangent k).

(** ** A reference instance of the Maths library

    Modelled from the spec: the Maths library (math.scalar, math.vector,
    math.color, math.size) is not among the sources.  This instance follows
    the specification's description of the per-type interpolation set: linear
    blends [start + (end - start) * gradient], cubic Hermite blends on the
    components, component-wise add, subtract, divide and scale, the Hamilton
    product of quaternions.  The spherical blend is given by its
    normalised-linear branch (no trigonometry), and a matrix is decomposed as
    a pure translation.  It only serves to run the model on concrete tracks
    (witnesses and counterexamples); no general theorem depends on it. *)
Module ReferenceMaths.
Local Open Scope float_scope.

Definition lerp (s e g : number) : number := s + (e - s) * g.

Definition hermite (value1 tangent1 value2 tangent2 amount : number) : number :=
  let squared := amount * amount in
  let cubed := amount * squared in
  let part1 := 2 * cubed - 3 * squared + 1 in
  let part2 := -2 * cubed + 3 * squared in
  let part3 := cubed - 2 * squared + amount in
  let part4 := cubed - squared in
  value1 * part1 + value2 * part2 + tangent1 * part3 + tangent2 * part4.

Definition map2_v2 (op : number -> number -> number) (a b : Vector2) :=
  MkVector2 (op (v2_x a) (v2_x b)) (op (v2_y a) (v2_y b)).
Definition map2_v3 (op : number -> number -> number) (a b : Vector3) :=
  MkVector3 (op (v3_x a) (v3_x b)) (op (v3_y a) (v3_y b)) (op (v3_z a) (v3_z b)).
Definition map2_q (op : number -> number -> number) (a b : Quaternion) :=
  MkQuaternion (op (q_x a) (q_x b)) (op (q_y a) (q_y b)) (op (q_z a) (q_z b))
               (op (q_w a) (q_w b)).
Definition map2_c3 (op : number -> number -> number) (a b : Color3) :=
  MkColor3 (op (c3_r a) (c3_r b)) (op (c3_g a) (c3_g b)) (op (c3_b a) (c3_b b)).
Definition map2_c4 (op : number -> number -> number) (a b : Color4) :=
  MkColor4 (op (c4_r a) (c4_r b)) (op (c4_g a) (c4_g b)) (op (c4_b a) (c4_b b))
           (op (c4_a a) (c4_a b)).
Definition map2_size (op : number -> number -> number) (a b : Size) :=
  MkSize (op (width a) (width b)) (op (height a) (height b)).

Definition hermite_v2 (v1 t1 v2 t2 : Vector2) (g : number) :=
  MkVector2 (hermite (v2_x v1) (v2_x t1) (v2_x v2) (v2_x t2) g)
            (hermite (v2_y v1) (v2_y t1) (v2_y v2) (v2_y t2) g).
Definition hermite_v3 (v1 t1 v2 t2 : Vector3) (g : number) :=
  MkVector3 (hermite (v3_x v1) (v3_x t1) (v3_x v2) (v3_x t2) g)
            (hermite (v3_y v1) (v3_y t1) (v3_y v2) (v3_y t2) g)
            (hermite (v3_z v1) (v3_z t1) (v3_z v2) (v3_z t2) g).
Definition hermite_q (v1 t1 v2 t2 : Quaternion) (g : number) :=
  MkQuaternion (hermite (q_x v1) (q_x t1) (q_x v2) (q_x t2) g)
               (hermite (q_y v1) (q_y t1) (q_y v2) (q_y t2) g)
               (hermite (q_z v1) (q_z t1) (q_z v2) (q_z t2) g)
               (hermite (q_w v1) (q_w t1) (q_w v2) (q_w t2) g).
Definition hermite_c3 (v1 t1 v2 t2 : Color3) (g : number) :=
  MkColor3 (hermite (c3_r v1) (c3_r t1) (c3_r v2) (c3_r t2) g)
           (hermite (c3_g v1) (c3_g t1) (c3_g v2) (c3_g t2) g)
           (hermite (c3_b v1) (c3_b t1) (c3_b v2) (c3_b t2) g).
Definition hermite_c4 (v1 t1 v2 t2 : Color4) (g : number) :=
  MkColor4 (hermite (c4_r v1) (c4_r t1) (c4_r v2) (c4_r t2) g)
           (hermite (c4_g v1) (c4_g t1) (c4_g v2) (c4_g t2) g)
           (hermite (c4_b v1) (c4_b t1) (c4_b v2) (c4_b t2) g)
           (hermite (c4_a v1) (c4_a t1) (c4_a v2) (c4_a t2) g).

Definition q_scale (q : Quaternion) (k : number) :=
  MkQuaternion (q_x q * k) (q_y q * k) (q_z q * k) (q_w q * k).
Definition q_normalize (q : Quaternion) : Quaternion :=
  let len := sqrt (q_x q * q_x q + q_y q * q_y q + q_z q * q_z q + q_w q * q_w q) in
  if JsNumber.strictEq len 0 then q else q_scale q (1 / len).
Definition q_conjugate (q : Quaternion) :=
  MkQuaternion (q_x q * -1) (q_y q * -1) (q_z q * -1) (q_w q).
(** [a.multiply(b)], the Hamilton product. *)
Definition q_multiply (a b : Quaternion) :=
  MkQuaternion
    (q_x a * q_w b + q_y a * q_z b - q_z a * q_y b + q_w a * q_x b)
    (-(q_x a) * q_z b + q_y a * q_w b + q_z a * q_x b + q_w a * q_y b)
    (q_x a * q_y b - q_y a * q_x b + q_z a * q_w b + q_w a * q_z b)
    (-(q_x a) * q_x b - q_y a * q_y b - q_z a * q_z b + q_w a * q_w b).
Definition q_slerp (a b : Quaternion) (g : number) : Quaternion :=
  q_normalize (map2_q (fun s e => lerp s e g) a b).

Definition m_lerp (a b : Matrix) (g : number) : Matrix :=
  MkMatrix (zip_with (fun s e => lerp s e g) (m_entries a) (m_entries b)).
Definition m_decompose (m : Matrix) : Vector3 * Quaternion * Vector3 :=
  (MkVector3 1 1 1, MkQuaternion 0 0 0 1,
   MkVector3 (nth 12 (m_entries m) 0) (nth 13 (m_entries m) 0) (nth 14 (m_entries m) 0)).
Definition m_compose (scale : Vector3) (rotation : Quaternion) (translation : Vector3) :=
  MkMatrix [v3_x scale; 0; 0; 0; 0; v3_y scale; 0; 0; 0; 0; v3_z scale; 0;
            v3_x translation; v3_y translation; v3_z translation; 1].

Definition instance : Maths.t := {|
  Maths.Scalar_Lerp := lerp;
  Maths.Scalar_Hermite := hermite;
  Maths.Quaternion_Slerp := q_slerp;
  Maths.Quaternion_Hermite := hermite_q;
  Maths.Quaternion_normalize := q_normalize;
  Maths.Quaternion_scale := q_scale;
  Maths.Quaternion_add := map2_q PrimFloat.add;
  Maths.Quaternion_conjugate := q_conjugate;
  Maths.Quaternion_multiply := q_multiply;
  Maths.Vector3_Lerp := fun a b g => map2_v3 (fun s e => lerp s e g) a b;
  Maths.Vector3_Hermite := hermite_v3;
  Maths.Vector3_scale := fun a k => map2_v3 (fun x _ => x * k) a a;
  Maths.Vector3_add := map2_v3 PrimFloat.add;
  Maths.Vector3_subtract := map2_v3 PrimFloat.sub;
  Maths.Vector3_divide := map2_v3 PrimFloat.div;
  Maths.Vector2_Lerp := fun a b g => map2_v2 (fun s e => lerp s e g) a b;
  Maths.Vector2_Hermite := hermite_v2;
  Maths.Vector2_scale := fun a k => map2_v2 (fun x _ => x * k) a a;
  Maths.Vector2_add := map2_v2 PrimFloat.add;
  Maths.Vector2_subtract := map2_v2 PrimFloat.sub;
  Maths.Size_Lerp := fun a b g => map2_size (fun s e => lerp s e g) a b;
  Maths.Size_scale := fun a k => map2_size (fun x _ => x * k) a a;
  Maths.Size_add := map2_size PrimFloat.add;
  Maths.Color3_Lerp := fun a b g => map2_c3 (fun s e => lerp s e g) a b;
  Maths.Color3_Hermite := hermite_c3;
  Maths.Color3_scale := fun a k => map2_c3 (fun x _ => x * k) a a;
  Maths.Color3_add := map2_c3 PrimFloat.add;
  Maths.Color3_subtract := map2_c3 PrimFloat.sub;
  Maths.Color4_Lerp := fun a b g => map2_c4 (fun s e => lerp s e g) a b;
  Maths.Color4_Hermite := hermite_c4;
  Maths.Color4_scale := fun a k => map2_c4 (fun x _ => x * k) a a;
  Maths.Color4_add := map2_c4 PrimFloat.add;
  Maths.Color4_subtract := map2_c4 PrimFloat.sub;
  Maths.Matrix_Lerp := m_lerp;
  Maths.Matrix_DecomposeLerp := m_lerp;
  Maths.Matrix_decompose := m_decompose;
  Maths.Matrix_Compose := m_compose;
|}.

(** The static switches as the class initialises them. *)
Definition switches : Switches := {|
  AllowMatricesInterpolation := false;
  AllowMatrixDecomposeForInterpolation := true;
|}.
End ReferenceMaths.

(** ** The RELATIVE adjustment, in the specification's words *)

(** "The interpolated value plus offsetValue scaled by repeatCount", the
    sum being the one of the value's type. *)
Definition addScaledOffset (M : Maths.t) (interpolated offsetValue : Value)
    (repeatCount : number) : outcome Value :=
  match interpolated, offsetValue with
  | VNumber v, VNumber o => Returns (VNumber (o * repeatCount + v)%float)
  | VVector2 v, VVector2 o =>
      Returns (VVector2 (Maths.Vector2_add M v (Maths.Vector2_scale M o repeatCount)))
  | VVector3 v, VVector3 o =>
      Returns (VVector3 (Maths.Vector3_add M v (Maths.Vector3_scale M o repeatCount)))
  | VColor3 v, VColor3 o =>
      Returns (VColor3 (Maths.Color3_add M v (Maths.Color3_scale M o repeatCount)))
  | VColor4 v, VColor4 o =>
      Returns (VColor4 (Maths.Color4_add M v (Maths.Color4_scale M o repeatCount)))
  | VSize v, VSize o =>
      Returns (VSize (Maths.Size_add M v (Maths.Size_scale M o repeatCount)))
  | VQuaternion v, VQuaternion o =>
      Returns (VQuaternion (Maths.Quaternion_add M v (Maths.Quaternion_scale M o repeatCount)))
  | _, _ => Throws IllTyped
  end.

(** "A quaternion result composes the scaled offset via quaternion
    multiplication": the two products the sentence can mean. *)
Definition composeScaledOffset (M : Maths.t) (interpolated offsetValue : Quaternion)
    (repeatCount : number) : Quaternion :=
  Maths.Quaternion_multiply M interpolated (Maths.Quaternion_scale M offsetValue repeatCount).
Definition composeScaledOffsetLeft (M : Maths.t) (interpolated offsetValue : Quaternion)
    (repeatCount : number) : Quaternion :=
  Maths.Quaternion_multiply M (Maths.Quaternion_scale M offsetValue repeatCount) interpolated.

(** The data types whose RELATIVE result is a sum. *)
Definition summedTypes : list Z :=
  [Animation.ANIMATIONTYPE_FLOAT; Animation.ANIMATIONTYPE_VECTOR2;
   Animation.ANIMATIONTYPE_VECTOR3; Animation.ANIMATIONTYPE_COLOR3;
   Animation.ANIMATIONTYPE_COLOR4; Animation.ANIMATIONTYPE_SIZE;
   Animation.ANIMATIONTYPE_QUATERNION].

(** ** Playbacks: cursors as objects

    A playback owns a cursor object and hands it to every call of
    [_interpolate] it makes; the call writes [state.key] in place.  The
    [workValue] slot of a cursor, when set, refers to a matrix object:
    [matrixInterpolateFunction] stores its result in that object and returns
    the object itself.  Cursors and work matrices live in one heap, so that
    two cursors can refer to the same work matrix. *)

Module Playback.

Definition loc := nat.

Record cursor := mkCursor {
  key : Z;
  repeatCount : number;
  workValue : option loc;
  loopMode : option Z;
  offsetValue : option Value;
  highLimitValue : option Value;
}.
Definition set_key (k : Z) (c : cursor) : cursor :=
  mkCursor k (repeatCount c) (workValue c) (loopMode c) (offsetValue c)
           (highLimitValue c).

Inductive object :=
| OCursor (c : cursor)
| OMatrix (m : Matrix).

Abbreviation heap := (gmap loc object).

(** What a call returns: a value of its own, or the work matrix of the
    cursor (the object, not a copy of it). *)
Inductive returned :=
| Fresh (v : Value)
| Work (w : loc).

(** The value a returned reference stands for, in a heap. *)
Definition valueOf (h : heap) (r : returned) : option Value :=
  match r with
  | Fresh v => Some v
  | Work w =>
      match h !! w with
      | Some (OMatrix m) => Some (VMatrix m)
      | _ => None
      end
  end.

(** The work matrix a cursor refers to. *)
Definition workOf (h : heap) (c : loc) : option loc :=
  match h !! c with
  | Some (OCursor cur) => workValue cur
  | _ => None
  end.

(** The cursor as the evaluator reads it.  Of [state.workValue] the
    evaluator tests that it is set, and never reads the matrix in it: a
    number stands for it here, so that the slot holds a matrix after the call
    exactly when the matrix branch stored its result there. *)
Definition read (cur : cursor) : _IAnimationState.t :=
  _IAnimationState.mk (key cur) (repeatCount cur)
    (match workValue cur with Some _ => Some (VNumber 0%float) | None => None end)
    (loopMode cur) (offsetValue cur) (highLimitValue cur).

(** [this._interpolate(currentFrame, state)] where [state] is the cursor
    object at [c]: what the call returns and the heap it leaves.  [state.key]
    is written; when the matrix branch stored its result in the work matrix,
    that object is overwritten and returned.  [None]: there is no cursor at
    [c]. *)
Definition _interpolate (M : Maths.t) (sw : Switches) (this : Animation.t)
    (currentFrame : number) (c : loc) (h : heap)
    : option (outcome returned * heap) :=
  match h !! c with
  | Some (OCursor cur) =>
      let '(result, state) := Animation._interpolate M sw this currentFrame (read cur) in
      let h' := <[c := OCursor (set_key (_IAnimationState.key state) cur)]> h in
      match workValue cur, _IAnimationState.workValue state with
      | Some w, Some (VMatrix m) =>
          match h !! w with
          | Some (OMatrix _) => Some (Returns (Work w), <[w := OMatrix m]> h')
          | _ => Some (Throws IllTyped, h')
          end
      | _, _ =>
          Some (match result with
                | Returns v => Returns (Fresh v)
                | Throws e => Throws e
                end, h')
      end
  | _ => None
  end.

(** A history of calls, each made with a cursor at a frame. *)
Definition replay (M : Maths.t) (sw : Switches) (this : Animation.t)
    (calls : list (loc * number)) (h : heap) : heap :=
  fold_left
    (fun h call =>
       match _interpolate M sw this (snd call) (fst call) h with
       | Some (_, h') => h'
       | None => h
       end)
    calls h.

(** Two cursors are apart when they are two objects, neither is the work
    matrix of the other, and they do not refer to the same work matrix. *)
Definition apart (h : heap) (c1 c2 : loc) : Prop :=
  c1 <> c2
  /\ workOf h c1 <> Some c2
  /\ workOf h c2 <> Some c1
  /\ (forall w, workOf h c1 = Some w -> workOf h c2 <> Some w).

End Playback.

(** ** Ranges and events: the conditions of their properties *)

(** [frame >= from && frame <= to] *)
Definition inRange (range : AnimationRange.t) (k : IAnimationKey.t) : bool :=
  JsNumber.ge (IAnimationKey.frame k) (AnimationRange.from range)
  && JsNumber.le (IAnimationKey.frame k) (AnimationRange.to range).

(** The events are in ascending order of frame. *)
Fixpoint sortedByFrame (events : list AnimationEvent.t) : bool :=
  match events with
  | e1 :: ((e2 :: _) as rest) =>
      JsNumber.le (AnimationEvent.frame e1) (AnimationEvent.frame e2) && sortedByFrame rest
  | _ => true
  end.

(** The events at frame [f]. *)
Definition sameFrame (f : number) (e : AnimationEvent.t) : bool :=
  JsNumber.strictEq (AnimationEvent.frame e) f.

(** The frame of every event is a finite number (neither [NaN] nor an
    infinity). *)
Definition finiteFrames (events : list AnimationEvent.t) : bool :=
  forallb (fun e => isFinite (AnimationEvent.frame e)) events.

(** The comparator [(a, b) => a.frame - b.frame] orders two events of the
    list as their frames are ordered. *)
Definition agreeOn (L : list AnimationEvent.t) : Prop :=
  forall a b, In a L -> In b L ->
    JsNumber.isNaN (AnimationEvent.frame a) = false
    /\ JsNumber.lt (Animation.frameComparator a b) 0%float
       = JsNumber.lt (AnimationEvent.frame a) (AnimationEvent.frame b).

(** ** The round trip of the serializer *)

(** [Animation.Parse(track.serialize())] *)
Definition roundTrip (uid : Z) (this : Animation.t) : outcome Animation.t :=
  let* serializationObject := Animation.serialize this in
  Animation.Parse uid serializationObject.

(** [if (x)] on what the [interpolation] slot holds. *)
Definition truthySlot (slot : InterpolationSlot) : bool :=
  Animation.truthy (Some (Animation.interpolationToS slot)).

(** The parser applied to what the serializer makes of one key. *)
Definition roundTripKey (dataType : Z) (k : IAnimationKey.t) : outcome IAnimationKey.t :=
  let* serialized := Animation.serializeKey dataType k in
  Animation.parseKey dataType serialized.

(** [x === undefined] *)
Definition absent {A} (x : option A) : bool :=
  match x with None => true | Some _ => false end.

(** The keys that come back from the round trip as they were, by data type
    (the in-tangent, the out-tangent and the interpolation slot of the key
    are [i], [o] and [p]). *)
Definition survivesRoundTrip (dataType : Z) (k : IAnimationKey.t) : bool :=
  let i := IAnimationKey.inTangent k in
  let o := IAnimationKey.outTangent k in
  let p := IAnimationKey.interpolation k in
  if dataType =? Animation.ANIMATIONTYPE_FLOAT then
    negb (absent i && negb (absent o) && negb (absent p))
  else if (dataType =? Animation.ANIMATIONTYPE_VECTOR3)
          || (dataType =? Animation.ANIMATIONTYPE_COLOR3) then
    match p with
    | None => true
    | Some slot => truthySlot slot && negb (absent i && negb (absent o))
    end
  else if dataType =? Animation.ANIMATIONTYPE_COLOR4 then absent p
  else if (dataType =? Animation.ANIMATIONTYPE_QUATERNION)
          || (dataType =? Animation.ANIMATIONTYPE_MATRIX) then
    absent i && absent o && absent p
  else false.

(** What the round trip makes of the ranges: a deleted range (a null entry)
    is dropped, and so is a range whose name the new dictionary inherits a
    member under; any other range comes back under its entry's name. *)
Definition restoredRanges (ranges : gmap string (option AnimationRange.t))
    : gmap string (option AnimationRange.t) :=
  map_imap (fun name entry =>
              match entry with
              | Some source =>
                  if Dictionary.inherited name then None
                  else Some (Some (AnimationRange.mk name (AnimationRange.from source)
                                     (AnimationRange.to source)))
              | None => None
              end)
           ranges.

(** What the round trip makes of a track whose keys all survive it. *)
Definition restored (uid : Z) (this : Animation.t) : Animation.t :=
  Animation.mk uid (Animation.name this) (Animation.targetProperty this)
    (Animation.framePerSecond this) (Animation.dataType this) (Animation.loopMode this)
    (match Animation.enableBlending this with Some true => Some true | _ => None end)
    (if Animation.truthy (Some (Animation.SNumber (Animation.blendingSpeed this)))
     then Animation.blendingSpeed this else 0.01%float)
    (Animation._keys this) None [] (restoredRanges (Animation._ranges this))
    Dictionary.ObjectPrototype.

(** [createRange] on the own properties of a dictionary whose prototype is
    [Object.prototype]. *)
Definition createRangeIn (m : gmap string (option AnimationRange.t))
    (data : Animation.SerializedRange.t) : gmap string (option AnimationRange.t) :=
  if Dictionary.truthy
       (Dictionary.get m Dictionary.ObjectPrototype (Animation.SerializedRange.name data))
  then m
  else <[Animation.SerializedRange.name data :=
           Some (AnimationRange.mk (Animation.SerializedRange.name data)
                   (Animation.SerializedRange.from data)
                   (Animation.SerializedRange.to data))]> m.

(** The body of the loop of [serialize] over the ranges, on one entry. *)
Definition serializeEntry (entry : string * option AnimationRange.t)
    : option Animation.SerializedRange.t :=
  match entry.2 with
  | Some source =>
      Some (Animation.SerializedRange.mk entry.1 (AnimationRange.from source)
              (AnimationRange.to source))
  | None => None
  end.

(** ** The additive converter on a float track *)

(** The key after [key.value -= referenceValue]. *)
Definition subtracted (reference : Objects.ref) (k : Objects.Key.t) : Objects.Key.t :=
  Objects.Key.set_value (Objects.RNumber (Objects.minus (Objects.Key.value k) reference)) k.

(** The reference key the converter takes without a search: the first key
    when the reference frame is at or before it, the last key when the
    reference frame is at or after it. *)
Definition referenceAtEnds (referenceFrame : number) (firstKey lastKey : Objects.Key.t)
    : option Objects.Key.t :=
  if JsNumber.le referenceFrame (Objects.Key.frame firstKey) then Some firstKey
  else if JsNumber.ge referenceFrame (Objects.Key.frame lastKey) then Some lastKey
  else None.

(** [value.subtractToRef(reference, value)] on two instances of the same
    class: what is left in [value]. *)
Definition subtractToRef (M : Maths.t) (value reference : Value) : Value :=
  match value, reference with
  | VVector2 v, VVector2 r => VVector2 (Maths.Vector2_subtract M v r)
  | VVector3 v, VVector3 r => VVector3 (Maths.Vector3_subtract M v r)
  | VColor3 v, VColor3 r => VColor3 (Maths.Color3_subtract M v r)
  | VColor4 v, VColor4 r => VColor4 (Maths.Color4_subtract M v r)
  | _, _ => value
  end.

(** The data types whose subtraction pass is [subtractToRef]. *)
Definition subtractedToRef (dataType : Z) : bool :=
  (dataType =? Animation.ANIMATIONTYPE_VECTOR2)
  || (dataType =? Animation.ANIMATIONTYPE_VECTOR3)
  || (dataType =? Animation.ANIMATIONTYPE_COLOR3)
  || (dataType =? Animation.ANIMATIONTYPE_COLOR4).


(** The value objects of the keys before index [index]: [l] is one of
    them. *)
Definition processed (ks : list Objects.Key.t) (index : nat) (l : Objects.loc) : bool :=
  existsb (fun k => Objects.sameValue (Objects.Key.value k) (Objects.RObject l))
          (take index ks).

(** The contents of a value object. *)
Definition contentsAt (s : Objects.store) (l : Objects.loc) : Value :=
  match Objects.get s l with
  | Some (Objects.OMath v) => v
  | _ => VNumber 0%float
  end.

(** ** Concrete tracks *)

Module Examples.
Import Animation.

Definition floatKey (frame value : number) : IAnimationKey.t :=
  IAnimationKey.mk frame (VNumber value) None None None.
Definition stepKey (frame value : number) : IAnimationKey.t :=
  IAnimationKey.mk frame (VNumber value) None None (Some (InterpNumber STEP)).
Arguments floatKey (frame value)%_float.
Arguments stepKey (frame value)%_float.

Definition floatTrack (keys : list IAnimationKey.t) : Animation.t :=
  setKeys (new 0 "anim" "position.x" 30%float ANIMATIONTYPE_FLOAT None None) keys.

(** Keys at frames 0 and 10. *)
Definition twoKeys : Animation.t := floatTrack [floatKey 0 1; floatKey 10 2].
(** Two keys share the first frame. *)
Definition sharedFirstFrame : Animation.t :=
  floatTrack [floatKey 0 1; floatKey 0 2; floatKey 10 3].

(** A STEP key at frame 0 with value 1, then a key at frame 10 with value 2. *)
Definition stepThenKey : Animation.t := floatTrack [stepKey 0 1; floatKey 10 2].
(** The same, followed by a key at frame 20 with value 4. *)
Definition stepThenTwoKeys : Animation.t :=
  floatTrack [stepKey 0 1; floatKey 10 2; floatKey 20 4].

(** The cursor [evaluate] builds. *)
Definition evaluateCursor : _IAnimationState.t :=
  _IAnimationState.mk 0 0%float None (Some ANIMATIONLOOPMODE_CONSTANT) None None.

Definition quaternionKey (frame : number) (q : Quaternion) : IAnimationKey.t :=
  IAnimationKey.mk frame (VQuaternion q) None None None.
Arguments quaternionKey frame%_float q.
Definition identityQuaternion : Quaternion := MkQuaternion 0 0 0 1.
(** A quaternion track that holds the identity rotation from frame 0 to 10. *)
Definition quaternionTrack : Animation.t :=
  setKeys (new 0 "anim" "rotationQuaternion" 30%float ANIMATIONTYPE_QUATERNION None None)
          [quaternionKey 0 identityQuaternion; quaternionKey 10 identityQuaternion].
Definition relativeQuaternionCursor : _IAnimationState.t :=
  _IAnimationState.mk 0 1%float None (Some ANIMATIONLOOPMODE_RELATIVE)
                      (Some (VQuaternion identityQuaternion)) None.

(** Keys at frames 0, 5, 10, 15 and 20, and the range "walk" from 5 to 15. *)
Definition fiveKeys : Animation.t :=
  createRange
    (floatTrack [floatKey 0 1; floatKey 5 2; floatKey 10 3; floatKey 15 4; floatKey 20 5])
    "walk" 5%float 15%float.

(** Events at frames 3, 1 and 3, added in that order (their tags). *)
Definition threeEvents : Animation.t :=
  addEvent ArraySort.reference
    (addEvent ArraySort.reference
       (addEvent ArraySort.reference twoKeys (AnimationEvent.mk 3 0))
       (AnimationEvent.mk 1 1))
    (AnimationEvent.mk 3 2).

(** An event whose frame is [NaN] (tag 0), then an event at frame 1 (tag 1). *)
Definition nanThenOne (sort : ArraySort.t) : Animation.t :=
  addEvent sort (addEvent sort twoKeys (AnimationEvent.mk nan 0)) (AnimationEvent.mk 1 1).

(** The switches with the interpolation of matrices turned on. *)
Definition interpolatingSwitches : Switches := {|
  AllowMatricesInterpolation := true;
  AllowMatrixDecomposeForInterpolation := false;
|}.

(** The matrix whose sixteen entries are [x]. *)
Definition constantMatrix (x : number) : Matrix := MkMatrix (replicate 16 x).
Arguments constantMatrix x%_float.

(** A matrix track: all entries 0 at frame 0, all entries 2 at frame 10. *)
Definition matrixTrack : Animation.t :=
  Animation.setKeys
    (Animation.new 0 "anim" "matrix" 30%float Animation.ANIMATIONTYPE_MATRIX None None)
    [IAnimationKey.mk 0%float (VMatrix (constantMatrix 0)) None None None;
     IAnimationKey.mk 10%float (VMatrix (constantMatrix 2)) None None None].

(** The track [twoKeys] with a data type the evaluator does not know. *)
Definition untypedTwoKeys : Animation.t :=
  Animation.setKeys (Animation.new 0 "anim" "position.x" 30%float 99 None None)
    [Examples.floatKey 0 1; Examples.floatKey 10 2].

Definition playbackCursor (workValue : option Playback.loc) : Playback.cursor :=
  Playback.mkCursor 0 0%float workValue (Some Animation.ANIMATIONLOOPMODE_CYCLE) None None.

(** Two playbacks, the cursor of each with a work matrix of its own. *)
Definition twoCursors : Playback.heap :=
  {[ 1%nat := Playback.OCursor (playbackCursor (Some 3%nat));
     2%nat := Playback.OCursor (playbackCursor (Some 4%nat));
     3%nat := Playback.OMatrix (constantMatrix 0);
     4%nat := Playback.OMatrix (constantMatrix 7) ]}.

(** Two playbacks whose cursors refer to one work matrix. *)
Definition sharingCursors : Playback.heap :=
  {[ 1%nat := Playback.OCursor (playbackCursor (Some 3%nat));
     2%nat := Playback.OCursor (playbackCursor (Some 3%nat));
     3%nat := Playback.OMatrix (constantMatrix 0) ]}.

(** A store that holds a float track with the single key (0, 5): the key
    object at 0, the key array at 1. *)
Definition oneKeyStore : Objects.store :=
  Objects.mkStore
    {[ 0%nat := Objects.OKey (Objects.Key.mk 0%float (Objects.RNumber 5%float) None None None);
       1%nat := Objects.OArray [0%nat] ]}
    2%nat 1.
Definition oneKeyTrack : Objects.Animation :=
  Objects.mkAnimation 0 "anim" "position.x" 30%float ANIMATIONTYPE_FLOAT
    ANIMATIONLOOPMODE_CYCLE None 0.01%float (Some 1%nat) None [] ∅.

(** A store that holds a float track with the keys (0, 1) and (10, 2) and the
    range "walk" from 0 to 10: the key objects at 0 and 1, the key array at 2,
    the range object at 3. *)
Definition twoKeyStore : Objects.store :=
  Objects.mkStore
    {[ 0%nat := Objects.OKey (Objects.Key.mk 0%float (Objects.RNumber 1%float) None None None);
       1%nat := Objects.OKey (Objects.Key.mk 10%float (Objects.RNumber 2%float) None None None);
       2%nat := Objects.OArray [0%nat; 1%nat];
       3%nat := Objects.ORange (AnimationRange.mk "walk" 0%float 10%float) ]}
    4%nat 1.
Definition twoKeyTrack : Objects.Animation :=
  Objects.mkAnimation 0 "anim" "position.x" 30%float ANIMATIONTYPE_FLOAT
    ANIMATIONLOOPMODE_CYCLE None 0.01%float (Some 2%nat) None []
    {[ "walk" := Some 3%nat ]}.

(** What [clone] makes of that track: a new array at 4 and a new range object
    at 5. *)
Definition clonedStore : Objects.store :=
  Objects.mkStore
    {[ 0%nat := Objects.OKey (Objects.Key.mk 0%float (Objects.RNumber 1%float) None None None);
       1%nat := Objects.OKey (Objects.Key.mk 10%float (Objects.RNumber 2%float) None None None);
       2%nat := Objects.OArray [0%nat; 1%nat];
       3%nat := Objects.ORange (AnimationRange.mk "walk" 0%float 10%float);
       4%nat := Objects.OArray [0%nat; 1%nat];
       5%nat := Objects.ORange (AnimationRange.mk "walk" 0%float 10%float) ]}
    6%nat 2.
Definition clonedTrack : Objects.Animation :=
  Objects.mkAnimation 1 "anim" "position.x" 30%float ANIMATIONTYPE_FLOAT
    ANIMATIONLOOPMODE_CYCLE None 0.01%float (Some 4%nat) None []
    {[ "walk" := Some 5%nat ]}.

(** A float track whose key has an out-tangent and the STEP flag, but no
    in-tangent. *)
Definition outTangentStepKey : IAnimationKey.t :=
  IAnimationKey.mk 0%float (VNumber 1%float) None (Some (VNumber 2%float))
                   (Some (InterpNumber STEP)).
Definition outTangentStepTrack : Animation.t := floatTrack [outTangentStepKey].

(** A quaternion track whose key has both tangents. *)
Definition tangentQuaternionKey : IAnimationKey.t :=
  IAnimationKey.mk 0%float (VQuaternion identityQuaternion)
                   (Some (VQuaternion (MkQuaternion 1 0 0 0)))
                   (Some (VQuaternion (MkQuaternion 0 1 0 0))) None.
Definition tangentQuaternionTrack : Animation.t :=
  setKeys (new 0 "anim" "rotationQuaternion" 30%float ANIMATIONTYPE_QUATERNION None None)
          [tangentQuaternionKey].

(** A Color4 track whose key has the STEP flag. *)
Definition stepColor4Key : IAnimationKey.t :=
  IAnimationKey.mk 0%float (VColor4 (MkColor4 1 0 0 1)) None None (Some (InterpNumber STEP)).
Definition stepColor4Track : Animation.t :=
  setKeys (new 0 "anim" "color" 30%float ANIMATIONTYPE_COLOR4 None None) [stepColor4Key].

Definition relativeCursor : _IAnimationState.t :=
  _IAnimationState.mk 0 1%float None (Some ANIMATIONLOOPMODE_RELATIVE)
                      (Some (VNumber 5%float)) None.
(** A float key with both tangents and the STEP flag. *)
Definition tangentStepKey : IAnimationKey.t :=
  IAnimationKey.mk 0%float (VNumber 1%float) (Some (VNumber 3%float))
                   (Some (VNumber 2%float)) (Some (InterpNumber STEP)).

(** A Vector2 track with one key. *)
Definition vector2Track : Animation.t :=
  setKeys (new 0 "anim" "scaling" 30%float ANIMATIONTYPE_VECTOR2 None None)
          [IAnimationKey.mk 0%float (VVector2 (MkVector2 1 2)) None None None].

(** The cursor [evaluate] builds, moved to the last of five keys. *)
Definition cursorOnLast : _IAnimationState.t := _IAnimationState.set_key 4 evaluateCursor.

(** The key objects of [twoKeyStore]. *)
Definition firstStoredKey : Objects.Key.t :=
  Objects.Key.mk 0%float (Objects.RNumber 1%float) None None None.
Definition lastStoredKey : Objects.Key.t :=
  Objects.Key.mk 10%float (Objects.RNumber 2%float) None None None.

(** A store that holds a Vector3 track with the keys (0, (1, 2, 3)) and
    (10, (4, 6, 8)): the vectors at 0 and 1, the key objects at 2 and 3, the
    key array at 4. *)
Definition firstVectorKey : Objects.Key.t :=
  Objects.Key.mk 0%float (Objects.RObject 0%nat) None None None.
Definition lastVectorKey : Objects.Key.t :=
  Objects.Key.mk 10%float (Objects.RObject 1%nat) None None None.
Definition vectorStore : Objects.store :=
  Objects.mkStore
    {[ 0%nat := Objects.OMath (VVector3 (MkVector3 1 2 3));
       1%nat := Objects.OMath (VVector3 (MkVector3 4 6 8));
       2%nat := Objects.OKey firstVectorKey;
       3%nat := Objects.OKey lastVectorKey;
       4%nat := Objects.OArray [2%nat; 3%nat] ]}
    5%nat 1.
Definition vectorTrack : Objects.Animation :=
  Objects.mkAnimation 0 "anim" "position" 30%float ANIMATIONTYPE_VECTOR3
    ANIMATIONLOOPMODE_CYCLE None 0.01%float (Some 4%nat) None [] ∅.
End Examples.

(** * Properties *)

(** ** The order of the numbers *)

Module JsNumberFacts.
Import JsNumber.

Lemma lt_cmp x y : lt x y = match cmp x y with Some Lt => true | _ => false end.
Proof. unfold lt, cmp. rewrite FloatAxioms.ltb_spec. reflexivity. Qed.

Lemma le_cmp x y :
  le x y = match cmp x y with Some c => le_c c | None => false end.
Proof.
  unfold le, cmp. rewrite FloatAxioms.leb_spec. unfold SFleb.
  destruct (SFcompare _ _) as [[]|]; reflexivity.
Qed.

Lemma strictEq_cmp x y :
  strictEq x y = match cmp x y with Some Eq => true | _ => false end.
Proof. unfold strictEq, cmp. rewrite FloatAxioms.eqb_spec. reflexivity. Qed.

(** The comparison of the specification floats is lexicographic on sign,
    exponent and mantissa, hence antisymmetric and transitive on the pairs
    it orders. *)
Lemma SFcompare_antisym a b c :
  SFcompare a b = Some c -> SFcompare b a = Some (CompOpp c).
Proof.
  destruct a as [sa|sa| |sa ma ea], b as [sb|sb| |sb mb eb]; simpl;
    try discriminate; intros H; injection H as <-;
    try (destruct sa; reflexivity); try (destruct sb; reflexivity);
    try (destruct sa, sb; reflexivity).
  destruct sa, sb; try reflexivity;
    rewrite (Z.compare_antisym ea eb);
    destruct (ea ?= eb) eqn:E; simpl; try reflexivity;
    change (Pos.compare_cont Eq mb ma) with (Pos.compare mb ma);
    change (Pos.compare_cont Eq ma mb) with (Pos.compare ma mb);
    rewrite (Pos.compare_antisym ma mb); destruct (ma ?= mb)%positive; reflexivity.
Qed.

Lemma SFcompare_le_trans a b c c1 c2 :
  SFcompare a b = Some c1 -> SFcompare b c = Some c2 ->
  le_c c1 = true -> le_c c2 = true ->
  exists c3, SFcompare a c = Some c3 /\ le_c c3 = true
             /\ (c1 = Lt \/ c2 = Lt -> c3 = Lt).
Proof.
  intros H1 H2 L1 L2.
  destruct a as [sa|sa| |sa ma ea], b as [sb|sb| |sb mb eb],
           c as [sc|sc| |sc mc ec]; simpl in *; try discriminate;
    injection H1 as <-; injection H2 as <-;
    try (destruct sa); try (destruct sb); try (destruct sc); simpl in *;
    try discriminate;
    try (eexists; split; [reflexivity|split; [reflexivity|]];
         intros [?|?]; first [reflexivity|discriminate]).
  all: change (Pos.compare_cont Eq ?p ?q) with (Pos.compare p q) in *.
  all: destruct (Z.compare_spec ea eb), (Z.compare_spec eb ec),
         (Z.compare_spec ea ec); subst; try lia; simpl in *; try discriminate;
       try (eexists; split; [reflexivity|split; [reflexivity|]];
            intros [?|?]; first [reflexivity|discriminate]).
  all: destruct (Pos.compare_spec ma mb), (Pos.compare_spec mb mc),
         (Pos.compare_spec ma mc); subst; try lia; simpl in *; try discriminate;
       try (eexists; split; [reflexivity|split; [reflexivity|]];
            intros [?|?]; first [reflexivity|discriminate]).
Qed.

Lemma cmp_antisym x y c : cmp x y = Some c -> cmp y x = Some (CompOpp c).
Proof. apply SFcompare_antisym. Qed.

Lemma lt_le x y : lt x y = true -> le x y = true.
Proof. rewrite lt_cmp, le_cmp. destruct (cmp x y) as [[]|]; done. Qed.

Lemma lt_not_ge x y : lt x y = true -> ge x y = false.
Proof.
  unfold ge. rewrite lt_cmp, le_cmp. destruct (cmp x y) as [c|] eqn:E; [|done].
  rewrite (cmp_antisym _ _ _ E). destruct c; done.
Qed.

Lemma ge_not_lt x y : ge x y = true -> lt x y = false.
Proof. destruct (lt x y) eqn:E; [|done]. rewrite (lt_not_ge _ _ E). done. Qed.

Lemma le_not_gt x y : le x y = true -> gt x y = false.
Proof. unfold gt. intros H. apply ge_not_lt. exact H. Qed.

Lemma gt_not_le x y : gt x y = true -> le x y = false.
Proof. unfold gt. intros H. apply (lt_not_ge _ _ H). Qed.

Lemma le_trans x y z : le x y = true -> le y z = true -> le x z = true.
Proof.
  rewrite !le_cmp. unfold cmp.
  destruct (SFcompare (Prim2SF x) (Prim2SF y)) as [c1|] eqn:E1; [|done].
  destruct (SFcompare (Prim2SF y) (Prim2SF z)) as [c2|] eqn:E2; [|done].
  intros L1 L2.
  destruct (SFcompare_le_trans _ _ _ _ _ E1 E2 L1 L2) as (c3 & -> & L3 & _).
  exact L3.
Qed.

Lemma lt_le_trans x y z : lt x y = true -> le y z = true -> lt x z = true.
Proof.
  rewrite !lt_cmp, le_cmp. unfold cmp.
  destruct (SFcompare (Prim2SF x) (Prim2SF y)) as [c1|] eqn:E1; [|done].
  destruct (SFcompare (Prim2SF y) (Prim2SF z)) as [c2|] eqn:E2; [|done].
  intros L1 L2. destruct c1; try done.
  destruct (SFcompare_le_trans _ _ _ _ _ E1 E2 eq_refl L2) as (c3 & -> & _ & L3).
  rewrite L3; auto.
Qed.

Lemma le_lt_trans x y z : le x y = true -> lt y z = true -> lt x z = true.
Proof.
  rewrite !lt_cmp, le_cmp. unfold cmp.
  destruct (SFcompare (Prim2SF x) (Prim2SF y)) as [c1|] eqn:E1; [|done].
  destruct (SFcompare (Prim2SF y) (Prim2SF z)) as [c2|] eqn:E2; [|done].
  intros L1 L2. destruct c2; try done.
  destruct (SFcompare_le_trans _ _ _ _ _ E1 E2 L1 eq_refl) as (c3 & -> & _ & L3).
  rewrite L3; auto.
Qed.

(** Two numbers that are not [NaN] are comparable. *)
Lemma cmp_defined x y :
  isNaN x = false -> isNaN y = false -> exists c, cmp x y = Some c.
Proof.
  unfold isNaN. rewrite !negb_false_iff.
  change (strictEq x x = true -> strictEq y y = true -> exists c, cmp x y = Some c).
  rewrite !strictEq_cmp. unfold cmp.
  destruct (Prim2SF x) as [| | |], (Prim2SF y) as [| | |]; simpl; try done; eauto.
Qed.

Lemma not_lt_ge x y :
  isNaN x = false -> isNaN y = false -> lt x y = false -> ge x y = true.
Proof.
  intros Hx Hy. destruct (cmp_defined x y Hx Hy) as [c E].
  unfold ge. rewrite lt_cmp, le_cmp, E, (cmp_antisym _ _ _ E).
  destruct c; done.
Qed.

Lemma strictEq_le x y : strictEq x y = true -> le x y = true.
Proof. rewrite strictEq_cmp, le_cmp. destruct (cmp x y) as [[]|]; done. Qed.

Lemma strictEq_sym x y : strictEq x y = strictEq y x.
Proof.
  rewrite !strictEq_cmp. destruct (cmp x y) as [c|] eqn:E.
  - rewrite (cmp_antisym _ _ _ E). destruct c; done.
  - destruct (cmp y x) as [c|] eqn:E'; [|done].
    rewrite (cmp_antisym _ _ _ E') in E. done.
Qed.

Lemma le_refl_notNaN (a : number) : isNaN a = false -> le a a = true.
Proof. unfold isNaN. rewrite negb_false_iff. apply strictEq_le. Qed.

(** A comparison that holds has two operands that are not [NaN]. *)
Lemma cmp_operands_defined x y c :
  cmp x y = Some c -> isNaN x = false /\ isNaN y = false.
Proof.
unfold isNaN. rewrite !negb_false_iff.
change (cmp x y = Some c -> strictEq x x = true /\ strictEq y y = true).
rewrite !strictEq_cmp. unfold cmp.
destruct (Prim2SF x) as [[]|[]| |[] mx ex], (Prim2SF y) as [[]|[]| |[] my ey];
  simpl; try done;
  rewrite ?Z.compare_refl;
  change (Pos.compare_cont Eq ?p ?q) with (Pos.compare p q);
  rewrite ?Pos.compare_refl; done.
Qed.

Lemma lt_defined x y : lt x y = true -> isNaN x = false /\ isNaN y = false.
Proof.
rewrite lt_cmp. destruct (cmp x y) as [c|] eqn:E; [|done].
intros _. by eapply cmp_operands_defined.
Qed.

Lemma le_defined x y : le x y = true -> isNaN x = false /\ isNaN y = false.
Proof.
rewrite le_cmp. destruct (cmp x y) as [c|] eqn:E; [|done].
intros _. by eapply cmp_operands_defined.
Qed.

End JsNumberFacts.

(** ** The sign of a difference

    [a - b] on two finite numbers: the subtraction of the format rounds the
    exact difference, and the rounding of a number that is not zero is not a
    zero (the least exponent of the format is the one of its subnormal
    numbers), so the difference has the sign of the comparison. *)

Module JsSubtractionFacts.
Import JsNumber JsNumberFacts.

Lemma SFcompare_antisym_opt (a b : spec_float) :
  match SFcompare a b with Some c => Some (CompOpp c) | None => None end = SFcompare b a.
Proof.
destruct (SFcompare a b) as [c|] eqn:E.
- symmetry. by apply SFcompare_antisym.
- destruct (SFcompare b a) as [c|] eqn:E'; [|done].
  apply SFcompare_antisym in E'. congruence.
Qed.

Lemma SFcompare_refl (a : spec_float) :
  a <> S754_nan -> SFcompare a a = Some Eq.
Proof.
destruct a as [s|s| |s m e]; try done; intros _; simpl; try (by destruct s).
change (Pos.compare_cont Eq m m) with (Pos.compare m m).
rewrite Z.compare_refl, Pos.compare_refl. by destruct s.
Qed.

Lemma digits2_pos_size (p : positive) : digits2_pos p = Pos.size p.
Proof. induction p as [p IH|p IH|]; simpl; by rewrite ?IH. Qed.

Lemma digits_bounds (p : positive) :
  2 ^ (Z.pos (digits2_pos p) - 1) <= Z.pos p < 2 ^ Z.pos (digits2_pos p).
Proof.
rewrite digits2_pos_size. split.
- pose proof (Pos.size_le p) as H.
  apply Pos2Z.pos_le_pos in H. rewrite Pos2Z.inj_pow in H.
  change (Z.pos p~0) with (2 * Z.pos p) in H.
  replace (Z.pos (Pos.size p)) with (Z.succ (Z.pos (Pos.size p) - 1)) in H by lia.
  rewrite Z.pow_succ_r in H by lia. lia.
- pose proof (Pos.size_gt p) as H.
  apply Pos2Z.pos_lt_pos in H. by rewrite Pos2Z.inj_pow in H.
Qed.

Lemma iter_xO (m d : positive) : Z.pos (Pos.iter xO m d) = Z.pos m * 2 ^ Z.pos d.
Proof.
induction d as [|d IH] using Pos.peano_ind.
- simpl. lia.
- rewrite Pos.iter_succ, Pos2Z.inj_succ, Z.pow_succ_r by lia.
  change (Z.pos (Pos.iter xO m d)~0) with (2 * Z.pos (Pos.iter xO m d)). lia.
Qed.

Lemma shl_align_value (mx : positive) (ex ez : Z) :
  ez <= ex -> Z.pos (fst (shl_align mx ex ez)) = Z.pos mx * 2 ^ (ex - ez).
Proof.
intros Hle. unfold shl_align. destruct (ez - ex) as [|d|d] eqn:E.
- replace (ex - ez) with 0 by lia. simpl. lia.
- lia.
- simpl. rewrite iter_xO. f_equal. f_equal. lia.
Qed.

Lemma shr_m_of_loc (m : Z) (l : location) : shr_m (shr_record_of_loc m l) = m.
Proof. by destruct l as [|[]]. Qed.

Lemma shr_1_div2 (mrs : shr_record) :
  0 <= shr_m mrs -> shr_m (shr_1 mrs) = shr_m mrs / 2.
Proof.
destruct mrs as [m r s]. unfold shr_1. cbn [shr_m].
destruct m as [|[p|p|]|p]; intros H; cbn [shr_m]; try lia.
- done.
- apply (Z.div_unique _ _ _ 1); lia.
- apply (Z.div_unique _ _ _ 0); lia.
- done.
Qed.

Lemma iter_shr_1 (k : positive) (mrs : shr_record) :
  0 <= shr_m mrs -> shr_m (SpecFloat.iter_pos shr_1 k mrs) = shr_m mrs / 2 ^ Z.pos k.
Proof.
revert mrs. induction k as [k IH|k IH|]; intros mrs H; cbn [SpecFloat.iter_pos].
- assert (H1 : 0 <= shr_m (shr_1 mrs)).
  { rewrite shr_1_div2 by done. apply Z.div_pos; lia. }
  assert (H2 : 0 <= shr_m (SpecFloat.iter_pos shr_1 k (shr_1 mrs))).
  { rewrite IH by done. apply Z.div_pos; lia. }
  rewrite IH, IH, shr_1_div2 by done.
  rewrite !Z.div_div by lia. f_equal.
  replace (Z.pos k~1) with (1 + Z.pos k + Z.pos k) by lia.
  rewrite !Z.pow_add_r by lia. lia.
- assert (H2 : 0 <= shr_m (SpecFloat.iter_pos shr_1 k mrs)).
  { rewrite IH by done. apply Z.div_pos; lia. }
  rewrite IH, IH by done. rewrite Z.div_div by lia. f_equal.
  replace (Z.pos k~0) with (Z.pos k + Z.pos k) by lia.
  by rewrite Z.pow_add_r by lia.
- rewrite shr_1_div2 by done. by rewrite Z.pow_1_r.
Qed.

Section Format.
Variables prec emax : Z.
Hypothesis Hprec : 0 < prec.

(** Shifting a positive mantissa to the exponent of the format leaves it
    positive when the exponent it had was not below the least one. *)
Lemma shr_fexp_pos (p : positive) (e : Z) (l : location) :
  SpecFloat.emin prec emax <= e ->
  exists q e', shr_m (fst (shr_fexp prec emax (Z.pos p) e l)) = Z.pos q
               /\ snd (shr_fexp prec emax (Z.pos p) e l) = e'
               /\ SpecFloat.emin prec emax <= e'.
Proof using Hprec.
intros He. unfold shr_fexp, shr, fexp. cbn [Zdigits2].
set (d := Z.pos (digits2_pos p)).
destruct (Z.max (d + e - prec) (SpecFloat.emin prec emax) - e) as [|k|k] eqn:Ek;
  cbn [fst snd]; rewrite ?shr_m_of_loc; try (exists p, e; by repeat split).
rewrite iter_shr_1 by (rewrite shr_m_of_loc; lia). rewrite shr_m_of_loc.
pose proof (digits_bounds p) as [Hlo Hhi]. fold d in Hlo, Hhi.
assert (Hk : Z.pos k <= d - 1) by lia.
assert (Hpow : 2 ^ Z.pos k <= Z.pos p).
{ etrans; [|exact Hlo]. apply Z.pow_le_mono_r; lia. }
assert (Hq : 0 < Z.pos p / 2 ^ Z.pos k).
{ apply Z.div_str_pos. split; [|done]. apply Z.pow_pos_nonneg; lia. }
destruct (Z.pos p / 2 ^ Z.pos k) as [|q|q] eqn:Eq; try lia.
exists q, (e + Z.pos k). repeat split. lia.
Qed.

Lemma round_nearest_even_pos (q : positive) (l : location) :
  exists q', round_nearest_even (Z.pos q) l = Z.pos q'.
Proof.
destruct l as [|[]]; simpl; eauto.
- destruct q; simpl; eauto.
Qed.

(** Rounding a positive mantissa never gives a zero, nor a [NaN]. *)
Lemma binary_round_aux_sign (s : bool) (p : positive) (e : Z) (l : location) :
  SpecFloat.emin prec emax <= e ->
  (exists m e', binary_round_aux prec emax s (Z.pos p) e l = S754_finite s m e')
  \/ binary_round_aux prec emax s (Z.pos p) e l = S754_infinity s.
Proof using Hprec.
intros He. unfold binary_round_aux.
destruct (shr_fexp_pos p e l He) as (q & e1 & Hq & He1 & Hmin1).
destruct (shr_fexp prec emax (Z.pos p) e l) as [mrs1 e1'] eqn:E1. cbn [fst snd] in *.
subst e1'. rewrite Hq.
destruct (round_nearest_even_pos q (loc_of_shr_record mrs1)) as [q' ->].
destruct (shr_fexp_pos q' e1 loc_Exact Hmin1) as (q2 & e2 & Hq2 & He2 & Hmin2).
destruct (shr_fexp prec emax (Z.pos q') e1 loc_Exact) as [mrs2 e2'] eqn:E2.
cbn [fst snd] in *. subst e2'. rewrite Hq2.
destruct (e2 <=? emax - prec); eauto.
Qed.

Lemma binary_round_sign (s : bool) (m : positive) (e : Z) :
  SpecFloat.emin prec emax <= e ->
  (exists m' e', binary_round prec emax s m e = S754_finite s m' e')
  \/ binary_round prec emax s m e = S754_infinity s.
Proof using Hprec.
intros He. unfold binary_round.
destruct (shl_align m e _) as [mz ez] eqn:E.
apply binary_round_aux_sign.
unfold shl_align in E. destruct (_ - e) as [|d|d] eqn:Ed; injection E as <- <-; try done.
unfold fexp. lia.
Qed.


Lemma bounded_canonical (m : positive) (e : Z) :
  bounded prec emax m e = true ->
  SpecFloat.emin prec emax <= e /\ Z.pos (digits2_pos m) <= prec
  /\ (SpecFloat.emin prec emax < e -> Z.pos (digits2_pos m) = prec).
Proof.
unfold bounded, canonical_mantissa, fexp.
intros [H _]%andb_true_iff. apply Z.eqb_eq in H. lia.
Qed.

(** Of two positive numbers of the format, the one with the smaller
    exponent is the smaller. *)
Lemma lower_exponent (mx : positive) (ex : Z) (my : positive) (ey : Z) :
  bounded prec emax mx ex = true -> bounded prec emax my ey = true -> ex < ey ->
  Z.pos mx < Z.pos my * 2 ^ (ey - ex).
Proof using Hprec.
intros (Hex & Hdx & _)%bounded_canonical (Hey & _ & Hdy)%bounded_canonical Hlt.
specialize (Hdy ltac:(lia)).
pose proof (digits_bounds mx) as [_ Hx]. pose proof (digits_bounds my) as [Hy _].
rewrite Hdy in Hy.
assert (H1 : 2 ^ Z.pos (digits2_pos mx) <= 2 ^ prec) by (apply Z.pow_le_mono_r; lia).
assert (H2 : 2 ^ 1 <= 2 ^ (ey - ex)) by (apply Z.pow_le_mono_r; lia).
assert (H3 : 2 ^ prec = 2 ^ (prec - 1) * 2 ^ 1).
{ rewrite <- Z.pow_add_r by lia. f_equal. lia. }
assert (H4 : 0 < 2 ^ (prec - 1)) by (apply Z.pow_pos_nonneg; lia).
nia.
Qed.

(** The sign of the difference of two finite numbers of the format is the
    one of their comparison; the difference is a zero only when they are
    equal, and never a [NaN]. *)
Lemma SFsub_sign (sx : bool) (mx : positive) (ex : Z) (sy : bool) (my : positive) (ey : Z) :
  bounded prec emax mx ex = true -> bounded prec emax my ey = true ->
  let r := SFsub prec emax (S754_finite sx mx ex) (S754_finite sy my ey) in
  match SFcompare (S754_finite sx mx ex) (S754_finite sy my ey) with
  | Some Lt => (exists m e, r = S754_finite true m e) \/ r = S754_infinity true
  | Some Gt => (exists m e, r = S754_finite false m e) \/ r = S754_infinity false
  | Some Eq => r = S754_zero false
  | None => False
  end.
Proof using Hprec.
intros Hx Hy r. unfold r, SFsub. clear r.
pose proof (bounded_canonical _ _ Hx) as (Hex & _ & _).
pose proof (bounded_canonical _ _ Hy) as (Hey & _ & _).
set (ez := Z.min ex ey).
rewrite (shl_align_value mx ex ez), (shl_align_value my ey ez) by lia.
assert (Hez : SpecFloat.emin prec emax <= ez) by lia.
set (X := Z.pos mx * 2 ^ (ex - ez)). set (Y := Z.pos my * 2 ^ (ey - ez)).
assert (HX : 0 < X) by (apply Z.mul_pos_pos; [lia|apply Z.pow_pos_nonneg; lia]).
assert (HY : 0 < Y) by (apply Z.mul_pos_pos; [lia|apply Z.pow_pos_nonneg; lia]).
assert (Hcmp : match Z.compare ex ey with
               | Lt => X < Y
               | Gt => Y < X
               | Eq => X = Z.pos mx /\ Y = Z.pos my
               end).
{ unfold X, Y, ez. destruct (Z.compare_spec ex ey) as [->|Hlt|Hgt].
  - rewrite Z.min_id, Z.sub_diag. simpl. lia.
  - rewrite Z.min_l, Z.sub_diag by lia. simpl Z.pow. rewrite Z.mul_1_r.
    by apply lower_exponent.
  - rewrite Z.min_r, Z.sub_diag by lia. simpl Z.pow. rewrite Z.mul_1_r.
    by apply lower_exponent. }
assert (Hneg : forall D, D < 0 ->
          (exists m e, binary_normalize prec emax D ez false = S754_finite true m e)
          \/ binary_normalize prec emax D ez false = S754_infinity true).
{ intros [|p|p] HD; try lia. by apply binary_round_sign. }
assert (Hpos : forall D, 0 < D ->
          (exists m e, binary_normalize prec emax D ez false = S754_finite false m e)
          \/ binary_normalize prec emax D ez false = S754_infinity false).
{ intros [|p|p] HD; try lia. by apply binary_round_sign. }
unfold SFcompare. change (Pos.compare_cont Eq mx my) with (Pos.compare mx my).
destruct sx, sy; cbn [cond_Zopp].
- destruct (ex ?= ey).
  + destruct Hcmp as [-> ->]. destruct (Pos.compare_spec mx my) as [->|Hlt|Hgt]; cbn [CompOpp].
    * by replace (- Z.pos my - - Z.pos my) with 0 by lia.
    * apply Hpos. lia.
    * apply Hneg. lia.
  + apply Hpos. lia.
  + apply Hneg. lia.
- apply Hneg. lia.
- apply Hpos. lia.
- destruct (ex ?= ey).
  + destruct Hcmp as [-> ->]. destruct (Pos.compare_spec mx my) as [->|Hlt|Hgt].
    * by rewrite Z.sub_diag.
    * apply Hneg. lia.
    * apply Hpos. lia.
  + apply Hneg. lia.
  + apply Hpos. lia.
Qed.

End Format.

Lemma finite_cases (x : number) :
  isFinite x = true ->
  match Prim2SF x with S754_zero _ | S754_finite _ _ _ => True | _ => False end.
Proof.
unfold isFinite, is_finite. intros [Hnan Hinf]%negb_true_iff%orb_false_iff.
unfold Prim2SF. rewrite Hnan, Hinf. destruct (is_zero x); [done|].
destruct (Z.frexp x) as [r e]. destruct (shr_fexp _ _ _ _ _) as [mrs e'].
by destruct (shr_m mrs).
Qed.

(** The difference of two finite numbers is not [NaN]; it is negative
    exactly when the first is the smaller, positive exactly when it is the
    greater. *)
Lemma sub_sign (x y : number) :
  isFinite x = true -> isFinite y = true ->
  isNaN (x - y)%float = false
  /\ lt (x - y)%float 0%float = lt x y
  /\ gt (x - y)%float 0%float = gt x y.
Proof.
intros Hx%finite_cases Hy%finite_cases.
unfold isNaN, lt, gt. rewrite FloatAxioms.eqb_spec, !FloatAxioms.ltb_spec, FloatAxioms.sub_spec.
change (Prim2SF 0%float) with (S754_zero false).
pose proof (FloatAxioms.Prim2SF_valid x) as Vx.
pose proof (FloatAxioms.Prim2SF_valid y) as Vy.
unfold SFeqb, SFltb.
rewrite <- (SFcompare_antisym_opt (Prim2SF x) (Prim2SF y)).
destruct (Prim2SF x) as [sx| | |sx mx ex], (Prim2SF y) as [sy| | |sy my ey]; try done.
- by destruct sx, sy.
- unfold FloatAxioms.SF64sub. cbn [SFsub]. rewrite SFcompare_refl by done.
  cbn [SFcompare]. by destruct sy.
- unfold FloatAxioms.SF64sub. cbn [SFsub]. rewrite SFcompare_refl by done.
  cbn [SFcompare]. by destruct sx.
- pose proof (SFsub_sign prec emax ltac:(done) sx mx ex sy my ey Vx Vy) as H.
  cbv zeta in H. unfold FloatAxioms.SF64sub.
  destruct (SFcompare (S754_finite sx mx ex) (S754_finite sy my ey)) as [[]|]; try done.
  + by rewrite H.
  + destruct H as [(m & e & ->)| ->]; by rewrite SFcompare_refl.
  + destruct H as [(m & e & ->)| ->]; by rewrite SFcompare_refl.
Qed.

End JsSubtractionFacts.

(** ** The key walk of the evaluator *)

Section KeyWalk.
Import JsNumber JsNumberFacts.
Context (M : Maths.t) (sw : Switches).
Implicit Types (keys : list IAnimationKey.t) (f : number).

Lemma lookupZ_of_nat {A} (l : list A) (i : nat) : lookupZ l (Z.of_nat i) = l !! i.
Proof.
  unfold lookupZ. destruct (Z.ltb_spec (Z.of_nat i) 0); [lia|].
  by rewrite Nat2Z.id.
Qed.

Lemma nondecreasing_tail k keys : nondecreasing (k :: keys) = true -> nondecreasing keys = true.
Proof. destruct keys as [|k2 rest]; [done|]. simpl. by intros [_ ?]%andb_true_iff. Qed.

Lemma nondecreasing_head k keys j kj :
  nondecreasing (k :: keys) = true -> keys !! j = Some kj ->
  le (IAnimationKey.frame k) (IAnimationKey.frame kj) = true.
Proof.
  revert k j. induction keys as [|k2 rest IH]; intros k j H Hj; [done|].
  simpl in H. apply andb_true_iff in H as [H1 H2].
  destruct j as [|j]; simpl in Hj.
  - by injection Hj as <-.
  - eapply le_trans; [exact H1|]. by eapply IH.
Qed.

Lemma nondecreasing_lookup keys i j ki kj :
  nondecreasing keys = true -> keys !! i = Some ki -> keys !! j = Some kj ->
  (i < j)%nat -> le (IAnimationKey.frame ki) (IAnimationKey.frame kj) = true.
Proof.
  revert i j. induction keys as [|k rest IH]; intros i j H Hi Hj Hlt; [done|].
  destruct j as [|j]; [lia|]. destruct i as [|i]; simpl in Hi, Hj.
  - injection Hi as <-. by eapply nondecreasing_head.
  - eapply IH; eauto using nondecreasing_tail. lia.
Qed.

Lemma walkLeft_to_start keys f (n : nat) :
  (n <= length keys)%nat ->
  (forall j kj, (j < n)%nat -> keys !! j = Some kj ->
                lt f (IAnimationKey.frame kj) = true) ->
  Animation.walkLeft keys f n (Z.of_nat n - 1) = Returns (-1).
Proof.
  induction n as [|n IH]; intros Hn Hall; [done|].
  simpl. replace (Z.of_nat (S n) - 1) with (Z.of_nat n) by lia.
  rewrite lookupZ_of_nat.
  destruct (lookup_lt_is_Some_2 keys n ltac:(lia)) as [k Hk].
  rewrite Hk, (Hall n k) by (done || lia).
  apply IH; [lia|]. intros j kj ? ?. apply (Hall j); [lia|done].
Qed.

Lemma walkLeft_stay keys f (key : Z) k :
  lookupZ keys key = Some k -> lt f (IAnimationKey.frame k) = false ->
  Animation.walkLeft keys f (Z.to_nat (key + 1)) key = Returns key.
Proof.
  intros Hk Hlt. unfold lookupZ in Hk. destruct (Z.ltb_spec key 0); [done|].
  replace (Z.to_nat (key + 1)) with (S (Z.to_nat key)) by lia. simpl.
  unfold lookupZ. destruct (Z.ltb_spec key 0); [lia|]. by rewrite Hk, Hlt.
Qed.

Lemma walkRight_to_end keys f (n : nat) (key : Z) :
  Z.of_nat n = Z.of_nat (length keys) - 1 - key -> -1 <= key ->
  (forall j kj, key < Z.of_nat j -> keys !! j = Some kj ->
                ge f (IAnimationKey.frame kj) = true) ->
  Animation.walkRight keys f n key = Returns (Z.of_nat (length keys) - 1).
Proof.
  revert key. induction n as [|n IH]; intros key Hn Hkey Hall.
  - simpl. f_equal. lia.
  - simpl. replace (key + 1) with (Z.of_nat (Z.to_nat (key + 1))) at 1 by lia.
    rewrite lookupZ_of_nat.
    destruct (lookup_lt_is_Some_2 keys (Z.to_nat (key + 1)) ltac:(lia)) as [k Hk].
    rewrite Hk, (Hall (Z.to_nat (key + 1)) k ltac:(lia) Hk).
    apply IH; [lia|lia|]. intros j kj ? ?. apply (Hall j); [lia|done].
Qed.

Lemma walkRight_stay keys f (n : nat) (key : Z) k :
  lookupZ keys (key + 1) = Some k -> ge f (IAnimationKey.frame k) = false ->
  Animation.walkRight keys f (S n) key = Returns key.
Proof. intros Hk Hge. simpl. by rewrite Hk, Hge. Qed.

Lemma walkLeft_down keys f (d k : nat) s :
  keys !! k = Some s -> lt f (IAnimationKey.frame s) = false ->
  (forall j kj, (k < j <= k + d)%nat -> keys !! j = Some kj ->
                lt f (IAnimationKey.frame kj) = true) ->
  (k + d < length keys)%nat ->
  Animation.walkLeft keys f (S (k + d)) (Z.of_nat (k + d)) = Returns (Z.of_nat k).
Proof.
  intros Hs Hlt. induction d as [|d IH]; intros Hall Hlen.
  - rewrite Nat.add_0_r. simpl. by rewrite lookupZ_of_nat, Hs, Hlt.
  - rewrite Nat.add_succ_r. simpl. rewrite lookupZ_of_nat.
    destruct (lookup_lt_is_Some_2 keys (S (k + d)) ltac:(lia)) as [kj Hkj].
    rewrite Hkj, (Hall (S (k + d)) kj ltac:(lia) Hkj).
    replace (Z.of_nat (S (k + d)) - 1) with (Z.of_nat (k + d)) by lia.
    apply IH; [|lia]. intros j kj' ? ?. apply (Hall j); [lia|done].
Qed.

Lemma walkRight_up keys f (d : nat) (c : Z) (k n : nat) e :
  -1 <= c -> Z.of_nat k = c + Z.of_nat d ->
  keys !! S k = Some e -> ge f (IAnimationKey.frame e) = false ->
  (forall j kj, c < Z.of_nat j -> (j <= k)%nat -> keys !! j = Some kj ->
                ge f (IAnimationKey.frame kj) = true) ->
  Z.of_nat n = Z.of_nat (length keys) - 1 - c ->
  Animation.walkRight keys f n c = Returns (Z.of_nat k).
Proof.
  intros Hc Hk He Hge. revert c n Hc Hk.
  induction d as [|d IH]; intros c n Hc Hk Hall Hn;
    pose proof (lookup_lt_Some _ _ _ He) as Hlen;
    (destruct n as [|n]; [lia|]); simpl;
    replace (c + 1) with (Z.of_nat (Z.to_nat (c + 1))) at 1 by lia;
    rewrite lookupZ_of_nat.
  - replace (Z.to_nat (c + 1)) with (S k) by lia. rewrite He, Hge. f_equal. lia.
  - destruct (lookup_lt_is_Some_2 keys (Z.to_nat (c + 1)) ltac:(lia)) as [kj Hkj].
    rewrite Hkj, (Hall (Z.to_nat (c + 1)) kj ltac:(lia) ltac:(lia) Hkj).
    apply IH; [lia|lia| |lia]. intros j kj' ? ? ?. apply (Hall j); [lia|lia|done].
Qed.

(** On non-decreasing frames, a frame at or after key [k] and strictly
    before key [k + 1] is resolved to [k], wherever the cursor was. *)
Lemma resolveKey_segment keys f (c : Z) (k : nat) s e :
  nondecreasing keys = true -> -1 <= c < Z.of_nat (length keys) ->
  keys !! k = Some s -> keys !! S k = Some e ->
  le (IAnimationKey.frame s) f = true -> lt f (IAnimationKey.frame e) = true ->
  Animation.resolveKey keys f c = Returns (Z.of_nat k).
Proof.
  intros Hsorted Hc Hs He Hle Hlt. unfold Animation.resolveKey.
  assert (Hbelow : forall j kj, (j <= k)%nat -> keys !! j = Some kj ->
                     ge f (IAnimationKey.frame kj) = true).
  { intros j kj Hj Hkj. destruct (decide (j = k)) as [->|Hne].
    - rewrite Hs in Hkj. by injection Hkj as <-.
    - unfold ge. eapply le_trans; [|exact Hle].
      eapply (nondecreasing_lookup keys j k); eauto. lia. }
  assert (Habove : forall j kj, (k < j)%nat -> keys !! j = Some kj ->
                     lt f (IAnimationKey.frame kj) = true).
  { intros j kj Hj Hkj. destruct (decide (j = S k)) as [->|Hne].
    - rewrite He in Hkj. by injection Hkj as <-.
    - eapply lt_le_trans; [exact Hlt|].
      eapply (nondecreasing_lookup keys (S k) j); eauto. lia. }
  destruct (Z_lt_le_dec c (Z.of_nat k)) as [Hck|Hck].
  - assert (Hleft : Animation.walkLeft keys f (Z.to_nat (c + 1)) c = Returns c).
    { destruct (decide (c = -1)) as [->|Hne]; [done|].
      destruct (lookup_lt_is_Some_2 keys (Z.to_nat c) ltac:(lia)) as [kc Hkc].
      apply (walkLeft_stay _ _ _ kc).
      - unfold lookupZ. destruct (Z.ltb_spec c 0); [lia|done].
      - apply ge_not_lt. apply (Hbelow (Z.to_nat c)); [lia|done]. }
    rewrite Hleft. simpl bind.
    apply (walkRight_up keys f (Z.to_nat (Z.of_nat k - c)) c k _ e);
      first [done | lia | by apply lt_not_ge
            | intros j kj _ ? ?; by apply (Hbelow j)].
  - replace c with (Z.of_nat (k + Z.to_nat (c - Z.of_nat k))) at 1 2 by lia.
    replace (Z.to_nat (Z.of_nat (k + Z.to_nat (c - Z.of_nat k)) + 1))
      with (S (k + Z.to_nat (c - Z.of_nat k))) by lia.
    rewrite (walkLeft_down keys f _ k s); try done.
    + simpl bind. pose proof (lookup_lt_Some _ _ _ He).
      apply (walkRight_up keys f 0 _ k _ e);
        first [done | lia | by apply lt_not_ge | intros j kj ? ? ?; lia].
    + apply ge_not_lt. by apply (Hbelow k).
    + intros j kj ? ?. apply (Habove j); [lia|done].
    + lia.
Qed.

End KeyWalk.

(** ** Boundary policy of the evaluator *)

Section Boundary.
Import JsNumber JsNumberFacts.
Context (M : Maths.t) (sw : Switches).
Implicit Types (this : Animation.t) (f : number) (state : _IAnimationState.t).

Lemma lookupZ_0 {A} (l : list A) : lookupZ l 0 = head l.
Proof. unfold lookupZ. simpl. by destruct l. Qed.

Lemma lookupZ_last {A} (l : list A) : lookupZ l (Z.of_nat (length l) - 1) = last l.
Proof.
  destruct l as [|a l] using rev_ind; [done|].
  rewrite length_app, last_snoc. simpl.
  replace (Z.of_nat (length l + 1) - 1) with (Z.of_nat (length l)) by lia.
  rewrite lookupZ_of_nat. by rewrite lookup_app_r, Nat.sub_diag by lia.
Qed.

(** Strictly before the first key, whatever the cursor: the walk ends at
    -1 and the first key's value is returned. *)
Lemma _interpolate_before_first this f state first :
  head (Animation._keys this) = Some first ->
  nondecreasing (Animation._keys this) = true ->
  cursorInRange (Animation._keys this) state ->
  shortCircuits state = false ->
  lt f (IAnimationKey.frame first) = true ->
  Animation._interpolate M sw this f state
  = (Returns (IAnimationKey.value first), _IAnimationState.set_key (-1) state).
Proof.
  intros Hfirst Hsorted Hcur Hsc Hlt. unfold cursorInRange in Hcur.
  unfold shortCircuits in Hsc.
  unfold Animation._interpolate, Animation.resolveKey. rewrite Hsc.
  set (keys := Animation._keys this) in *.
  assert (Hleft : Animation.walkLeft keys f
                    (Z.to_nat (_IAnimationState.key state + 1))
                    (_IAnimationState.key state) = Returns (-1)).
  { set (n := Z.to_nat (_IAnimationState.key state + 1)).
    replace (_IAnimationState.key state) with (Z.of_nat n - 1) by lia.
    apply walkLeft_to_start; [lia|].
    intros j kj Hj Hkj. destruct j as [|j].
    + rewrite <- head_lookup, Hfirst in Hkj. by injection Hkj as <-.
    + eapply lt_le_trans; [exact Hlt|].
      eapply (nondecreasing_lookup keys 0 (S j)); eauto; [|lia].
      by rewrite <- head_lookup. }
  rewrite Hleft. clear Hleft. simpl bind.
  destruct keys as [|k0 rest] eqn:Ek; [done|]. injection Hfirst as ->.
  replace (Z.to_nat (Z.of_nat (length (first :: rest)) - 1 - -1))
    with (S (length rest)) by (simpl; lia).
  rewrite (walkRight_stay _ _ _ _ first); [|done|by apply lt_not_ge].
  done.
Qed.

(** At or after the last key, whatever the cursor: the walk ends at the
    last index and the last key's value is returned. *)
Lemma _interpolate_after_last this f state lastKey :
  last (Animation._keys this) = Some lastKey ->
  nondecreasing (Animation._keys this) = true ->
  cursorInRange (Animation._keys this) state ->
  shortCircuits state = false ->
  ge f (IAnimationKey.frame lastKey) = true ->
  Animation._interpolate M sw this f state
  = (Returns (IAnimationKey.value lastKey),
     _IAnimationState.set_key (Z.of_nat (length (Animation._keys this)) - 1) state).
Proof.
  intros Hlast Hsorted Hcur Hsc Hge. unfold cursorInRange in Hcur.
  unfold shortCircuits in Hsc.
  unfold Animation._interpolate, Animation.resolveKey. rewrite Hsc.
  set (keys := Animation._keys this) in *.
  assert (Hlen : (0 < length keys)%nat).
  { destruct keys; [done|simpl; lia]. }
  assert (Hall : forall j kj, keys !! j = Some kj ->
                   ge f (IAnimationKey.frame kj) = true).
  { intros j kj Hkj. rewrite last_lookup in Hlast.
    destruct (decide (j = pred (length keys))) as [->|Hne].
    - rewrite Hlast in Hkj. by injection Hkj as <-.
    - unfold ge in *. eapply le_trans; [|exact Hge].
      eapply (nondecreasing_lookup keys j (pred (length keys))); eauto.
      apply lookup_lt_Some in Hkj. lia. }
  assert (Hleft : Animation.walkLeft keys f
                    (Z.to_nat (_IAnimationState.key state + 1))
                    (_IAnimationState.key state)
                  = Returns (_IAnimationState.key state)).
  { destruct (decide (_IAnimationState.key state = -1)) as [->|Hne]; [done|].
    destruct (lookup_lt_is_Some_2 keys (Z.to_nat (_IAnimationState.key state))
                ltac:(lia)) as [k Hk].
    apply (walkLeft_stay _ _ _ k).
    - unfold lookupZ. destruct (Z.ltb_spec (_IAnimationState.key state) 0); [lia|done].
    - apply ge_not_lt. by eapply Hall. }
  rewrite Hleft. simpl bind.
  rewrite (walkRight_to_end keys f); [|lia|lia|by intros; eapply Hall].
  destruct (Z.ltb_spec (Z.of_nat (length keys) - 1) 0); [lia|].
  destruct (Z.gtb_spec (Z.of_nat (length keys) - 1 + 1) (Z.of_nat (length keys) - 1));
    [|lia].
  unfold Animation.keyValueAt. by rewrite lookupZ_last, Hlast.
Qed.

End Boundary.

Section BoundaryClamp.
Import JsNumber JsNumberFacts.
Context (M : Maths.t) (sw : Switches).

(** C1 (amended).  On a track with at least one key whose frames never
    decrease, for every cursor that holds an index of the key array (or -1)
    and does not short-circuit, whatever its loop mode: a frame strictly
    before the first key's frame evaluates to the first key's value
    unchanged, and a frame at or after the last key's frame evaluates to the
    last key's value unchanged; so does [evaluate]. *)
Theorem boundary_clamp (this : Animation.t) (f : number)
    (state : _IAnimationState.t) (firstKey lastKey : IAnimationKey.t) :
  head (Animation._keys this) = Some firstKey ->
  last (Animation._keys this) = Some lastKey ->
  nondecreasing (Animation._keys this) = true ->
  cursorInRange (Animation._keys this) state ->
  shortCircuits state = false ->
  (lt f (IAnimationKey.frame firstKey) = true ->
     fst (Animation._interpolate M sw this f state)
       = Returns (IAnimationKey.value firstKey)
     /\ Animation.evaluate M sw this f = Returns (IAnimationKey.value firstKey))
  /\ (ge f (IAnimationKey.frame lastKey) = true ->
     fst (Animation._interpolate M sw this f state)
       = Returns (IAnimationKey.value lastKey)
     /\ Animation.evaluate M sw this f = Returns (IAnimationKey.value lastKey)).
Proof.
  intros Hfirst Hlast Hsorted Hcur Hsc.
  assert (Hcur0 : cursorInRange (Animation._keys this)
                    (_IAnimationState.mk 0 0%float None
                       (Some Animation.ANIMATIONLOOPMODE_CONSTANT) None None)).
  { unfold cursorInRange. simpl. destruct (Animation._keys this); [done|simpl; lia]. }
  split; intros Hf; unfold Animation.evaluate.
  - by rewrite !(_interpolate_before_first M sw this f _ firstKey).
  - by rewrite !(_interpolate_after_last M sw this f _ lastKey).
Qed.

End BoundaryClamp.

Lemma number_neq (x y : number) :
  JsNumber.strictEq x y = false -> JsNumber.isNaN x = false -> x <> y.
Proof.
  intros H1 H2 <-. unfold JsNumber.isNaN in H2. unfold JsNumber.strictEq in H1.
  by rewrite H1 in H2.
Qed.

Lemma Returns_VNumber_neq (x y : number) :
  JsNumber.strictEq x y = false -> JsNumber.isNaN x = false ->
  Returns (VNumber x) <> Returns (VNumber y).
Proof.
  intros H1 H2 H. apply (number_neq x y H1 H2).
  exact (f_equal (fun o => match o with Returns (VNumber n) => n | _ => x end) H).
Qed.

(** C1, witness: the track with keys (0, 1) and (10, 2), evaluated at -5 and
    at 10. *)
Lemma boundary_clamp_witness :
  Animation.evaluate ReferenceMaths.instance ReferenceMaths.switches
    Examples.twoKeys (-5)%float = Returns (VNumber 1%float)
  /\ Animation.evaluate ReferenceMaths.instance ReferenceMaths.switches
    Examples.twoKeys 10%float = Returns (VNumber 2%float).
Proof.
  split.
  - apply (proj1 (boundary_clamp ReferenceMaths.instance ReferenceMaths.switches
             Examples.twoKeys (-5)%float Examples.relativeCursor
             (Examples.floatKey 0 1) (Examples.floatKey 10 2)
             eq_refl eq_refl eq_refl ltac:(unfold cursorInRange; simpl; lia) eq_refl)
             eq_refl).
  - apply (proj2 (boundary_clamp ReferenceMaths.instance ReferenceMaths.switches
             Examples.twoKeys 10%float Examples.relativeCursor
             (Examples.floatKey 0 1) (Examples.floatKey 10 2)
             eq_refl eq_refl eq_refl ltac:(unfold cursorInRange; simpl; lia) eq_refl)
             eq_refl).
Defined.

(** C1 as stated fails at a frame equal to the first key's frame.  When a
    second key shares that frame the walk moves past the first key: with keys
    (0, 1), (0, 2), (10, 3), [evaluate(0)] is 2, not 1.  And at the first
    key's frame of the track (0, 1), (10, 2) a RELATIVE cursor gets the offset
    added: 6, not 1. *)
Lemma boundary_clamp_counterexample :
  (exists firstKey,
     head (Animation._keys Examples.sharedFirstFrame) = Some firstKey
     /\ JsNumber.le 0%float (IAnimationKey.frame firstKey) = true
     /\ Animation.evaluate ReferenceMaths.instance ReferenceMaths.switches
          Examples.sharedFirstFrame 0%float
        <> Returns (IAnimationKey.value firstKey))
  /\ (exists firstKey,
     head (Animation._keys Examples.twoKeys) = Some firstKey
     /\ JsNumber.le 0%float (IAnimationKey.frame firstKey) = true
     /\ fst (Animation._interpolate ReferenceMaths.instance ReferenceMaths.switches
               Examples.twoKeys 0%float Examples.relativeCursor)
        <> Returns (IAnimationKey.value firstKey)).
Proof.
  split; eexists; (split; [reflexivity|]); (split; [reflexivity|]);
    by apply Returns_VNumber_neq.
Qed.

(** ** Segments: STEP keys and loop modes *)

Section Segment.
Import JsNumber JsNumberFacts.
Context (M : Maths.t) (sw : Switches).
Implicit Types (this : Animation.t) (f : number) (state : _IAnimationState.t).

(** What [_interpolate] does once the frame is resolved to the segment
    from key [k] to key [k + 1]. *)
Lemma _interpolate_resolved this f state (k : nat) startKey endKey :
  shortCircuits state = false ->
  Animation.resolveKey (Animation._keys this) f (_IAnimationState.key state)
    = Returns (Z.of_nat k) ->
  Animation._keys this !! k = Some startKey ->
  Animation._keys this !! S k = Some endKey ->
  Animation._interpolate M sw this f state
  = let state' := _IAnimationState.set_key (Z.of_nat k) state in
    if isStep startKey then
      if gt (IAnimationKey.frame endKey) f
      then (Returns (IAnimationKey.value startKey), state')
      else (Returns (IAnimationKey.value endKey), state')
    else
      let frameDelta :=
        (IAnimationKey.frame endKey - IAnimationKey.frame startKey)%float in
      let gradient := ((f - IAnimationKey.frame startKey) / frameDelta)%float in
      let gradient :=
        match Animation.getEasingFunction this with
        | Some ease => ease gradient
        | None => gradient
        end in
      Animation.interpolateSegment M sw this startKey endKey frameDelta gradient state'.
Proof.
  intros Hsc Hres Hs He. unfold shortCircuits in Hsc.
  unfold Animation._interpolate. rewrite Hsc, Hres.
  pose proof (lookup_lt_Some _ _ _ He) as Hlen.
  destruct (Z.ltb_spec (Z.of_nat k) 0); [lia|].
  destruct (Z.gtb_spec (Z.of_nat k + 1) (Z.of_nat (length (Animation._keys this)) - 1));
    [lia|].
  replace (Z.of_nat k + 1) with (Z.of_nat (S k)) by lia.
  by rewrite !lookupZ_of_nat, Hs, He.
Qed.

(** The cursor [evaluate] builds is one [_interpolate] accepts on a track
    with a key. *)
Lemma evaluate_cursor this :
  Animation._keys this <> [] ->
  cursorInRange (Animation._keys this)
    (_IAnimationState.mk 0 0%float None (Some Animation.ANIMATIONLOOPMODE_CONSTANT)
       None None).
Proof.
intros Hne. unfold cursorInRange. simpl. destruct (Animation._keys this); [done|simpl; lia].
Qed.

(** C2 (amended).  On a track whose frames never decrease, for a segment
    whose left key carries the STEP flag: every frame from the left key's frame
    up to the right key's frame, excluded, evaluates to the left key's value.
    A frame at or after the right key's frame evaluates to the right key's
    value when the right key is the last key of the track (the boundary
    policy).  When another key follows, such a frame is resolved to a later
    segment: up to the next key's frame it is evaluated on the segment that
    starts at the right key, which holds the right key's value only when that
    key is a STEP key itself, and interpolates otherwise. *)
Theorem step_hold this f state (k : nat) startKey endKey :
  Animation._keys this !! k = Some startKey ->
  Animation._keys this !! S k = Some endKey ->
  isStep startKey = true ->
  nondecreasing (Animation._keys this) = true ->
  cursorInRange (Animation._keys this) state ->
  shortCircuits state = false ->
  (le (IAnimationKey.frame startKey) f = true ->
   lt f (IAnimationKey.frame endKey) = true ->
   fst (Animation._interpolate M sw this f state) = Returns (IAnimationKey.value startKey)
   /\ Animation.evaluate M sw this f = Returns (IAnimationKey.value startKey))
  /\ (last (Animation._keys this) = Some endKey ->
      ge f (IAnimationKey.frame endKey) = true ->
      fst (Animation._interpolate M sw this f state) = Returns (IAnimationKey.value endKey)
      /\ Animation.evaluate M sw this f = Returns (IAnimationKey.value endKey))
  /\ (forall nextKey,
        Animation._keys this !! S (S k) = Some nextKey ->
        le (IAnimationKey.frame endKey) f = true ->
        lt f (IAnimationKey.frame nextKey) = true ->
        fst (Animation._interpolate M sw this f state)
        = if isStep endKey then Returns (IAnimationKey.value endKey)
          else
            let frameDelta :=
              (IAnimationKey.frame nextKey - IAnimationKey.frame endKey)%float in
            let gradient := ((f - IAnimationKey.frame endKey) / frameDelta)%float in
            let gradient :=
              match Animation.getEasingFunction this with
              | Some ease => ease gradient
              | None => gradient
              end in
            fst (Animation.interpolateSegment M sw this endKey nextKey frameDelta gradient
                   (_IAnimationState.set_key (Z.of_nat (S k)) state))).
Proof.
intros Hs He Hstep Hsorted Hcur Hsc.
assert (Hcur0 : cursorInRange (Animation._keys this)
                  (_IAnimationState.mk 0 0%float None
                     (Some Animation.ANIMATIONLOOPMODE_CONSTANT) None None)).
{ apply evaluate_cursor. intros Hnil. by rewrite Hnil in Hs. }
assert (Hheld : forall state', cursorInRange (Animation._keys this) state' ->
          shortCircuits state' = false ->
          le (IAnimationKey.frame startKey) f = true ->
          lt f (IAnimationKey.frame endKey) = true ->
          fst (Animation._interpolate M sw this f state')
          = Returns (IAnimationKey.value startKey)).
{ intros state' Hcur' Hsc' Hle Hlt.
  rewrite (_interpolate_resolved this f state' k startKey endKey); try done.
  - simpl. rewrite Hstep. unfold gt. unfold lt in Hlt. by rewrite Hlt.
  - by eapply resolveKey_segment. }
split; [|split].
- intros Hle Hlt. split; [by apply Hheld|]. unfold Animation.evaluate. by apply Hheld.
- intros Hlast Hge. unfold Animation.evaluate.
  by rewrite !(_interpolate_after_last M sw this f _ endKey).
- intros nextKey Hn Hle Hlt.
  rewrite (_interpolate_resolved this f state (S k) endKey nextKey); try done.
  + cbv zeta. destruct (isStep endKey); [|done].
    unfold gt. unfold lt in Hlt. by rewrite Hlt.
  + by eapply resolveKey_segment.
Qed.

End Segment.

(** C2, witness: a STEP key at frame 0 with value 1 followed by a key at
    frame 10 with value 2; [evaluate(9)] is 1 and [evaluate(10)] is 2. *)
Lemma step_hold_witness :
  Animation.evaluate ReferenceMaths.instance ReferenceMaths.switches
    Examples.stepThenKey 9%float = Returns (VNumber 1%float)
  /\ Animation.evaluate ReferenceMaths.instance ReferenceMaths.switches
    Examples.stepThenKey 10%float = Returns (VNumber 2%float).
Proof.
split.
- apply (proj1 (step_hold ReferenceMaths.instance ReferenceMaths.switches
           Examples.stepThenKey 9%float Examples.evaluateCursor 0
           (Examples.stepKey 0 1) (Examples.floatKey 10 2)
           eq_refl eq_refl eq_refl eq_refl
           ltac:(unfold cursorInRange; simpl; lia) eq_refl)); reflexivity.
- apply (proj1 (proj2 (step_hold ReferenceMaths.instance ReferenceMaths.switches
           Examples.stepThenKey 10%float Examples.evaluateCursor 0
           (Examples.stepKey 0 1) (Examples.floatKey 10 2)
           eq_refl eq_refl eq_refl eq_refl
           ltac:(unfold cursorInRange; simpl; lia) eq_refl))); reflexivity.
Defined.

(** C2 as stated fails after the right key's frame when another key
    follows.  With a STEP key (0, 1) followed by the keys (10, 2) and (20, 4),
    frame 15 is at or after the right key's frame of the STEP segment, and
    [evaluate(15)] is 3, the interpolation of the next segment, not the right
    key's value 2. *)
Lemma step_hold_counterexample :
  Animation._keys Examples.stepThenTwoKeys !! 0%nat = Some (Examples.stepKey 0 1)
  /\ Animation._keys Examples.stepThenTwoKeys !! 1%nat = Some (Examples.floatKey 10 2)
  /\ isStep (Examples.stepKey 0 1) = true
  /\ JsNumber.ge 15%float (IAnimationKey.frame (Examples.floatKey 10 2)) = true
  /\ Animation.evaluate ReferenceMaths.instance ReferenceMaths.switches
       Examples.stepThenTwoKeys 15%float = Returns (VNumber 3%float)
  /\ Animation.evaluate ReferenceMaths.instance ReferenceMaths.switches
       Examples.stepThenTwoKeys 15%float
     <> Returns (IAnimationKey.value (Examples.floatKey 10 2)).
Proof.
repeat split; try reflexivity. by apply Returns_VNumber_neq.
Qed.

(** ** The RELATIVE loop mode *)

Lemma Returns_inj {A} (a b : A) : Returns a = Returns b -> a = b.
Proof.
intros H. exact (f_equal (fun o => match o with Returns x => x | Throws _ => a end) H).
Qed.

Section Relative.
Import JsNumber JsNumberFacts.
Context (M : Maths.t) (sw : Switches).
Implicit Types (this : Animation.t) (f : number) (state : _IAnimationState.t).

Lemma shortCircuits_not_constant state (m : Z) :
  _IAnimationState.loopMode state = Some m ->
  m <> Animation.ANIMATIONLOOPMODE_CONSTANT ->
  shortCircuits state = false.
Proof.
intros Hm Hne. unfold shortCircuits, Animation.isLoopMode. rewrite Hm.
destruct (Z.eqb_spec m Animation.ANIMATIONLOOPMODE_CONSTANT); done.
Qed.

(** On one segment: the RELATIVE result is the CYCLE result plus the scaled
    offset, for the seven data types that are summed. *)
Lemma interpolateSegment_relative this startKey endKey (frameDelta gradient : number)
    state off v :
  _IAnimationState.loopMode state = Some Animation.ANIMATIONLOOPMODE_RELATIVE ->
  _IAnimationState.offsetValue state = Some off ->
  In (Animation.dataType this) summedTypes ->
  fst (Animation.interpolateSegment M sw this startKey endKey frameDelta gradient
         (_IAnimationState.set_loopMode (Some Animation.ANIMATIONLOOPMODE_CYCLE) state))
    = Returns v ->
  fst (Animation.interpolateSegment M sw this startKey endKey frameDelta gradient state)
    = addScaledOffset M v off (_IAnimationState.repeatCount state).
Proof.
intros Hmode Hoff Hdt. unfold Animation.interpolateSegment, Animation.loopSwitch.
destruct state as [key rc wv lm ov hl]. simpl in Hmode, Hoff. subst lm ov.
unfold summedTypes in Hdt. simpl in Hdt.
destruct Hdt as [<-|[<-|[<-|[<-|[<-|[<-|[<-|[]]]]]]]]; simpl;
  destruct (IAnimationKey.value startKey), (IAnimationKey.value endKey);
  simpl; try discriminate;
  destruct (IAnimationKey.outTangent startKey) as [[]|],
           (IAnimationKey.inTangent endKey) as [[]|];
  simpl; try discriminate;
  intros <-%Returns_inj; destruct off; reflexivity.
Qed.

Lemma interpolateSegment_relative_matrix this startKey endKey
    (frameDelta gradient : number) state :
  _IAnimationState.loopMode state = Some Animation.ANIMATIONLOOPMODE_RELATIVE ->
  Animation.dataType this = Animation.ANIMATIONTYPE_MATRIX ->
  fst (Animation.interpolateSegment M sw this startKey endKey frameDelta gradient state)
    = Returns (IAnimationKey.value startKey).
Proof.
intros Hmode Hdt. unfold Animation.interpolateSegment. rewrite Hdt, Hmode. reflexivity.
Qed.

End Relative.

Section RelativeOffset.
Import JsNumber JsNumberFacts.
Context (M : Maths.t) (sw : Switches).

(** C3 (amended).  Under loop mode RELATIVE, for a cursor whose offsetValue
    is set and a frame inside the span of a segment whose left key is not a
    STEP key: float, vector2, vector3, color3, color4, size and quaternion
    results equal the interpolated value (what the same call returns under
    CYCLE) plus offsetValue scaled by repeatCount, the quaternion sum being
    the component-wise one of [addInPlace]; a matrix result is the raw start
    key value. *)
Theorem relative_offset (this : Animation.t) (f : number) (state : _IAnimationState.t)
    (k : nat) (startKey endKey : IAnimationKey.t) (off : Value) :
  nondecreasing (Animation._keys this) = true ->
  cursorInRange (Animation._keys this) state ->
  Animation._keys this !! k = Some startKey ->
  Animation._keys this !! S k = Some endKey ->
  le (IAnimationKey.frame startKey) f = true ->
  lt f (IAnimationKey.frame endKey) = true ->
  isStep startKey = false ->
  _IAnimationState.loopMode state = Some Animation.ANIMATIONLOOPMODE_RELATIVE ->
  _IAnimationState.offsetValue state = Some off ->
  (forall v,
      In (Animation.dataType this) summedTypes ->
      fst (Animation._interpolate M sw this f
             (_IAnimationState.set_loopMode (Some Animation.ANIMATIONLOOPMODE_CYCLE) state))
        = Returns v ->
      fst (Animation._interpolate M sw this f state)
        = addScaledOffset M v off (_IAnimationState.repeatCount state))
  /\ (Animation.dataType this = Animation.ANIMATIONTYPE_MATRIX ->
      fst (Animation._interpolate M sw this f state)
        = Returns (IAnimationKey.value startKey)).
Proof.
intros Hsorted Hcur Hs He Hle Hlt Hstep Hmode Hoff.
assert (Hres : forall st, _IAnimationState.key st = _IAnimationState.key state ->
          Animation.resolveKey (Animation._keys this) f (_IAnimationState.key st)
          = Returns (Z.of_nat k)).
{ intros st ->. by eapply resolveKey_segment. }
rewrite (_interpolate_resolved M sw this f state k startKey endKey);
  [|by eapply shortCircuits_not_constant|by apply Hres|done|done].
split.
- intros v Hdt.
  rewrite (_interpolate_resolved M sw this f _ k startKey endKey);
    [|by eapply shortCircuits_not_constant|by apply Hres|done|done].
  cbv zeta. rewrite Hstep.
  apply (interpolateSegment_relative M sw this startKey endKey _ _
           (_IAnimationState.set_key (Z.of_nat k) state) off v); done.
- intros Hdt. cbv zeta. rewrite Hstep.
  by apply interpolateSegment_relative_matrix.
Qed.

End RelativeOffset.

(** C3, witness: the float track (0, 1), (10, 2) at frame 5 under a RELATIVE
    cursor with offsetValue 5 and repeatCount 1: 1.5 under CYCLE, 6.5 here. *)
Lemma relative_offset_witness :
  fst (Animation._interpolate ReferenceMaths.instance ReferenceMaths.switches
         Examples.twoKeys 5%float Examples.relativeCursor)
  = Returns (VNumber 6.5%float).
Proof.
apply (proj1 (relative_offset ReferenceMaths.instance ReferenceMaths.switches
         Examples.twoKeys 5%float Examples.relativeCursor 0
         (Examples.floatKey 0 1) (Examples.floatKey 10 2) (VNumber 5%float)
         eq_refl ltac:(unfold cursorInRange; simpl; lia)
         eq_refl eq_refl eq_refl eq_refl eq_refl eq_refl eq_refl)
       (VNumber 1.5%float) ltac:(simpl; tauto) eq_refl).
Defined.

Lemma Returns_VQuaternion_neq (a b : Quaternion) :
  JsNumber.strictEq (q_w a) (q_w b) = false -> JsNumber.isNaN (q_w a) = false ->
  Returns (VQuaternion a) <> Returns (VQuaternion b).
Proof.
intros H1 H2 H. apply (number_neq _ _ H1 H2).
exact (f_equal (fun o => match o with Returns (VQuaternion q) => q_w q | _ => q_w a end) H).
Qed.

(** C3 as stated fails for quaternions: the scaled offset is added, not
    multiplied in.  On the track that holds the identity rotation, with the
    identity as offsetValue and repeatCount 1, the interpolated value at
    frame 5 is the identity and the RELATIVE result has w = 2, which is
    neither product of the two quaternions (w = 1). *)
Lemma relative_offset_counterexample :
  fst (Animation._interpolate ReferenceMaths.instance ReferenceMaths.switches
         Examples.quaternionTrack 5%float
         (_IAnimationState.set_loopMode (Some Animation.ANIMATIONLOOPMODE_CYCLE)
            Examples.relativeQuaternionCursor))
    = Returns (VQuaternion Examples.identityQuaternion)
  /\ fst (Animation._interpolate ReferenceMaths.instance ReferenceMaths.switches
            Examples.quaternionTrack 5%float Examples.relativeQuaternionCursor)
     = Returns (VQuaternion (MkQuaternion 0 0 0 2))
  /\ fst (Animation._interpolate ReferenceMaths.instance ReferenceMaths.switches
            Examples.quaternionTrack 5%float Examples.relativeQuaternionCursor)
     <> Returns (VQuaternion (composeScaledOffset ReferenceMaths.instance
                                Examples.identityQuaternion Examples.identityQuaternion 1%float))
  /\ fst (Animation._interpolate ReferenceMaths.instance ReferenceMaths.switches
            Examples.quaternionTrack 5%float Examples.relativeQuaternionCursor)
     <> Returns (VQuaternion (composeScaledOffsetLeft ReferenceMaths.instance
                                Examples.identityQuaternion Examples.identityQuaternion 1%float)).
Proof.
repeat split; try reflexivity; by apply Returns_VQuaternion_neq.
Qed.

(** ** Cursor isolation *)

Section CursorIsolation.
Context (M : Maths.t) (sw : Switches).
Implicit Types (this : Animation.t) (f : number) (h : Playback.heap).

(** The evaluator reads the keys, the data type and the easing function of
    the track, nothing else of it. *)
Lemma _interpolate_ext this1 this2 f state :
  Animation._keys this1 = Animation._keys this2 ->
  Animation._easingFunction this1 = Animation._easingFunction this2 ->
  Animation.dataType this1 = Animation.dataType this2 ->
  Animation._interpolate M sw this1 f state = Animation._interpolate M sw this2 f state.
Proof.
destruct this1, this2. simpl. intros -> -> ->. reflexivity.
Qed.

(** A call writes the cursor it is given and the work matrix of that
    cursor, nothing else. *)
Lemma call_frame this f h (c : Playback.loc) r h' :
  Playback._interpolate M sw this f c h = Some (r, h') ->
  forall l, l <> c -> Playback.workOf h c <> Some l -> h' !! l = h !! l.
Proof.
unfold Playback._interpolate, Playback.workOf.
destruct (h !! c) as [[cur|m]|] eqn:Hc; [|done..].
destruct (Animation._interpolate M sw this f (Playback.read cur)) as [result state].
intros Hcall l Hl Hw.
destruct (Playback.workValue cur) as [w|].
- destruct (_IAnimationState.workValue state) as [[]|];
    try (injection Hcall as _ <-; by rewrite lookup_insert_ne).
  destruct (h !! w) as [[|]|]; injection Hcall as _ <-;
    repeat (rewrite lookup_insert_ne by congruence); done.
- injection Hcall as _ <-. by rewrite lookup_insert_ne.
Qed.

(** A call leaves every cursor the work matrix it refers to. *)
Lemma call_workOf this f h (c : Playback.loc) r h' :
  Playback._interpolate M sw this f c h = Some (r, h') ->
  forall l, Playback.workOf h' l = Playback.workOf h l.
Proof.
unfold Playback._interpolate.
destruct (h !! c) as [[cur|m]|] eqn:Hc; [|done..].
destruct (Animation._interpolate M sw this f (Playback.read cur)) as [result state].
set (h1 := <[c := _]> h).
assert (H1 : forall l, Playback.workOf h1 l = Playback.workOf h l).
{ intros l. unfold Playback.workOf, h1. destruct (decide (l = c)) as [->|Hl].
  - by rewrite lookup_insert_eq, Hc.
  - by rewrite lookup_insert_ne. }
intros Hcall l.
destruct (Playback.workValue cur) as [w|]; [|by injection Hcall as _ <-].
destruct (_IAnimationState.workValue state) as [[]|];
  try by injection Hcall as _ <-.
destruct (h !! w) as [[|m0]|] eqn:Hw; try by injection Hcall as _ <-.
injection Hcall as _ <-. rewrite <- H1.
unfold Playback.workOf. destruct (decide (l = w)) as [->|Hl].
- rewrite lookup_insert_eq. unfold h1.
  rewrite lookup_insert_ne by (intros ->; congruence). by rewrite Hw.
- by rewrite lookup_insert_ne.
Qed.

Lemma replay_cons this (c : Playback.loc) f (calls : list (Playback.loc * number)) h :
  Playback.replay M sw this ((c, f) :: calls) h
  = Playback.replay M sw this calls
      match Playback._interpolate M sw this f c h with
      | Some (_, h') => h'
      | None => h
      end.
Proof. reflexivity. Qed.

(** The calls made with cursors apart from [c1] leave [c1] and its work
    matrix as they were. *)
Lemma replay_frame this (calls : list (Playback.loc * number)) h (c1 : Playback.loc) :
  Forall (fun call => Playback.apart h c1 (fst call)) calls ->
  Playback.replay M sw this calls h !! c1 = h !! c1
  /\ (forall w, Playback.workOf h c1 = Some w ->
        Playback.replay M sw this calls h !! w = h !! w).
Proof.
revert h. induction calls as [|[c f] calls IH]; intros h Hall; [done|].
apply Forall_cons in Hall as [Hc Hall]. simpl in Hc. rewrite replay_cons.
destruct (Playback._interpolate M sw this f c h) as [[r h']|] eqn:E; [|by apply IH].
destruct Hc as (Hne & H1c & Hc1 & Hshare).
assert (Hw : forall l, Playback.workOf h' l = Playback.workOf h l)
  by (by eapply call_workOf).
destruct (IH h') as [IH1 IH2].
{ eapply Forall_impl; [exact Hall|]. intros call. unfold Playback.apart.
  by rewrite !Hw. }
split.
- rewrite IH1. by eapply call_frame.
- intros w Hw1. rewrite IH2 by (by rewrite Hw).
  eapply call_frame; [exact E| |].
  + intros ->. by apply H1c.
  + intros Hcw. by apply (Hshare w).
Qed.

(** What a call returns and what it leaves in its cursor and in the work
    matrix of that cursor are read off the cursor, the contents of its
    work matrix, the frame, and the keys, the easing function and the data
    type of the track. *)
Lemma call_ext this1 this2 f h1 h2 (c : Playback.loc) :
  Animation._keys this1 = Animation._keys this2 ->
  Animation._easingFunction this1 = Animation._easingFunction this2 ->
  Animation.dataType this1 = Animation.dataType this2 ->
  h1 !! c = h2 !! c ->
  (forall w, Playback.workOf h1 c = Some w -> h1 !! w = h2 !! w) ->
  match Playback._interpolate M sw this1 f c h1, Playback._interpolate M sw this2 f c h2 with
  | Some (r1, h1'), Some (r2, h2') =>
      r1 = r2 /\ h1' !! c = h2' !! c
      /\ (forall w, Playback.workOf h1 c = Some w -> h1' !! w = h2' !! w)
  | None, None => True
  | _, _ => False
  end.
Proof.
intros Hkeys Hease Hdt Hc Hwork.
unfold Playback._interpolate, Playback.workOf in *. rewrite <- Hc.
destruct (h1 !! c) as [[cur|m]|] eqn:Hc1; [|done..].
rewrite (_interpolate_ext this1 this2 f _ Hkeys Hease Hdt).
destruct (Animation._interpolate M sw this2 f (Playback.read cur)) as [result state].
destruct (Playback.workValue cur) as [w|] eqn:Hcw.
- assert (Plain : forall r : outcome Playback.returned,
            r = r
            /\ <[c := Playback.OCursor
                        (Playback.set_key (_IAnimationState.key state) cur)]> h1 !! c
               = <[c := Playback.OCursor
                          (Playback.set_key (_IAnimationState.key state) cur)]> h2 !! c
            /\ (forall w0, Some w = Some w0 ->
                  <[c := Playback.OCursor
                           (Playback.set_key (_IAnimationState.key state) cur)]> h1 !! w0
                  = <[c := Playback.OCursor
                             (Playback.set_key (_IAnimationState.key state) cur)]> h2 !! w0)).
  { intros r. split; [done|]. split; [by rewrite !lookup_insert_eq|].
    intros w0 Hw0. destruct (decide (w0 = c)) as [->|Hne].
    - by rewrite !lookup_insert_eq.
    - rewrite !lookup_insert_ne by done. by apply Hwork. }
  destruct (_IAnimationState.workValue state) as [[]|]; try apply Plain.
  rewrite <- (Hwork w eq_refl).
  destruct (h1 !! w) as [[|m0]|] eqn:Hw; try apply (Plain (Throws IllTyped)).
  assert (Hwc : w <> c) by congruence.
  split; [done|]. split.
  + rewrite !(lookup_insert_ne _ w) by done. by rewrite !lookup_insert_eq.
  + intros w0 [= <-]. by rewrite !lookup_insert_eq.
- split; [done|]. split; [by rewrite !lookup_insert_eq|]. done.
Qed.


End CursorIsolation.


Lemma Some_OMatrix_neq (x y : number) :
  JsNumber.strictEq x y = false -> JsNumber.isNaN x = false ->
  Some (Playback.OMatrix (Examples.constantMatrix x))
  <> Some (Playback.OMatrix (Examples.constantMatrix y)).
Proof.
intros H1 H2 H. apply (number_neq x y H1 H2).
exact (f_equal (fun o => match o with
                         | Some (Playback.OMatrix m) => nth 0 (m_entries m) x
                         | _ => x
                         end) H).
Qed.

Lemma Returns_Fresh_VNumber_neq (x y : number) :
  JsNumber.strictEq x y = false -> JsNumber.isNaN x = false ->
  Some (Returns (Playback.Fresh (VNumber x))) <> Some (Returns (Playback.Fresh (VNumber y))).
Proof.
intros H1 H2 H. apply (number_neq x y H1 H2).
exact (f_equal (fun o => match o with
                         | Some (Returns (Playback.Fresh (VNumber n))) => n
                         | _ => x
                         end) H).
Qed.


(** ** Ranges *)

Section DeleteRange.
Import JsNumber JsNumberFacts.

Lemma splice_remove_take {A} (l : list A) (i : nat) :
  take i (splice_remove l i) = take i l.
Proof.
unfold splice_remove. destruct (decide (i <= length l)%nat).
- rewrite take_app_le by (rewrite length_take; lia).
  rewrite take_take. f_equal. lia.
- rewrite (drop_ge l (S i)), app_nil_r by lia. by rewrite take_take, Nat.min_id.
Qed.

Lemma splice_remove_drop {A} (l : list A) (i : nat) :
  (i <= length l)%nat -> drop i (splice_remove l i) = drop (S i) l.
Proof.
intros Hi. unfold splice_remove.
rewrite drop_app_ge by (rewrite length_take; lia).
rewrite length_take, Nat.min_l, Nat.sub_diag by lia. done.
Qed.

Lemma splice_remove_length {A} (l : list A) (i : nat) :
  (i < length l)%nat -> length (splice_remove l i) = pred (length l).
Proof.
intros Hi. unfold splice_remove. rewrite length_app, length_take, length_drop. lia.
Qed.

(** The loop keeps, among the first [n] keys, those outside the interval,
    in their order, and leaves the keys after them. *)
Lemma deleteRangeLoop_filter (range : AnimationRange.t) (n : nat)
    (keys : list IAnimationKey.t) :
  (n <= length keys)%nat ->
  Animation.deleteRangeLoop (AnimationRange.from range) (AnimationRange.to range) n keys
  = List.filter (fun k => negb (inRange range k)) (take n keys) ++ drop n keys.
Proof.
revert keys. induction n as [|n IH]; intros keys Hn.
- by rewrite take_0, drop_0.
- simpl. destruct (lookup_lt_is_Some_2 keys n ltac:(lia)) as [k Hk]. rewrite Hk.
  rewrite (take_S_r _ _ _ Hk), List.filter_app. simpl.
  fold (inRange range k). destruct (inRange range k); simpl.
  + rewrite IH by (rewrite splice_remove_length; lia).
    rewrite splice_remove_take, splice_remove_drop by lia. by rewrite app_nil_r.
  + rewrite IH by lia. rewrite <- app_assoc. simpl. by rewrite (drop_S _ _ _ Hk).
Qed.


End DeleteRange.


(** ** Events *)

Section Sorting.
Import JsNumber JsNumberFacts.
Context {A : Type} (comparefn : A -> A -> number).

Lemma insert_Permutation (x : A) (acc : list A) :
  ArraySort.insert comparefn x acc ≡ₚ x :: acc.
Proof.
induction acc as [|y rest IH]; simpl; [done|].
destruct (ArraySort.before comparefn x y); [done|].
rewrite IH. apply Permutation_swap.
Qed.

Lemma insert_fold_Permutation (l acc : list A) :
  fold_left (fun sorted x => ArraySort.insert comparefn x sorted) l acc ≡ₚ acc ++ l.
Proof.
revert acc. induction l as [|x l IH]; intros acc; simpl.
- by rewrite app_nil_r.
- rewrite IH, insert_Permutation. simpl. apply Permutation_middle.
Qed.

Lemma stable_Permutation (l : list A) : ArraySort.stable comparefn l ≡ₚ l.
Proof. unfold ArraySort.stable. by rewrite insert_fold_Permutation. Qed.

End Sorting.

(** The stable sort is a sort the standard allows. *)
Lemma reference_conforms : ArraySort.conforms ArraySort.reference.
Proof. intros A comparefn l. split; [apply stable_Permutation|done]. Qed.

Section Events.
Import JsNumber JsNumberFacts JsSubtractionFacts.
Implicit Types (events acc : list AnimationEvent.t) (e x y : AnimationEvent.t).

Lemma isFinite_notNaN (a : number) : isFinite a = true -> isNaN a = false.
Proof.
unfold isFinite, is_finite, isNaN, is_nan.
by intros [H _]%negb_true_iff%orb_false_iff.
Qed.

Lemma finiteFrames_In L e : finiteFrames L = true -> In e L ->
  isFinite (AnimationEvent.frame e) = true.
Proof. unfold finiteFrames. rewrite forallb_forall. auto. Qed.

Lemma finiteFrames_agreeOn L : finiteFrames L = true -> agreeOn L.
Proof.
intros HL a b Ha Hb.
pose proof (finiteFrames_In L a HL Ha) as Hfa.
pose proof (finiteFrames_In L b HL Hb) as Hfb.
split; [by apply isFinite_notNaN|].
unfold Animation.frameComparator. by destruct (sub_sign _ _ Hfa Hfb) as (_ & -> & _).
Qed.

(** A number that is neither [NaN], nor negative, nor positive is a zero. *)
Lemma zero_cmp (v : number) :
  isNaN v = false ->
  strictEq v 0%float = negb (lt v 0%float) && negb (gt v 0%float).
Proof.
intros Hv. destruct (cmp_defined v 0%float Hv eq_refl) as [c E].
unfold gt. rewrite strictEq_cmp, !lt_cmp, E, (cmp_antisym _ _ _ E). by destruct c.
Qed.

(** On finite frames the comparator of [addEvent] is a consistent one. *)
Lemma frameComparator_consistent L :
  finiteFrames L = true -> ArraySort.consistent Animation.frameComparator L.
Proof.
intros HL a b c Ha Hb Hc.
pose proof (finiteFrames_In L a HL Ha) as Hfa.
pose proof (finiteFrames_In L b HL Hb) as Hfb.
pose proof (finiteFrames_In L c HL Hc) as Hfc.
pose proof (isFinite_notNaN _ Hfa) as Hna.
pose proof (isFinite_notNaN _ Hfb) as Hnb.
pose proof (isFinite_notNaN _ Hfc) as Hnc.
set (fa := AnimationEvent.frame a) in *. set (fb := AnimationEvent.frame b) in *.
set (fc := AnimationEvent.frame c) in *.
assert (Hsame : forall u v, isFinite u = true -> isFinite v = true ->
          strictEq (u - v)%float 0%float = le u v && le v u).
{ intros u v Hu Hv. destruct (sub_sign u v Hu Hv) as (Hn & Hlt & Hgt).
  rewrite (zero_cmp _ Hn), Hlt, Hgt. unfold gt.
  pose proof (isFinite_notNaN _ Hu) as Hnu. pose proof (isFinite_notNaN _ Hv) as Hnv.
  destruct (cmp_defined u v Hnu Hnv) as [k E].
  rewrite !lt_cmp, !le_cmp, E, (cmp_antisym _ _ _ E). by destruct k. }
unfold ArraySort.same, ArraySort.before, ArraySort.after, Animation.frameComparator.
fold fa fb fc. rewrite !Hsame by done.
destruct (sub_sign fa fb Hfa Hfb) as (Hn1 & Hlt1 & Hgt1).
destruct (sub_sign fb fc Hfb Hfc) as (_ & Hlt2 & Hgt2).
destruct (sub_sign fa fc Hfa Hfc) as (_ & Hlt3 & Hgt3).
rewrite Hlt1, Hlt2, Hlt3, Hgt1, Hgt2, Hgt3. unfold gt.
split; [done|]. split; [by rewrite le_refl_notNaN|].
split; [by rewrite andb_comm|]. split; [|split].
- intros [H1 H2]%andb_true_iff [H3 H4]%andb_true_iff. apply andb_true_iff.
  split; by eapply le_trans.
- intros H1 H2. eapply lt_le_trans; [exact H1|by apply lt_le].
- intros H1 H2. eapply lt_le_trans; [exact H2|by apply lt_le].
Qed.

Lemma removeEventsLoop_filter (frame : number) (n : nat) events (index : nat) :
  (index + n = length events)%nat ->
  Animation.removeEventsLoop frame n events index
  = take index events
    ++ List.filter (fun e => negb (sameFrame frame e)) (drop index events).
Proof.
revert events index. induction n as [|n IH]; intros events index Hn.
- simpl. by rewrite drop_ge, app_nil_r, take_ge by lia.
- simpl. destruct (lookup_lt_is_Some_2 events index ltac:(lia)) as [e He].
  rewrite He, (drop_S _ _ _ He). simpl. fold (sameFrame frame e).
  destruct (sameFrame frame e); simpl.
  + rewrite IH by (rewrite splice_remove_length; lia).
    by rewrite splice_remove_take, splice_remove_drop by lia.
  + rewrite IH by lia. rewrite (take_S_r _ _ _ He), <- app_assoc. done.
Qed.

Lemma sortedByFrame_cons e events :
  sortedByFrame (e :: events)
  = match events with
    | [] => true
    | e2 :: _ => le (AnimationEvent.frame e) (AnimationEvent.frame e2)
    end && sortedByFrame events.
Proof. destruct events; [done|reflexivity]. Qed.

Lemma sortedByFrame_head e events z :
  sortedByFrame (e :: events) = true -> In z events ->
  le (AnimationEvent.frame e) (AnimationEvent.frame z) = true.
Proof.
revert e. induction events as [|e2 rest IH]; intros e H Hz; [done|].
simpl in H. apply andb_true_iff in H as [H1 H2].
destruct Hz as [->|Hz]; [done|]. eapply le_trans; [exact H1|]. by apply IH.
Qed.

Lemma sortedByFrame_intro e events :
  (forall z, In z events -> le (AnimationEvent.frame e) (AnimationEvent.frame z) = true) ->
  sortedByFrame events = true -> sortedByFrame (e :: events) = true.
Proof.
intros Hall Hs. rewrite sortedByFrame_cons, Hs, andb_true_r.
destruct events as [|e2 rest]; [done|]. apply Hall. by left.
Qed.

Lemma sortedByFrame_filter (p : AnimationEvent.t -> bool) events :
  sortedByFrame events = true -> sortedByFrame (List.filter p events) = true.
Proof.
induction events as [|e rest IH]; intros Hs; [done|].
pose proof Hs as Hs'. rewrite sortedByFrame_cons in Hs'.
apply andb_true_iff in Hs' as [_ Hrest]. simpl. destruct (p e); [|by apply IH].
apply sortedByFrame_intro; [|by apply IH].
intros z [Hz _]%List.filter_In. by eapply sortedByFrame_head.
Qed.

Lemma sortInsert_In x acc z :
  In z (ArraySort.insert Animation.frameComparator x acc) <-> z = x \/ In z acc.
Proof.
induction acc as [|y rest IH]; simpl; [intuition congruence|].
destruct (ArraySort.before Animation.frameComparator x y); simpl; [intuition congruence|].
rewrite IH. intuition congruence.
Qed.

Lemma sortInsert_sorted L x acc :
  agreeOn L -> In x L -> (forall z, In z acc -> In z L) ->
  sortedByFrame acc = true ->
  sortedByFrame (ArraySort.insert Animation.frameComparator x acc) = true.
Proof.
intros HL Hx. induction acc as [|y rest IH]; intros Hacc Hs; [done|].
simpl. unfold ArraySort.before. destruct (HL x y Hx (Hacc y ltac:(by left))) as [Hnx Hxy].
destruct (HL y x (Hacc y ltac:(by left)) Hx) as [Hny _].
rewrite Hxy. destruct (lt (AnimationEvent.frame x) (AnimationEvent.frame y)) eqn:E.
- apply sortedByFrame_intro; [|done]. intros z [<-|Hz]; [by apply lt_le|].
  eapply le_trans; [by apply lt_le|]. by eapply sortedByFrame_head.
- pose proof Hs as Hs'. rewrite sortedByFrame_cons in Hs'.
  apply andb_true_iff in Hs' as [_ Hrest].
  apply sortedByFrame_intro; [|apply IH; [|done]].
  + intros z [->|Hz]%sortInsert_In.
    * by apply (not_lt_ge _ _ Hnx Hny).
    * by eapply sortedByFrame_head.
  + intros z Hz. apply Hacc. by right.
Qed.

(** Inserting [x] puts it after every event of its frame. *)
Lemma sortInsert_stable L x acc (f : number) :
  agreeOn L -> In x L -> (forall z, In z acc -> In z L) ->
  sortedByFrame acc = true ->
  List.filter (sameFrame f) (ArraySort.insert Animation.frameComparator x acc)
  = List.filter (sameFrame f) acc ++ (if sameFrame f x then [x] else []).
Proof.
intros HL Hx. induction acc as [|y rest IH]; intros Hacc Hs; [done|].
cbn [ArraySort.insert]. unfold ArraySort.before.
destruct (HL x y Hx (Hacc y ltac:(by left))) as [Hnx Hxy].
destruct (HL y x (Hacc y ltac:(by left)) Hx) as [Hny _].
rewrite Hxy. destruct (lt (AnimationEvent.frame x) (AnimationEvent.frame y)) eqn:E.
- destruct (sameFrame f x) eqn:Px.
  + assert (Hnone : forall z, In z (y :: rest) -> sameFrame f z = false).
    { intros z Hz. destruct (sameFrame f z) eqn:Pz; [|done].
      assert (Hyz : le (AnimationEvent.frame y) (AnimationEvent.frame z) = true).
      { destruct Hz as [<-|Hz]; [by apply le_refl_notNaN|by eapply sortedByFrame_head]. }
      unfold sameFrame in Px, Pz.
      assert (Hzx : le (AnimationEvent.frame z) (AnimationEvent.frame x) = true).
      { eapply le_trans; [by apply strictEq_le|].
        apply strictEq_le. by rewrite strictEq_sym. }
      pose proof (le_trans _ _ _ Hyz Hzx) as Hyx.
      pose proof (lt_not_ge _ _ E) as Hge. unfold ge in Hge. unfold le in Hyx.
      congruence. }
    assert (Hnil : List.filter (sameFrame f) (y :: rest) = []).
    { clear -Hnone. induction (y :: rest) as [|z l IHl]; [done|].
      simpl. rewrite (Hnone z) by (by left). apply IHl. intros ? ?. apply Hnone. by right. }
    cbn [List.filter]. cbn [List.filter] in Hnil. by rewrite Px, Hnil.
  + cbn [List.filter]. by rewrite Px, app_nil_r.
- pose proof Hs as Hs'. rewrite sortedByFrame_cons in Hs'.
  apply andb_true_iff in Hs' as [_ Hrest]. cbn [List.filter].
  rewrite IH; [|intros z Hz; apply Hacc; by right|done].
  by destruct (sameFrame f y).
Qed.

Lemma sort_spec L (l : list AnimationEvent.t) acc (f : number) :
  agreeOn L -> (forall z, In z (acc ++ l) -> In z L) ->
  sortedByFrame acc = true ->
  let result := fold_left (fun sorted x => ArraySort.insert Animation.frameComparator x sorted) l acc in
  sortedByFrame result = true
  /\ List.filter (sameFrame f) result
     = List.filter (sameFrame f) acc ++ List.filter (sameFrame f) l.
Proof.
intros HL. revert acc. induction l as [|x l IH]; intros acc Hin Hs; simpl.
- by rewrite !app_nil_r.
- assert (Hx : In x L) by (apply Hin, in_app_iff; right; by left).
  assert (Hacc : forall z, In z acc -> In z L).
  { intros z Hz. apply Hin, in_app_iff. by left. }
  destruct (IH (ArraySort.insert Animation.frameComparator x acc)) as (H1 & H3).
  + intros z [[->|Hz]%sortInsert_In|Hz]%in_app_iff; [done|by apply Hacc|].
    apply Hin, in_app_iff. right. by right.
  + by eapply sortInsert_sorted.
  + split; [done|].
    rewrite H3, (sortInsert_stable L) by done. rewrite <- app_assoc.
    by destruct (sameFrame f x).
Qed.

(** Two events one of which has a [NaN] frame are in ascending order of
    frame in neither order. *)
Lemma nan_frame_unsorted (l : list AnimationEvent.t) (a b : AnimationEvent.t) :
  isNaN (AnimationEvent.frame a) = true -> l ≡ₚ [a; b] -> sortedByFrame l = false.
Proof.
intros Hnan Hl.
assert (Hle : forall z, le (AnimationEvent.frame a) z = false /\ le z (AnimationEvent.frame a) = false).
{ intros z. split.
  - destruct (le (AnimationEvent.frame a) z) eqn:E; [|done].
    destruct (le_defined _ _ E). congruence.
  - destruct (le z (AnimationEvent.frame a)) eqn:E; [|done].
    destruct (le_defined _ _ E). congruence. }
symmetry in Hl. apply Permutation_length_2_inv in Hl as [-> | ->]; simpl.
- by rewrite (proj1 (Hle _)).
- by rewrite (proj2 (Hle _)).
Qed.

End Events.

Section EventRegistry.
Import JsNumber JsNumberFacts.
Context (sort : ArraySort.t).
Hypothesis sort_conforms : ArraySort.conforms sort.

Lemma addEvent_Permutation (this : Animation.t) (event : AnimationEvent.t) :
  Animation._events (Animation.addEvent sort this event)
  ≡ₚ Animation._events this ++ [event].
Proof using sort_conforms. apply sort_conforms. Qed.


End EventRegistry.



(** ** The additive converter *)

Section AdditiveConverter.
Import JsNumber JsNumberFacts.
Context (M : Maths.t) (sw : Switches).

Lemma clampReferenceFrame_negative (r : number) :
  lt r 0%float = true ->
  Objects.clampReferenceFrame r = Objects.clampReferenceFrame 0%float.
Proof.
intros Hr. unfold Objects.clampReferenceFrame. by rewrite (lt_not_ge _ _ Hr).
Qed.

(** C10.  A negative reference frame is clamped to 0 before the reference
    value is resolved: the call returns (or throws) what the call with
    reference frame 0 does, and leaves the same store. *)
Theorem negative_referenceFrame_is_zero (sourceAnimation : Objects.Animation)
    (r : number) (range : option string) (cloneOriginal : bool)
    (clonedName : option string) (s : Objects.store) :
  lt r 0%float = true ->
  Objects.MakeAnimationAdditive M sw sourceAnimation r range cloneOriginal clonedName s
  = Objects.MakeAnimationAdditive M sw sourceAnimation 0%float range cloneOriginal
      clonedName s.
Proof.
intros Hr. unfold Objects.MakeAnimationAdditive.
by rewrite (clampReferenceFrame_negative r Hr).
Qed.

(** The search loop does not run when the reference and both bookends are
    found before it. *)
Lemma findBookends_found (fuel : nat) (animation : Objects.Animation)
    (referenceFrame from to : number) (index : nat) (b : Objects.bookends)
    (s : Objects.store) (elems : list Objects.loc) :
  Objects.keysOf s animation = Returns elems ->
  Objects.referenceFound b = true -> Objects.fromKeyFound b = true ->
  Objects.toKeyFound b = true ->
  Objects.findBookends M sw fuel animation referenceFrame from to index b s
  = Some (Returns (b, s)).
Proof.
intros Hk H1 H2 H3.
destruct fuel; simpl; rewrite Hk; unfold Objects.searching;
  by rewrite H1, H2, H3.
Qed.

Lemma prepareReference_float (animation : Objects.Animation) (b : Objects.bookends)
    (s : Objects.store) :
  Objects.dataType animation = Animation.ANIMATIONTYPE_FLOAT ->
  Objects.prepareReference M animation b s = Returns (Objects.PreparedNone, s).
Proof. intros Hdt. unfold Objects.prepareReference. by rewrite Hdt. Qed.

Lemma subtractReference_float (animation : Objects.Animation) (b : Objects.bookends)
    (p : Objects.prepared) (l : Objects.loc) (k : Objects.Key.t) (s : Objects.store) :
  Objects.dataType animation = Animation.ANIMATIONTYPE_FLOAT ->
  Objects.subtractReference M animation b p l k s
  = Returns (Objects.put l
               (Objects.OKey
                  (Objects.Key.set_value
                     (Objects.RNumber
                        (Objects.minus (Objects.Key.value k) (Objects.referenceValue b))) k))
               s).
Proof. intros Hdt. unfold Objects.subtractReference. by rewrite Hdt. Qed.


End AdditiveConverter.


Lemma Some_RNumber_neq (x y : number) :
  JsNumber.strictEq x y = false -> JsNumber.isNaN x = false ->
  Some (Objects.RNumber x) <> Some (Objects.RNumber y).
Proof.
intros H1 H2 H. apply (number_neq x y H1 H2).
exact (f_equal (fun o => match o with Some (Objects.RNumber n) => n | _ => x end) H).
Qed.


(** C10, witness: the track (0, 1), (10, 2) made additive with reference
    frame -3, in place and on a clone. *)
Lemma negative_referenceFrame_witness :
  Objects.MakeAnimationAdditive ReferenceMaths.instance ReferenceMaths.switches
    Examples.twoKeyTrack (-3)%float None false None Examples.twoKeyStore
  = Objects.MakeAnimationAdditive ReferenceMaths.instance ReferenceMaths.switches
      Examples.twoKeyTrack 0%float None false None Examples.twoKeyStore
  /\ Objects.MakeAnimationAdditive ReferenceMaths.instance ReferenceMaths.switches
       Examples.twoKeyTrack (-3)%float (Some "walk") true (Some "copy") Examples.twoKeyStore
     = Objects.MakeAnimationAdditive ReferenceMaths.instance ReferenceMaths.switches
         Examples.twoKeyTrack 0%float (Some "walk") true (Some "copy") Examples.twoKeyStore.
Proof.
split; apply negative_referenceFrame_is_zero; reflexivity.
Defined.

(** ** Cloning *)

Section Clone.
Import Objects.

Lemma AnimationRange_clone_eq (r : AnimationRange.t) : AnimationRange.clone r = r.
Proof. by destruct r. Qed.

Lemma wf_fresh (s : store) (l : loc) : wf s -> (next s <= l)%nat -> get s l = None.
Proof.
intros Hwf Hl. destruct (get s l) as [o|] eqn:E; [|done].
apply Hwf in E. simpl in E. lia.
Qed.

Lemma get_alloc_old (o : object) (s : store) (l : loc) (x : object) :
  wf s -> get s l = Some x -> get (alloc o s).2 l = Some x.
Proof.
intros Hwf Hl. unfold alloc, get. simpl. rewrite lookup_insert_ne; [done|].
intros <-. by rewrite (wf_fresh s (next s)) in Hl.
Qed.

Lemma get_alloc_new (o : object) (s : store) : get (alloc o s).2 (alloc o s).1 = Some o.
Proof. unfold alloc, get. simpl. by rewrite lookup_insert_eq. Qed.

Lemma wf_alloc (o : object) (s : store) : wf s -> wf (alloc o s).2.
Proof.
intros Hwf l x. unfold alloc. simpl. intros [[<- <-]|[? Hl]]%lookup_insert_Some.
- lia.
- apply Hwf in Hl. simpl in Hl. lia.
Qed.

Lemma cloneRanges_spec (entries : list (string * option loc))
    (acc acc' : gmap string (option loc)) (s s' : store) :
  wf s -> cloneRanges entries acc s = Returns (acc', s') ->
  wf s' /\ (next s <= next s')%nat
  /\ (forall l o, get s l = Some o -> get s' l = Some o)
  /\ (forall name l', acc' !! name = Some (Some l') ->
        acc !! name = Some (Some l')
        \/ ((next s <= l')%nat
            /\ exists l r, (name, Some l) ∈ entries /\ get s' l = Some (ORange r)
                           /\ get s' l' = Some (ORange r)))
  /\ (forall name, acc' !! name = Some None -> acc !! name = Some None).
Proof.
revert acc s. induction entries as [|[name [l|]] rest IH]; intros acc s Hwf Hrun.
- simpl in Hrun. apply Returns_inj in Hrun. injection Hrun as <- <-.
  repeat split; auto.
- simpl in Hrun. destruct (get s l) as [[| |r|]|] eqn:El; try done.
  destruct (String.eqb name "__proto__"); [done|].
  pose (s1 := (alloc (ORange (AnimationRange.clone r)) s).2).
  assert (Hrun1 : cloneRanges rest (<[name := Some (next s)]> acc) s1
                  = Returns (acc', s')) by exact Hrun.
  assert (Hwf1 : wf s1) by (by apply wf_alloc).
  assert (Hn1 : next s1 = S (next s)) by done.
  destruct (IH _ _ Hwf1 Hrun1) as (Hwf' & Hnext & Hold & Hsome & Hnone).
  assert (Hold1 : forall l0 o, get s l0 = Some o -> get s1 l0 = Some o).
  { intros l0 o Hl0. by apply get_alloc_old. }
  split; [done|]. split; [lia|]. split; [by auto|]. split.
  + intros name' l' Hacc'. destruct (Hsome name' l' Hacc') as [Hin|(Hl' & l0 & r0 & Hin & ? & ?)].
    * apply lookup_insert_Some in Hin as [[<- [= <-]]|[_ Hin]]; [|by left].
      right. split; [lia|]. exists l, r. split; [by left|].
      split; [by apply Hold, Hold1|]. apply Hold.
      rewrite <- (AnimationRange_clone_eq r).
      apply (get_alloc_new (ORange (AnimationRange.clone r)) s).
    * right. split; [lia|]. exists l0, r0. split; [by right|]. done.
  + intros name' Hacc'. apply Hnone in Hacc'.
    apply lookup_insert_Some in Hacc' as [[_ [=]]|[_ ?]]. done.
- simpl in Hrun. destruct (IH _ _ Hwf Hrun) as (Hwf' & Hnext & Hold & Hsome & Hnone).
  split; [done|]. split; [done|]. split; [done|]. split; [|done].
  intros name' l' Hacc'. destruct (Hsome name' l' Hacc') as [Hin|(Hl' & l0 & r0 & Hin & ? & ?)].
  + by left.
  + right. split; [done|]. exists l0, r0. split; [by right|]. done.
Qed.

Lemma get_put_ne (l l' : loc) (o : object) (s : store) :
  l <> l' -> get (put l' o s) l = get s l.
Proof. intros Hne. unfold get, put. simpl. by rewrite lookup_insert_ne. Qed.

(** C5 (amended).  [clone()] changes no object of the source and gives the
    copy a key array and range objects of its own: the array is a new one
    that holds the same key references, each range a new object with the
    contents of the source's.  So a write to the array or to a range of the
    copy changes no object the source had, and a write to an object of the
    source changes neither the array nor a range of the copy.  (The key
    objects are not copied: the two arrays refer to the same ones.) *)
Theorem clone_independence (this c : Animation) (s s' : store) :
  wf s -> clone this s = Returns (c, s') ->
  (forall l o, get s l = Some o -> get s' l = Some o)
  /\ (forall arr, _keys this = Some arr ->
        exists arr' elems,
          _keys c = Some arr' /\ get s arr' = None
          /\ get s arr = Some (OArray elems) /\ get s' arr' = Some (OArray elems))
  /\ (forall name l', _ranges c !! name = Some (Some l') ->
        get s l' = None
        /\ exists l r, _ranges this !! name = Some (Some l)
                       /\ get s' l = Some (ORange r) /\ get s' l' = Some (ORange r))
  /\ (forall l' l o, ownsArrayOrRange c l' -> is_Some (get s l) ->
        get (put l' o s') l = get s l /\ get (put l o s') l' = get s' l').
Proof.
intros Hwf Hclone. unfold clone, newAnimation in Hclone. cbn [bind] in Hclone.
set (s0 := mkStore (objects s) (next s) (_UniqueIdGenerator s + 1)) in *.
assert (Hwf0 : wf s0) by exact Hwf.
assert (Hkeys : exists c1 s1,
          match _keys this with
          | Some values =>
              setKeys
                (mkAnimation (_UniqueIdGenerator s) (name this) (targetProperty this)
                   (framePerSecond this) (dataType this) (loopMode this)
                   (enableBlending this) (blendingSpeed this) None None [] ∅)
                values s0
          | None =>
              Returns
                (mkAnimation (_UniqueIdGenerator s) (name this) (targetProperty this)
                   (framePerSecond this) (dataType this) (loopMode this)
                   (enableBlending this) (blendingSpeed this) None None [] ∅, s0)
          end = Returns (c1, s1)).
{ simpl in Hclone. destruct (_keys this); [|by eauto].
  destruct (setKeys _ _ _) as [[c1 s1]|]; [by eauto|done]. }
destruct Hkeys as (c1 & s1 & Hkeys). simpl in Hclone. rewrite Hkeys in Hclone.
cbn [bind] in Hclone.
destruct (cloneRanges (map_to_list (_ranges this)) ∅ s1) as [[ranges s2]|] eqn:Hranges;
  [|done].
cbn [bind] in Hclone. apply Returns_inj in Hclone. injection Hclone as <- <-.
assert (Hs1 : wf s1 /\ (next s <= next s1)%nat
              /\ (forall l o, get s l = Some o -> get s1 l = Some o)
              /\ forall arr, _keys this = Some arr ->
                   exists elems, _keys c1 = Some (next s) /\ get s arr = Some (OArray elems)
                                 /\ get s1 (next s) = Some (OArray elems)).
{ destruct (_keys this) as [values|] eqn:Ek.
  - unfold setKeys in Hkeys.
    destruct (get s0 values) as [[|elems| |]|] eqn:Ev; try done.
    apply Returns_inj in Hkeys. injection Hkeys as <- <-.
    split; [by apply wf_alloc|]. split; [simpl; lia|]. split.
    + intros l o Hl. by apply (get_alloc_old (OArray elems) s0).
    + intros arr [= <-]. exists elems. split; [done|]. split; [done|].
      apply (get_alloc_new (OArray elems) s0).
  - apply Returns_inj in Hkeys. injection Hkeys as <- <-. by repeat split. }
destruct Hs1 as (Hwf1 & Hn1 & Hold1 & Harr).
destruct (cloneRanges_spec _ _ _ _ _ Hwf1 Hranges) as (Hwf2 & Hn2 & Hold2 & Hsome & Hnone).
assert (Hfresh : forall l', ownsArrayOrRange
                   (mkAnimation (uniqueId c1) (name c1) (targetProperty c1)
                      (framePerSecond c1) (dataType c1) (loopMode c1) (enableBlending c1)
                      (blendingSpeed c1) (_keys c1) (_easingFunction c1) (_events c1) ranges)
                   l' -> get s l' = None).
{ intros l' [Hl'|[name Hl']]; simpl in Hl'.
  - destruct (_keys this) as [values|] eqn:Ek.
    + destruct (Harr values eq_refl) as (elems & Hc1 & _). rewrite Hc1 in Hl'.
      injection Hl' as <-. by apply wf_fresh.
    + apply Returns_inj in Hkeys. injection Hkeys as <- <-. done.
  - destruct (Hsome name l' Hl') as [?|[Hge _]]; [done|]. apply wf_fresh; [done|lia]. }
split; [by auto|]. split; [|split].
- intros arr Harr'. destruct (Harr arr Harr') as (elems & Hc1 & Hsrc & Hnew).
  exists (next s), elems. simpl. split; [done|].
  split; [by apply wf_fresh|]. split; [done|]. by apply Hold2.
- intros name l' Hl'. simpl in Hl'. split; [apply Hfresh; right; by exists name|].
  destruct (Hsome name l' Hl') as [?|(_ & l & r & Hin & ? & ?)]; [done|].
  exists l, r. split; [|done]. by apply elem_of_map_to_list in Hin.
- intros l' l o Hown [x Hl]. pose proof (Hfresh l' Hown) as Hl'.
  assert (l <> l') by congruence.
  split.
  + rewrite get_put_ne by done. rewrite Hl. by apply Hold2, Hold1.
  + by rewrite get_put_ne.
Qed.

End Clone.

(** C5, witness: the clone of the track (0, 1), (10, 2) with the range
    "walk" has its array at 4 and its range at 5, both new; a write to the
    clone's array leaves the source's array as it was, and a write to the
    source's array leaves the clone's. *)
Lemma clone_independence_witness :
  Objects.clone Examples.twoKeyTrack Examples.twoKeyStore
  = Returns (Examples.clonedTrack, Examples.clonedStore)
  /\ forall o,
       Objects.get (Objects.put 4%nat o Examples.clonedStore) 2%nat
       = Objects.get Examples.twoKeyStore 2%nat
       /\ Objects.get (Objects.put 2%nat o Examples.clonedStore) 4%nat
          = Objects.get Examples.clonedStore 4%nat.
Proof.
assert (E : Objects.clone Examples.twoKeyTrack Examples.twoKeyStore
            = Returns (Examples.clonedTrack, Examples.clonedStore)).
{ vm_compute. reflexivity. }
assert (Hwf : Objects.wf Examples.twoKeyStore).
{ unfold Objects.wf. apply (bool_decide_unpack _). vm_compute. reflexivity. }
split; [exact E|]. intros o.
apply (proj2 (proj2 (proj2 (clone_independence Examples.twoKeyTrack Examples.clonedTrack
                               Examples.twoKeyStore Examples.clonedStore Hwf E)))).
- left. reflexivity.
- by eexists.
Defined.

(** C5 as stated fails for keys: [setKeys] copies the array, not the key
    objects.  After the clone of the track (0, 1), (10, 2), setting the frame
    of the clone's first key to 99 sets the frame of the source's first key. *)
Lemma clone_independence_counterexample :
  exists c s' l,
    Objects.clone Examples.twoKeyTrack Examples.twoKeyStore = Returns (c, s')
    /\ Objects.keyAt s' c 0 = Some l
    /\ Objects.keyFrameAt s' Examples.twoKeyTrack 0 = Some 0%float
    /\ Objects.keyFrameAt (Objects.writeKeyFrame l 99%float s') Examples.twoKeyTrack 0
       = Some 99%float.
Proof.
eexists _, _, _. split; [vm_compute; reflexivity|].
split; [vm_compute; reflexivity|]. split; vm_compute; reflexivity.
Qed.

(** ** Serialization *)

(** C6 fails on the code.  A float key with an out-tangent and the STEP flag
    but no in-tangent is serialized as [value, undefined, outTangent,
    undefined, STEP]: [serialize] pushes the placeholder of the in-tangent a
    second time, and [Parse] reads the flag at index 3.  The key comes back
    without its flag.  A quaternion key comes back without its tangents
    ([serialize] nests them as arrays, [Parse] expects them flat), and the
    STEP flag of a Color4 key comes back as a Color4 object. *)
Lemma roundTrip_loses_key_fields :
  (fmap Animation._keys
     match roundTrip 1 Examples.outTangentStepTrack with
     | Returns a => Some a | Throws _ => None end
   = Some [IAnimationKey.mk 0%float (VNumber 1%float) None (Some (VNumber 2%float)) None]
   /\ Animation._keys Examples.outTangentStepTrack
      = [IAnimationKey.mk 0%float (VNumber 1%float) None (Some (VNumber 2%float))
           (Some (InterpNumber STEP))])
  /\ (fmap Animation._keys
        match roundTrip 1 Examples.tangentQuaternionTrack with
        | Returns a => Some a | Throws _ => None end
      = Some [IAnimationKey.mk 0%float (VQuaternion Examples.identityQuaternion)
                None None None])
  /\ (fmap Animation._keys
        match roundTrip 1 Examples.stepColor4Track with
        | Returns a => Some a | Throws _ => None end
      = Some [IAnimationKey.mk 0%float (VColor4 (MkColor4 1 0 0 1)) None None
                (Some (InterpColor4FromArray STEP))]).
Proof. repeat split; vm_compute; reflexivity. Qed.

(** ** The search loop of the additive converter ends *)

Section AdditiveFuel.
Import Objects.
Context (M : Maths.t) (sw : Switches).

Lemma wf_put (l : loc) (o : object) (s : store) :
  wf s -> is_Some (get s l) -> wf (put l o s).
Proof.
intros Hwf [x Hl] l' o'. unfold put. simpl.
intros [[<- <-]|[? Hl']]%lookup_insert_Some.
- by apply Hwf in Hl.
- by apply Hwf in Hl'.
Qed.

Lemma keysOf_alloc (animation : Animation) (o : object) (s : store) elems :
  wf s -> keysOf s animation = Returns elems ->
  keysOf (alloc o s).2 animation = Returns elems.
Proof.
intros Hwf. unfold keysOf. destruct (_keys animation) as [arr|]; [|done].
destruct (get s arr) as [[]|] eqn:E; try done.
intros H. by rewrite (get_alloc_old o s arr _ Hwf E).
Qed.

Lemma cloneValue_keysOf (animation : Animation) (v v' : ref) (s s' : store) elems :
  wf s -> keysOf s animation = Returns elems -> cloneValue v s = (v', s') ->
  wf s' /\ keysOf s' animation = Returns elems.
Proof.
intros Hwf Hk. unfold cloneValue. destruct v as [n|l]; [by intros [= <- <-]|].
destruct (get s l) as [[k|e|r|m]|]; intros [= <- <-]; try done;
  (split; [by apply wf_alloc|by apply keysOf_alloc]).
Qed.

Lemma storeValue_keysOf (animation : Animation) (v : Value) (v' : ref) (s s' : store)
    elems :
  wf s -> keysOf s animation = Returns elems -> storeValue v s = (v', s') ->
  wf s' /\ keysOf s' animation = Returns elems.
Proof.
intros Hwf Hk. unfold storeValue.
destruct v; intros [= <- <-]; try done;
  (split; [by apply wf_alloc|by apply keysOf_alloc]).
Qed.

Lemma sample_keysOf (animation : Animation) (f : number) (index : nat) (v : ref)
    (s s' : store) elems :
  wf s -> keysOf s animation = Returns elems ->
  sample M sw s animation f index = Returns (v, s') ->
  wf s' /\ keysOf s' animation = Returns elems.
Proof.
intros Hwf Hk. unfold sample.
destruct (contents s animation) as [this|]; [|done]. cbn [bind].
destruct (fst _) as [x|]; [|done]. cbn [bind].
intros H%Returns_inj. by eapply storeValue_keysOf.
Qed.

Lemma insertKey_keysOf (animation : Animation) (index : nat) (f : number) (v : ref)
    (s s' : store) elems :
  wf s -> keysOf s animation = Returns elems ->
  insertKey animation index f v s = Returns s' ->
  wf s' /\ exists elems', keysOf s' animation = Returns elems'
                          /\ length elems' = S (length elems).
Proof.
intros Hwf. unfold keysOf, insertKey.
destruct (_keys animation) as [arr|]; [|done].
destruct (get s arr) as [[|es| |]|] eqn:E; try done.
intros [= <-] [= <-]. split.
- apply wf_put; [by apply wf_alloc|]. eexists. by apply get_alloc_old.
- eexists. unfold get, put. simpl. rewrite lookup_insert_eq. split; [done|].
  unfold splice_insert. rewrite length_app. simpl. rewrite length_take, length_drop. lia.
Qed.

Lemma frameOf_defined (s : store) (key : option loc) (f : number) :
  frameOf s key = Returns f -> is_Some key.
Proof. destruct key; [by eauto|done]. Qed.

Lemma findReference_spec (animation : Animation) (rf : number) (index : nat)
    (b b' : bookends) (s s' : store) elems :
  wf s -> keysOf s animation = Returns elems ->
  findReference M sw animation rf index (elems !! index) (elems !! (index + 1)%nat) b s
    = Returns (b', s') ->
  wf s' /\ keysOf s' animation = Returns elems
  /\ fromKeyFound b' = fromKeyFound b /\ toKeyFound b' = toKeyFound b
  /\ (referenceFound b = false -> (index < length elems)%nat).
Proof.
intros Hwf Hk. unfold findReference.
destruct (referenceFound b) eqn:Hfound.
{ intros [= <- <-]. by repeat split. }
destruct (frameOf s (elems !! index)) as [cf|] eqn:Ecf; [|done]. cbn [bind].
assert (Hidx : (index < length elems)%nat).
{ apply frameOf_defined in Ecf. by apply lookup_lt_is_Some. }
destruct (negb (JsNumber.ge rf cf)).
{ intros [= <- <-]. by repeat split. }
destruct (frameOf s (elems !! (index + 1)%nat)) as [nf|]; [|done]. cbn [bind].
destruct (negb (JsNumber.le rf nf)).
{ intros [= <- <-]. by repeat split. }
destruct (JsNumber.strictEq rf cf).
{ destruct (valueOf s (elems !! index)) as [value|]; [|done]. cbn [bind].
  destruct (cloneValue value s) as [v1 s1] eqn:Ec. intros [= <- <-].
  destruct (cloneValue_keysOf animation _ _ _ _ elems Hwf Hk Ec). by repeat split. }
destruct (JsNumber.strictEq rf nf).
{ destruct (valueOf s (elems !! (index + 1)%nat)) as [value|]; [|done]. cbn [bind].
  destruct (cloneValue value s) as [v1 s1] eqn:Ec. intros [= <- <-].
  destruct (cloneValue_keysOf animation _ _ _ _ elems Hwf Hk Ec). by repeat split. }
destruct (sample M sw s animation rf index) as [[v1 s1]|] eqn:Es; [|done]. cbn [bind].
intros [= <- <-].
destruct (sample_keysOf animation _ _ _ _ _ elems Hwf Hk Es). by repeat split.
Qed.

Lemma findFrom_spec (animation : Animation) (from : number) (index : nat)
    (currentKey nextKey : option loc) (b b' : bookends) (s s' : store) elems :
  wf s -> keysOf s animation = Returns elems ->
  findFrom M sw animation from index currentKey nextKey b s = Returns (b', s') ->
  wf s' /\ toKeyFound b' = toKeyFound b
  /\ (fromKeyFound b = false -> is_Some currentKey)
  /\ exists elems', keysOf s' animation = Returns elems'
       /\ (length elems <= length elems')%nat
       /\ (length elems' + (if fromKeyFound b' then 0 else 1)
           <= length elems + (if fromKeyFound b then 0 else 1))%nat.
Proof.
intros Hwf Hk. unfold findFrom.
destruct (fromKeyFound b) eqn:Hfound.
{ intros [= <- <-]. rewrite Hfound. repeat split; [done..|]. exists elems. by repeat split. }
destruct (frameOf s currentKey) as [cf|] eqn:Ecf; [|done]. cbn [bind].
pose proof (frameOf_defined _ _ _ Ecf) as Hck.
destruct (negb (JsNumber.ge from cf)).
{ intros [= <- <-]. rewrite Hfound. repeat split; [done..|]. exists elems. by repeat split. }
destruct (frameOf s nextKey) as [nf|]; [|done]. cbn [bind].
destruct (negb (JsNumber.le from nf)).
{ intros [= <- <-]. rewrite Hfound. repeat split; [done..|]. exists elems. by repeat split. }
destruct (JsNumber.strictEq from cf).
{ cbn [bind]. intros [= <- <-]. simpl. repeat split; [done..|]. exists elems.
  split; [done|]. split; lia. }
destruct (JsNumber.strictEq from nf).
{ cbn [bind]. intros [= <- <-]. simpl. repeat split; [done..|]. exists elems.
  split; [done|]. split; lia. }
destruct (sample M sw s animation from index) as [[v1 s1]|] eqn:Es; [|done]. cbn [bind].
destruct (sample_keysOf animation _ _ _ _ _ elems Hwf Hk Es) as [Hwf1 Hk1].
destruct (insertKey animation index from v1 s1) as [s2|] eqn:Ei; [|done]. cbn [bind].
destruct (insertKey_keysOf animation _ _ _ _ _ elems Hwf1 Hk1 Ei) as (Hwf2 & elems' & Hk2 & Hlen).
intros [= <- <-]. simpl. repeat split; [done..|]. exists elems'.
split; [done|]. split; lia.
Qed.

Lemma findTo_spec (animation : Animation) (to : number) (index : nat)
    (currentKey nextKey : option loc) (b b' : bookends) (s s' : store) elems :
  wf s -> keysOf s animation = Returns elems ->
  findTo M sw animation to index currentKey nextKey b s = Returns (b', s') ->
  wf s' /\ fromKeyFound b' = fromKeyFound b
  /\ exists elems', keysOf s' animation = Returns elems'
       /\ (length elems <= length elems')%nat
       /\ (length elems' + (if toKeyFound b' then 0 else 1)
           <= length elems + (if toKeyFound b then 0 else 1))%nat.
Proof.
intros Hwf Hk. unfold findTo.
destruct (toKeyFound b) eqn:Hfound.
{ intros [= <- <-]. rewrite Hfound. repeat split; [done..|]. exists elems. by repeat split. }
destruct (frameOf s currentKey) as [cf|] eqn:Ecf; [|done]. cbn [bind].
destruct (negb (JsNumber.ge to cf)).
{ intros [= <- <-]. rewrite Hfound. repeat split; [done..|]. exists elems. by repeat split. }
destruct (frameOf s nextKey) as [nf|]; [|done]. cbn [bind].
destruct (negb (JsNumber.le to nf)).
{ intros [= <- <-]. rewrite Hfound. repeat split; [done..|]. exists elems. by repeat split. }
destruct (JsNumber.strictEq to cf).
{ cbn [bind]. intros [= <- <-]. simpl. repeat split; [done..|]. exists elems.
  split; [done|]. split; lia. }
destruct (JsNumber.strictEq to nf).
{ cbn [bind]. intros [= <- <-]. simpl. repeat split; [done..|]. exists elems.
  split; [done|]. split; lia. }
destruct (sample M sw s animation to index) as [[v1 s1]|] eqn:Es; [|done]. cbn [bind].
destruct (sample_keysOf animation _ _ _ _ _ elems Hwf Hk Es) as [Hwf1 Hk1].
destruct (insertKey animation index to v1 s1) as [s2|] eqn:Ei; [|done]. cbn [bind].
destruct (insertKey_keysOf animation _ _ _ _ _ elems Hwf1 Hk1 Ei) as (Hwf2 & elems' & Hk2 & Hlen).
intros [= <- <-]. simpl. repeat split; [done..|]. exists elems'.
split; [done|]. split; lia.
Qed.

(** Each iteration moves [index] one key forward and the array grows by one
    key per bookend at most; past the last key an iteration throws.  So the
    loop ends within [length + pending + 1 - index] iterations. *)
Lemma findBookends_ends (fuel : nat) (animation : Animation) (rf from to : number)
    (index : nat) (b : bookends) (s : store) elems :
  wf s -> keysOf s animation = Returns elems ->
  (index <= length elems)%nat ->
  (length elems + pending b + 1 - index <= fuel)%nat ->
  is_Some (findBookends M sw fuel animation rf from to index b s).
Proof.
revert index b s elems. induction fuel as [|fuel IH]; intros index b s elems Hwf Hk Hidx Hfuel.
- lia.
- simpl. rewrite Hk. destruct (searching b index elems) eqn:Hsearch; [|by eauto].
  destruct (findBookendsStep M sw animation rf from to index elems b s)
    as [[b3 s3]|] eqn:Estep; [|by eauto].
  unfold findBookendsStep in Estep.
  destruct (findReference M sw animation rf index _ _ b s) as [[b1 s1]|] eqn:E1; [|done].
  cbn [bind] in Estep.
  destruct (findFrom M sw animation from index _ _ b1 s1) as [[b2 s2]|] eqn:E2; [|done].
  cbn [bind] in Estep.
  destruct (findReference_spec _ _ _ _ _ _ _ _ Hwf Hk E1)
    as (Hwf1 & Hk1 & Hf1 & Ht1 & Hr1).
  destruct (findFrom_spec _ _ _ _ _ _ _ _ _ _ Hwf1 Hk1 E2)
    as (Hwf2 & Ht2 & Hc2 & elems2 & Hk2 & Hl2 & Hp2).
  destruct (findTo_spec _ _ _ _ _ _ _ _ _ _ Hwf2 Hk2 Estep)
    as (Hwf3 & Hf3 & elems3 & Hk3 & Hl3 & Hp3).
  assert (Hlt : (index < length elems)%nat).
  { unfold searching in Hsearch.
    destruct (referenceFound b); [|by apply Hr1].
    destruct (fromKeyFound b) eqn:Hfb.
    - simpl in Hsearch. apply andb_true_iff in Hsearch as [_ Hsearch].
      apply Z.ltb_lt in Hsearch. lia.
    - apply lookup_lt_is_Some. apply Hc2. congruence. }
  apply (IH _ _ _ elems3); [done|done|lia|].
  unfold pending in *. rewrite Hf3. rewrite Ht2, Ht1 in Hp3. rewrite Hf1 in Hp2.
  destruct (fromKeyFound b), (toKeyFound b), (fromKeyFound b2), (toKeyFound b3); lia.
Qed.

(** The other parts of the converter throw TypeError or IllTyped only. *)
Ltac no_fuel :=
  intros; repeat (simpl in *; case_match; simplify_eq; try done); try congruence.

Lemma valueOf_error (s : store) (key : option loc) e :
  valueOf s key = Throws e -> e <> OutOfFuel.
Proof. unfold valueOf. no_fuel. Qed.

Lemma frameOf_error (s : store) (key : option loc) e :
  frameOf s key = Throws e -> e <> OutOfFuel.
Proof. unfold frameOf. no_fuel. Qed.

Lemma keysOf_error (s : store) (animation : Animation) e :
  keysOf s animation = Throws e -> e <> OutOfFuel.
Proof. unfold keysOf. no_fuel. Qed.

Lemma prepareReference_error (animation : Animation) (b : bookends) (s : store) e :
  prepareReference M animation b s = Throws e -> e <> OutOfFuel.
Proof. unfold prepareReference. no_fuel. Qed.

Lemma subtractReference_error (animation : Animation) (b : bookends) (p : prepared)
    (l : loc) (k : Key.t) (s : store) e :
  subtractReference M animation b p l k s = Throws e -> e <> OutOfFuel.
Proof. unfold subtractReference, sizeOfReference, bind. no_fuel. Qed.

Lemma subtractLoop_error (n : nat) (animation : Animation) (firstKey : loc)
    (b : bookends) (p : prepared) (index : nat) (s : store) e :
  subtractLoop M n animation firstKey b p index s = Throws e -> e <> OutOfFuel.
Proof.
revert index s. induction n as [|n IH]; intros index s; [done|]. cbn [subtractLoop].
destruct (keysOf s animation) as [elems|e'] eqn:Ek;
  [|intros [= <-]; by eapply keysOf_error].
cbn [bind]. destruct (elems !! index) as [l|]; [|by intros [= <-]].
destruct (get s l) as [[k| | |]|]; try by intros [= <-].
destruct (valueOf s (Some firstKey)) as [fv|e'] eqn:Ev;
  [|intros [= <-]; by eapply valueOf_error].
cbn [bind]. destruct (_ && _); [by apply IH|].
destruct (subtractReference M animation b p l k s) as [s1|e'] eqn:Es;
  [|intros [= <-]; by eapply subtractReference_error].
cbn [bind]. by apply IH.
Qed.

Lemma cloneRanges_error (entries : list (string * option loc))
    (acc : gmap string (option loc)) (s : store) e :
  cloneRanges entries acc s = Throws e -> e <> OutOfFuel.
Proof.
revert acc s. induction entries as [|[name [l|]] rest IH]; intros acc s; simpl; [done| |by apply IH].
destruct (get s l) as [[| |r|]|]; try by intros [= <-].
destruct (String.eqb name "__proto__"); [by intros [= <-]|]. by apply IH.
Qed.

Lemma clone_spec (this : Animation) (s : store) :
  wf s ->
  match clone this s with
  | Returns (c, s') => wf s'
  | Throws e => e <> OutOfFuel
  end.
Proof.
intros Hwf. unfold clone, newAnimation. cbn [bind].
set (s0 := mkStore (objects s) (next s) (_UniqueIdGenerator s + 1)).
assert (Hwf0 : wf s0) by exact Hwf.
set (c0 := mkAnimation _ _ _ _ _ _ _ _ _ _ _ _).
assert (Hkeys : match (match _keys this with
                       | Some values => setKeys c0 values s0
                       | None => Returns (c0, s0)
                       end) with
                | Returns (c1, s1) => wf s1
                | Throws e => e <> OutOfFuel
                end).
{ destruct (_keys this) as [values|]; [|done]. unfold setKeys.
  destruct (get s0 values) as [[|elems| |]|]; try done. by apply wf_alloc. }
destruct (match _keys this with
          | Some values => setKeys c0 values s0
          | None => Returns (c0, s0)
          end) as [[c1 s1]|]; [|done].
cbn [bind].
destruct (cloneRanges (map_to_list (_ranges this)) ∅ s1) as [[ranges s2]|e] eqn:Er.
- cbn [bind]. by destruct (cloneRanges_spec _ _ _ _ _ Hkeys Er) as (? & _).
- cbn [bind]. by eapply cloneRanges_error.
Qed.

Lemma walkLeft_error keys (f : number) (n : nat) (key : Z) e :
  Animation.walkLeft keys f n key = Throws e -> e <> OutOfFuel.
Proof.
revert key. induction n as [|n IH]; intros key; simpl; [done|].
destruct (lookupZ keys key); [|by intros [= <-]].
destruct (JsNumber.lt _ _); [by apply IH|done].
Qed.

Lemma walkRight_error keys (f : number) (n : nat) (key : Z) e :
  Animation.walkRight keys f n key = Throws e -> e <> OutOfFuel.
Proof.
revert key. induction n as [|n IH]; intros key; simpl; [done|].
destruct (lookupZ keys (key + 1)); [|by intros [= <-]].
destruct (JsNumber.ge _ _); [by apply IH|done].
Qed.

Lemma interpolateSegment_error this startKey endKey (frameDelta gradient : number)
    state e :
  fst (Animation.interpolateSegment M sw this startKey endKey frameDelta gradient state)
    = Throws e -> e <> OutOfFuel.
Proof.
unfold Animation.interpolateSegment, Animation.loopSwitch, Animation.fallThrough,
  Animation.defined, Animation.asNumber, Animation.asQuaternion, Animation.asVector3,
  Animation.asVector2, Animation.asSize, Animation.asColor3, Animation.asColor4,
  Animation.asMatrix, bind.
no_fuel.
Qed.

Lemma _interpolate_error this (f : number) state e :
  fst (Animation._interpolate M sw this f state) = Throws e -> e <> OutOfFuel.
Proof.
unfold Animation._interpolate, Animation.resolveKey.
destruct (_ && _).
{ simpl. unfold Animation.defined. by destruct (_IAnimationState.highLimitValue state); intros [= <-]. }
destruct (Animation.walkLeft _ _ _ _) as [k1|e1] eqn:E1;
  [|simpl; intros [= <-]; by eapply walkLeft_error].
cbn [bind]. destruct (Animation.walkRight _ _ _ _) as [k2|e2] eqn:E2;
  [|simpl; intros [= <-]; by eapply walkRight_error].
destruct (k2 <? 0).
{ simpl. unfold Animation.keyValueAt. by destruct (lookupZ _ _); intros [= <-]. }
destruct (k2 + 1 >? _).
{ simpl. unfold Animation.keyValueAt. by destruct (lookupZ _ _); intros [= <-]. }
destruct (lookupZ _ k2) as [startKey|]; [|by intros [= <-]].
destruct (lookupZ _ (k2 + 1)) as [endKey|]; [|by intros [= <-]].
destruct (isStep startKey).
{ by destruct (JsNumber.gt _ _). }
apply interpolateSegment_error.
Qed.

Lemma readKeys_error (s : store) elems e :
  readKeys s elems = Throws e -> e <> OutOfFuel.
Proof.
induction elems as [|l rest IH]; [done|]. cbn [readKeys].
destruct (readKey s l) as [k|e'] eqn:Ek.
- cbn [bind]. destruct (readKeys s rest); [done|]. cbn [bind]. intros [= <-]. by apply IH.
- cbn [bind]. intros [= <-]. clear -Ek. revert Ek.
  unfold readKey, readSlot, readValue, bind. no_fuel.
Qed.

Lemma sample_error (animation : Animation) (f : number) (index : nat) (s : store) e :
  sample M sw s animation f index = Throws e -> e <> OutOfFuel.
Proof.
unfold sample, contents.
destruct (keysOf s animation) as [elems|e'] eqn:Ek;
  [|cbn [bind]; intros [= <-]; by eapply keysOf_error].
cbn [bind]. destruct (readKeys s elems) as [keys|e'] eqn:Er;
  [|cbn [bind]; intros [= <-]; by eapply readKeys_error].
cbn [bind]. destruct (fst _) as [v|e'] eqn:Ei; [done|].
cbn [bind]. intros [= <-]. by eapply _interpolate_error.
Qed.

Lemma insertKey_error (animation : Animation) (index : nat) (f : number) (v : ref)
    (s : store) e :
  insertKey animation index f v s = Throws e -> e <> OutOfFuel.
Proof. unfold insertKey. no_fuel. Qed.

Ltac step_error H :=
  match goal with
  | |- context [bind ?m _] =>
      let E := fresh "E" in
      let a := fresh "a" in
      destruct m as [a|?] eqn:E; cbn [bind]; [|intros [= <-]; by eapply H]
  end.

Lemma findReference_error (animation : Animation) (rf : number) (index : nat)
    (currentKey nextKey : option loc) (b : bookends) (s : store) e :
  findReference M sw animation rf index currentKey nextKey b s = Throws e ->
  e <> OutOfFuel.
Proof.
unfold findReference. destruct (referenceFound b); [done|].
step_error frameOf_error. destruct (negb _); [done|].
step_error frameOf_error. destruct (negb _); [done|].
destruct (JsNumber.strictEq _ _).
{ step_error valueOf_error. cbn [bind]. by destruct (cloneValue _ _). }
destruct (JsNumber.strictEq _ _).
{ step_error valueOf_error. cbn [bind]. by destruct (cloneValue _ _). }
step_error sample_error. by case_match.
Qed.

Lemma findFrom_error (animation : Animation) (from : number) (index : nat)
    (currentKey nextKey : option loc) (b : bookends) (s : store) e :
  findFrom M sw animation from index currentKey nextKey b s = Throws e ->
  e <> OutOfFuel.
Proof.
unfold findFrom. destruct (fromKeyFound b); [done|].
step_error frameOf_error. destruct (negb _); [done|].
step_error frameOf_error. destruct (negb _); [done|].
destruct (JsNumber.strictEq _ _); [done|].
destruct (JsNumber.strictEq _ _); [done|].
step_error sample_error. case_match. step_error insertKey_error. done.
Qed.

Lemma findTo_error (animation : Animation) (to : number) (index : nat)
    (currentKey nextKey : option loc) (b : bookends) (s : store) e :
  findTo M sw animation to index currentKey nextKey b s = Throws e ->
  e <> OutOfFuel.
Proof.
unfold findTo. destruct (toKeyFound b); [done|].
step_error frameOf_error. destruct (negb _); [done|].
step_error frameOf_error. destruct (negb _); [done|].
destruct (JsNumber.strictEq _ _); [done|].
destruct (JsNumber.strictEq _ _); [done|].
step_error sample_error. case_match. step_error insertKey_error. done.
Qed.

Lemma findBookends_error (fuel : nat) (animation : Animation) (rf from to : number)
    (index : nat) (b : bookends) (s : store) e :
  findBookends M sw fuel animation rf from to index b s = Some (Throws e) ->
  e <> OutOfFuel.
Proof.
revert index b s. induction fuel as [|fuel IH]; intros index b s; cbn [findBookends];
  (destruct (keysOf s animation) as [elems|e'] eqn:Ek;
   [|intros [= <-]; by eapply keysOf_error]);
  (destruct (searching b index elems); [|done]); [done|].
destruct (findBookendsStep M sw animation rf from to index elems b s)
  as [[b' s']|e'] eqn:Es; [by apply IH|].
intros [= <-]. revert Es. unfold findBookendsStep.
step_error findReference_error. case_match.
step_error findFrom_error. case_match. by apply findTo_error.
Qed.

(** The bound given to the search loop is never used up: on a well-formed
    store the converter returns, or throws what the source throws. *)
Lemma makeAdditiveFrom_bound (animation : Animation) (rf : number)
    (range : option string) (s : store) elems :
  wf s -> keysOf s animation = Returns elems ->
  makeAdditiveFrom M sw animation rf range elems s <> Throws OutOfFuel.
Proof.
intros Hwf Hk. unfold makeAdditiveFrom.
destruct (valueOf s (elems !! 0%nat)) as [firstValue|e] eqn:E1;
  [|intros [= ->]; by eapply valueOf_error].
cbn [bind].
destruct (frameOf s (elems !! 0%nat)) as [firstFrame|e] eqn:E2;
  [|intros [= ->]; by eapply frameOf_error].
cbn [bind].
destruct (frameOf s (elems !! (length elems - 1)%nat)) as [lastFrame|e] eqn:E3;
  [|intros [= ->]; by eapply frameOf_error].
cbn [bind].
match goal with |- (let* fromTo := ?m in _) <> _ => destruct m as [[from to]|e] eqn:E4 end;
  [|intros [= ->]; clear -E4; no_fuel].
cbn [bind].
match goal with |- (let* bs := ?m in _) <> _ =>
  assert (Hb : match m with
               | Returns (b, s1) => wf s1 /\ keysOf s1 animation = Returns elems
               | Throws e => e <> OutOfFuel
               end) end.
{ destruct (Nat.eqb (length elems) 1).
  - destruct (elems !! 0%nat) as [l|]; [|done].
    destruct (cloneValue (RObject l) s) as [v1 s1] eqn:Ec.
    by eapply cloneValue_keysOf.
  - destruct (JsNumber.le rf firstFrame).
    + destruct (cloneValue firstValue s) as [v1 s1] eqn:Ec.
      by eapply cloneValue_keysOf.
    + destruct (JsNumber.ge rf lastFrame); [|done].
      destruct (valueOf s (elems !! (length elems - 1)%nat)) as [lastValue|e] eqn:E5;
        [|by eapply valueOf_error].
      cbn [bind]. destruct (cloneValue lastValue s) as [v1 s1] eqn:Ec.
      by eapply cloneValue_keysOf. }
match goal with |- (let* bs := ?m in _) <> _ => destruct m as [[b s1]|e] end;
  [|by intros [= ->]].
cbn [bind]. destruct Hb as [Hwf1 Hk1].
destruct (findBookends_ends (length elems + 3) animation rf from to 0 b s1 elems
            Hwf1 Hk1) as [result Hresult].
{ lia. }
{ unfold pending. destruct (fromKeyFound b), (toKeyFound b); lia. }
rewrite Hresult. destruct result as [[b2 s2]|e] eqn:Er.
- cbn [bind].
  destruct (prepareReference M animation b2 s2) as [[p s3]|e] eqn:Ep;
    [|intros [= ->]; by eapply prepareReference_error].
  cbn [bind]. destruct (elems !! 0%nat) as [first|]; [|done].
  destruct (subtractLoop M _ animation first b2 p _ s3) as [s4|e] eqn:Es;
    [done|intros [= ->]; by eapply subtractLoop_error].
- cbn [bind]. intros [= ->]. by eapply findBookends_error.
Qed.

(** X15.  The search for the reference and the bookends always ends: on a
    well-formed store the converter returns, or throws a TypeError (a read
    past the last key) or leaves the typing invariant; the bound the model
    gives the loop, the number of keys plus three iterations, is never used
    up. *)
Lemma MakeAnimationAdditive_bound (sourceAnimation : Animation) (rf : number)
    (range : option string) (cloneOriginal : bool) (clonedName : option string)
    (s : store) :
  wf s ->
  MakeAnimationAdditive M sw sourceAnimation rf range cloneOriginal clonedName s
  <> Throws OutOfFuel.
Proof.
intros Hwf. unfold MakeAnimationAdditive.
match goal with |- (let* cs := ?m in _) <> _ =>
  assert (Hc : match m with
               | Returns (a, s1) => wf s1
               | Throws e => e <> OutOfFuel
               end) end.
{ destruct cloneOriginal; [|done].
  pose proof (clone_spec sourceAnimation s Hwf) as Hclone.
  destruct (clone sourceAnimation s) as [[c s1]|e]; done. }
match goal with |- (let* cs := ?m in _) <> _ => destruct m as [[a s1]|e] end;
  [|by intros [= ->]].
cbn [bind].
destruct (keysOf s1 a) as [elems|e] eqn:Ek;
  [|cbn [bind]; intros [= ->]; by eapply keysOf_error].
cbn [bind]. destruct (Nat.eqb (length elems) 0); [done|].
by apply makeAdditiveFrom_bound.
Qed.

End AdditiveFuel.

(** ** The cursor of the evaluator *)

Section CursorCache.
Import JsNumber JsNumberFacts.
Context (M : Maths.t) (sw : Switches).
Implicit Types (keys : list IAnimationKey.t) (f : number)
  (this : Animation.t) (state : _IAnimationState.t).

Lemma not_ge_lt x y :
  isNaN x = false -> isNaN y = false -> ge x y = false -> lt x y = true.
Proof.
intros Hx Hy. destruct (cmp_defined x y Hx Hy) as [c E].
unfold ge. rewrite lt_cmp, le_cmp, E, (cmp_antisym _ _ _ E).
destruct c; done.
Qed.

Lemma framesDefined_lookup keys (j : nat) kj :
  framesDefined keys = true -> keys !! j = Some kj ->
  isNaN (IAnimationKey.frame kj) = false.
Proof.
unfold framesDefined. rewrite forallb_forall. intros H Hj.
apply negb_true_iff, H. apply list_elem_of_In. by eapply list_elem_of_lookup_2.
Qed.

(** On non-decreasing frames the keys at or before [f] are a prefix of the
    array. *)
Lemma atOrBefore_prefix keys f :
  nondecreasing keys = true -> framesDefined keys = true -> isNaN f = false ->
  (length (List.filter (atOrBefore f) keys) <= length keys)%nat
  /\ (forall (j : nat) kj, keys !! j = Some kj ->
        (j < length (List.filter (atOrBefore f) keys))%nat ->
        ge f (IAnimationKey.frame kj) = true)
  /\ (forall (j : nat) kj, keys !! j = Some kj ->
        (length (List.filter (atOrBefore f) keys) <= j)%nat ->
        lt f (IAnimationKey.frame kj) = true).
Proof.
intros Hs Hd Hf. induction keys as [|k rest IH]; [done|].
assert (Hdk : isNaN (IAnimationKey.frame k) = false).
{ by apply (framesDefined_lookup (k :: rest) 0 k). }
assert (Hdrest : framesDefined rest = true).
{ unfold framesDefined in *. simpl in Hd. by apply andb_true_iff in Hd as [_ ?]. }
cbn [List.filter]. change (atOrBefore f k) with (ge f (IAnimationKey.frame k)).
destruct (ge f (IAnimationKey.frame k)) eqn:Hk.
- destruct (IH (nondecreasing_tail _ _ Hs) Hdrest) as (Hlen & Hbelow & Habove).
  cbn [length]. split; [lia|]. split.
  + intros [|j] kj Hj Hlt; simpl in Hj; [by injection Hj as <-|].
    apply (Hbelow j); [done|lia].
  + intros [|j] kj Hj Hle; [lia|]. simpl in Hj. apply (Habove j); [done|lia].
- assert (Hlt : lt f (IAnimationKey.frame k) = true) by (by apply not_ge_lt).
  assert (Hall : forall (j : nat) kj, (k :: rest) !! j = Some kj ->
                   lt f (IAnimationKey.frame kj) = true).
  { intros [|j] kj Hj; simpl in Hj; [by injection Hj as <-|].
    eapply lt_le_trans; [exact Hlt|]. by eapply nondecreasing_head. }
  assert (Hnil : List.filter (atOrBefore f) rest = []).
  { clear -Hall. assert (H : forall z, In z rest -> atOrBefore f z = false).
    { intros z Hz. apply list_elem_of_In, list_elem_of_lookup in Hz as [j Hj].
      apply (lt_not_ge f). by apply (Hall (S j)). }
    clear Hall. induction rest as [|z l IHl]; [done|]. simpl.
    rewrite (H z) by (by left). apply IHl. intros ? ?. apply H. by right. }
  rewrite Hnil. cbn [length]. split; [lia|]. split; [intros; lia|].
  intros j kj Hj _. by apply (Hall j).
Qed.

(** The two loops end on the last key at or before the frame, wherever the
    cursor was. *)
Lemma resolveKey_spec keys f (c : Z) :
  nondecreasing keys = true -> framesDefined keys = true -> isNaN f = false ->
  -1 <= c < Z.of_nat (length keys) ->
  Animation.resolveKey keys f c = Returns (lastKeyAtOrBefore keys f).
Proof.
intros Hs Hd Hf Hc. unfold lastKeyAtOrBefore.
destruct (atOrBefore_prefix keys f Hs Hd Hf) as (Hlen & Hbelow & Habove).
set (m := length (List.filter (atOrBefore f) keys)) in *.
destruct (decide (m = 0%nat)) as [Hm0|Hm0].
- rewrite Hm0. unfold Animation.resolveKey.
  assert (Hleft : Animation.walkLeft keys f (Z.to_nat (c + 1)) c = Returns (-1)).
  { replace c with (Z.of_nat (Z.to_nat (c + 1)) - 1) at 2 by lia.
    apply walkLeft_to_start; [lia|]. intros j kj _ Hj. apply (Habove j); [done|lia]. }
  rewrite Hleft. cbn [bind].
  destruct keys as [|k0 rest]; [done|].
  replace (Z.to_nat (Z.of_nat (length (k0 :: rest)) - 1 - -1))
    with (S (length rest)) by (simpl; lia).
  rewrite (walkRight_stay _ _ _ _ k0); [done|done|].
  apply lt_not_ge. apply (Habove 0%nat); [done|lia].
- destruct (decide (m = length keys)) as [Hml|Hml].
  + rewrite Hml. unfold Animation.resolveKey.
    assert (Hleft : Animation.walkLeft keys f (Z.to_nat (c + 1)) c = Returns c).
    { destruct (decide (c = -1)) as [->|Hne]; [done|].
      destruct (lookup_lt_is_Some_2 keys (Z.to_nat c) ltac:(lia)) as [k Hk].
      apply (walkLeft_stay _ _ _ k).
      - unfold lookupZ. destruct (Z.ltb_spec c 0); [lia|done].
      - apply ge_not_lt. apply (Hbelow (Z.to_nat c)); [done|lia]. }
    rewrite Hleft. cbn [bind].
    apply walkRight_to_end; [lia|lia|].
    intros j kj _ Hj. apply (Hbelow j); [done|].
    apply lookup_lt_Some in Hj. lia.
  + destruct (lookup_lt_is_Some_2 keys (m - 1) ltac:(lia)) as [s Hsk].
    destruct (lookup_lt_is_Some_2 keys (S (m - 1)) ltac:(lia)) as [e Hek].
    replace (Z.of_nat m - 1) with (Z.of_nat (m - 1)) by lia.
    apply (resolveKey_segment keys f c (m - 1) s e); try done.
    * apply (Hbelow (m - 1)%nat); [done|lia].
    * apply (Habove (S (m - 1))); [done|lia].
Qed.

(** The [switch] on the data type leaves the cached index alone. *)
Lemma interpolateSegment_key this startKey endKey (frameDelta gradient : number) state :
  _IAnimationState.key
    (snd (Animation.interpolateSegment M sw this startKey endKey frameDelta gradient state))
  = _IAnimationState.key state.
Proof.
unfold Animation.interpolateSegment.
repeat case_match; done.
Qed.

Lemma _interpolate_key this f state :
  shortCircuits state = false ->
  match Animation.resolveKey (Animation._keys this) f (_IAnimationState.key state) with
  | Returns key => _IAnimationState.key (snd (Animation._interpolate M sw this f state)) = key
  | Throws _ => True
  end.
Proof.
intros Hsc. unfold shortCircuits in Hsc. unfold Animation._interpolate. rewrite Hsc.
destruct (Animation.resolveKey _ _ _) as [key|]; [|done].
destruct (key <? 0); [done|]. destruct (key + 1 >? _); [done|].
destruct (lookupZ _ key) as [startKey|]; [|done].
destruct (lookupZ _ (key + 1)) as [endKey|]; [|done].
cbv zeta. destruct (isStep startKey); [by case_match|].
by rewrite interpolateSegment_key.
Qed.

(** X1.  On a track whose frames never decrease and are not [NaN], a call
    at a frame that is not [NaN], made with a cursor that holds an index of
    the key array (or -1) and does not short-circuit, leaves in the cursor
    the index of the last key whose frame is at or before the frame: -1 when
    the frame is before every key. *)
Theorem cursor_rests_on_last_key this f state :
  nondecreasing (Animation._keys this) = true ->
  framesDefined (Animation._keys this) = true ->
  isNaN f = false ->
  cursorInRange (Animation._keys this) state ->
  shortCircuits state = false ->
  _IAnimationState.key (snd (Animation._interpolate M sw this f state))
  = lastKeyAtOrBefore (Animation._keys this) f.
Proof.
intros Hs Hd Hf Hc Hsc. pose proof (_interpolate_key this f state Hsc) as H.
by rewrite (resolveKey_spec _ _ _ Hs Hd Hf Hc) in H.
Qed.

(** X2.  The index cached in the cursor only says where the search for the
    segment starts: on a track whose frames never decrease and are not
    [NaN], two calls at the same frame (not [NaN]) that differ in the cached
    index alone return the same value and leave the same cursor. *)
Theorem cursor_key_is_a_cache this f state (c1 c2 : Z) :
  nondecreasing (Animation._keys this) = true ->
  framesDefined (Animation._keys this) = true ->
  isNaN f = false ->
  -1 <= c1 < Z.of_nat (length (Animation._keys this)) ->
  -1 <= c2 < Z.of_nat (length (Animation._keys this)) ->
  shortCircuits state = false ->
  Animation._interpolate M sw this f (_IAnimationState.set_key c1 state)
  = Animation._interpolate M sw this f (_IAnimationState.set_key c2 state).
Proof.
intros Hs Hd Hf Hc1 Hc2 Hsc. unfold shortCircuits in Hsc.
unfold Animation._interpolate. cbn [_IAnimationState.set_key _IAnimationState.loopMode
  _IAnimationState.repeatCount _IAnimationState.key _IAnimationState.highLimitValue].
rewrite Hsc. by rewrite !(resolveKey_spec _ _ _ Hs Hd Hf).
Qed.

End CursorCache.

Section EvaluatorSafety.
Import JsNumber JsNumberFacts.
Context (M : Maths.t) (sw : Switches).
Implicit Types (keys : list IAnimationKey.t) (f : number)
  (this : Animation.t) (state : _IAnimationState.t).

Lemma walkLeft_bounds keys f (n : nat) (key : Z) :
  Z.of_nat n = key + 1 -> key < Z.of_nat (length keys) ->
  exists key', Animation.walkLeft keys f n key = Returns key' /\ -1 <= key' <= key.
Proof.
revert key. induction n as [|n IH]; intros key Hn Hlen.
- exists key. split; [done|lia].
- simpl. unfold lookupZ. destruct (Z.ltb_spec key 0); [lia|].
  destruct (lookup_lt_is_Some_2 keys (Z.to_nat key) ltac:(lia)) as [k ->].
  destruct (lt f (IAnimationKey.frame k)).
  + destruct (IH (key - 1) ltac:(lia) ltac:(lia)) as (key' & -> & ?).
    exists key'. split; [done|lia].
  + exists key. split; [done|lia].
Qed.

Lemma walkRight_bounds keys f (n : nat) (key : Z) :
  Z.of_nat n = Z.of_nat (length keys) - 1 - key -> -1 <= key ->
  exists key', Animation.walkRight keys f n key = Returns key'
               /\ key <= key' <= Z.of_nat (length keys) - 1.
Proof.
revert key. induction n as [|n IH]; intros key Hn Hkey.
- exists key. split; [done|lia].
- simpl. unfold lookupZ. destruct (Z.ltb_spec (key + 1) 0); [lia|].
  destruct (lookup_lt_is_Some_2 keys (Z.to_nat (key + 1)) ltac:(lia)) as [k ->].
  destruct (ge f (IAnimationKey.frame k)).
  + destruct (IH (key + 1) ltac:(lia) ltac:(lia)) as (key' & -> & ?).
    exists key'. split; [done|lia].
  + exists key. split; [done|lia].
Qed.

(** The two loops stay within the key array, whatever the order of the
    frames. *)
Lemma resolveKey_bounds keys f (c : Z) :
  -1 <= c < Z.of_nat (length keys) ->
  exists key, Animation.resolveKey keys f c = Returns key
              /\ -1 <= key <= Z.of_nat (length keys) - 1.
Proof.
intros Hc. unfold Animation.resolveKey.
destruct (walkLeft_bounds keys f (Z.to_nat (c + 1)) c ltac:(lia) ltac:(lia))
  as (k1 & -> & Hk1). cbn [bind].
destruct (walkRight_bounds keys f (Z.to_nat (Z.of_nat (length keys) - 1 - k1)) k1
            ltac:(lia) ltac:(lia)) as (k2 & -> & Hk2).
exists k2. split; [done|lia].
Qed.

Lemma wellTypedKey_value dt k :
  wellTypedKey dt k = true -> dataTypeOf (IAnimationKey.value k) = dt.
Proof.
unfold wellTypedKey. intros [[H _]%andb_true_iff _]%andb_true_iff. by apply Z.eqb_eq.
Qed.

Lemma interpolateSegment_typed this startKey endKey (frameDelta gradient : number) state :
  wellTypedKey (Animation.dataType this) startKey = true ->
  wellTypedKey (Animation.dataType this) endKey = true ->
  Animation.isCycleConstantYoyo (_IAnimationState.loopMode state) = true ->
  exists v,
    fst (Animation.interpolateSegment M sw this startKey endKey frameDelta gradient state)
      = Returns v
    /\ dataTypeOf v = Animation.dataType this.
Proof.
intros Hs He Hloop. unfold Animation.interpolateSegment, Animation.loopSwitch.
rewrite Hloop. unfold wellTypedKey, slotOfType in Hs, He.
destruct startKey as [fs vs si so sp], endKey as [fe ve ei eo ep].
cbn [IAnimationKey.value IAnimationKey.inTangent IAnimationKey.outTangent] in *.
apply andb_true_iff in Hs as [[Hvs _]%andb_true_iff Hso].
apply andb_true_iff in He as [[Hve Hei]%andb_true_iff _].
apply Z.eqb_eq in Hvs, Hve.
destruct vs; cbn [dataTypeOf] in Hvs; rewrite <- Hvs in *;
  (destruct ve; try (vm_compute in Hve; discriminate Hve));
  (destruct so as [[]|]; try (vm_compute in Hso; discriminate Hso));
  (destruct ei as [[]|]; try (vm_compute in Hei; discriminate Hei));
  cbn; repeat case_match; simplify_eq; cbn; eauto.
Qed.

Lemma wellTyped_lookup this (j : nat) k :
  wellTyped this = true -> Animation._keys this !! j = Some k ->
  wellTypedKey (Animation.dataType this) k = true.
Proof.
unfold wellTyped. rewrite forallb_forall. intros H Hj.
apply H, list_elem_of_In. by eapply list_elem_of_lookup_2.
Qed.

Lemma _interpolate_typed this f state :
  Animation._keys this <> [] -> wellTyped this = true ->
  cursorInRange (Animation._keys this) state ->
  Animation.isCycleConstantYoyo (_IAnimationState.loopMode state) = true ->
  shortCircuits state = false ->
  exists v, fst (Animation._interpolate M sw this f state) = Returns v
            /\ dataTypeOf v = Animation.dataType this.
Proof.
intros Hne Hwt Hc Hloop Hsc. unfold shortCircuits in Hsc. unfold cursorInRange in Hc.
unfold Animation._interpolate. rewrite Hsc.
destruct (resolveKey_bounds (Animation._keys this) f _ Hc) as (key & -> & Hkey).
assert (Hlen : (0 < length (Animation._keys this))%nat).
{ destruct (Animation._keys this); [done|simpl; lia]. }
assert (Hat : forall i : Z, 0 <= i < Z.of_nat (length (Animation._keys this)) ->
          exists k, lookupZ (Animation._keys this) i = Some k
                    /\ wellTypedKey (Animation.dataType this) k = true).
{ intros i Hi. unfold lookupZ. destruct (Z.ltb_spec i 0); [lia|].
  destruct (lookup_lt_is_Some_2 (Animation._keys this) (Z.to_nat i) ltac:(lia)) as [k Hk].
  exists k. split; [done|]. by eapply wellTyped_lookup. }
destruct (Z.ltb_spec key 0).
{ destruct (Hat 0 ltac:(lia)) as (k & Hk & Hkt). unfold Animation.keyValueAt.
  rewrite Hk. exists (IAnimationKey.value k). split; [done|]. by apply wellTypedKey_value. }
destruct (Z.gtb_spec (key + 1) (Z.of_nat (length (Animation._keys this)) - 1)).
{ destruct (Hat (Z.of_nat (length (Animation._keys this)) - 1) ltac:(lia)) as (k & Hk & Hkt).
  unfold Animation.keyValueAt.
  rewrite Hk. exists (IAnimationKey.value k). split; [done|]. by apply wellTypedKey_value. }
destruct (Hat key ltac:(lia)) as (startKey & -> & Hst).
destruct (Hat (key + 1) ltac:(lia)) as (endKey & -> & Het).
cbv zeta. destruct (isStep startKey).
{ case_match; eexists; (split; [done|]); by apply wellTypedKey_value. }
by apply interpolateSegment_typed.
Qed.

(** X5.  [evaluate] throws a TypeError on a track without keys.  On a track
    with at least one key whose values and tangents are instances of the
    track's data type it returns, whatever the order of the frames, and what
    it returns is an instance of the data type. *)
Theorem evaluate_returns this f :
  (Animation._keys this = [] -> Animation.evaluate M sw this f = Throws TypeError)
  /\ (Animation._keys this <> [] -> wellTyped this = true ->
      exists v, Animation.evaluate M sw this f = Returns v
                /\ dataTypeOf v = Animation.dataType this).
Proof.
split.
- intros Hnil. unfold Animation.evaluate, Animation._interpolate. rewrite Hnil. done.
- intros Hne Hwt. unfold Animation.evaluate. apply _interpolate_typed; try done.
  unfold cursorInRange. simpl. destruct (Animation._keys this); [done|simpl; lia].
Qed.
End EvaluatorSafety.

Section FloatSegment.
Import JsNumber JsNumberFacts.
Context (M : Maths.t) (sw : Switches).
Implicit Types (this : Animation.t) (f : number) (state : _IAnimationState.t).

(** X4.  On a float track, between a key that does not carry the STEP flag
    and the next one, in the CYCLE, CONSTANT and YOYO modes: the value is the
    linear blend of the two key values at the gradient
    [(frame - start.frame) / (end.frame - start.frame)], passed through the
    easing function when there is one; when the left key has an out-tangent
    and the right key an in-tangent it is the Hermite blend, the two tangents
    scaled by the distance between the frames.  One tangent alone is not
    used. *)
Theorem float_segment this f state (k : nat) startKey endKey (s e : number) :
  Animation.dataType this = Animation.ANIMATIONTYPE_FLOAT ->
  Animation._keys this !! k = Some startKey ->
  Animation._keys this !! S k = Some endKey ->
  IAnimationKey.value startKey = VNumber s ->
  IAnimationKey.value endKey = VNumber e ->
  isStep startKey = false ->
  nondecreasing (Animation._keys this) = true ->
  cursorInRange (Animation._keys this) state ->
  Animation.isCycleConstantYoyo (_IAnimationState.loopMode state) = true ->
  shortCircuits state = false ->
  le (IAnimationKey.frame startKey) f = true ->
  lt f (IAnimationKey.frame endKey) = true ->
  let frameDelta := (IAnimationKey.frame endKey - IAnimationKey.frame startKey)%float in
  let ratio := ((f - IAnimationKey.frame startKey) / frameDelta)%float in
  let gradient :=
    match Animation.getEasingFunction this with
    | Some ease => ease ratio
    | None => ratio
    end in
  (IAnimationKey.outTangent startKey = None \/ IAnimationKey.inTangent endKey = None ->
     fst (Animation._interpolate M sw this f state)
     = Returns (VNumber (Maths.Scalar_Lerp M s e gradient)))
  /\ (forall o i : number,
        IAnimationKey.outTangent startKey = Some (VNumber o) ->
        IAnimationKey.inTangent endKey = Some (VNumber i) ->
        fst (Animation._interpolate M sw this f state)
        = Returns (VNumber (Maths.Scalar_Hermite M s (o * frameDelta)%float e
                              (i * frameDelta)%float gradient))).
Proof.
intros Hdt Hs He Hvs Hve Hstep Hsorted Hcur Hloop Hsc Hle Hlt frameDelta ratio gradient.
assert (Hres : Animation.resolveKey (Animation._keys this) f (_IAnimationState.key state)
               = Returns (Z.of_nat k)) by (by eapply resolveKey_segment).
rewrite (_interpolate_resolved M sw this f state k startKey endKey Hsc Hres Hs He).
cbv zeta. rewrite Hstep. unfold Animation.interpolateSegment, Animation.loopSwitch.
rewrite Hdt, Hvs, Hve. cbn [Z.eqb Animation.ANIMATIONTYPE_FLOAT Animation._getKeyValue
  Animation.asNumber bind fst _IAnimationState.set_key _IAnimationState.loopMode].
rewrite Hloop. split.
- intros [-> | Hin]; [done|]. rewrite Hin. by destruct (IAnimationKey.outTangent startKey).
- intros o i -> ->. done.
Qed.

End FloatSegment.

Section Replay.
Import JsNumber JsNumberFacts.
Context (M : Maths.t) (sw : Switches).
Implicit Types (keys : list IAnimationKey.t) (f : number)
  (this : Animation.t) (state : _IAnimationState.t).

(** Where the first loop stops, the frame is not before the key. *)
Lemma walkLeft_stops keys f (n : nat) (key key' : Z) :
  Z.of_nat n = key + 1 ->
  Animation.walkLeft keys f n key = Returns key' ->
  -1 <= key' <= key
  /\ (key' = -1 \/ exists k, lookupZ keys key' = Some k
                             /\ lt f (IAnimationKey.frame k) = false).
Proof.
revert key. induction n as [|n IH]; intros key Hn; simpl.
- intros [= <-]. split; [lia|]. left. lia.
- destruct (lookupZ keys key) as [k|] eqn:Hk; [|done].
  destruct (lt f (IAnimationKey.frame k)) eqn:Hlt.
  + intros H. destruct (IH (key - 1) ltac:(lia) H) as [? ?]. split; [lia|done].
  + intros [= <-]. split; [lia|]. right. by exists k.
Qed.

(** Where the second loop stops, the frame is before the next key, and at or
    after the key it stopped on if it moved. *)
Lemma walkRight_stops keys f (n : nat) (key key' : Z) :
  Z.of_nat n = Z.of_nat (length keys) - 1 - key ->
  Animation.walkRight keys f n key = Returns key' ->
  key <= key' <= Z.of_nat (length keys) - 1
  /\ (key' = key \/ exists k, lookupZ keys key' = Some k
                              /\ ge f (IAnimationKey.frame k) = true)
  /\ (key' = Z.of_nat (length keys) - 1
      \/ exists k, lookupZ keys (key' + 1) = Some k
                   /\ ge f (IAnimationKey.frame k) = false).
Proof.
revert key. induction n as [|n IH]; intros key Hn; simpl.
- intros [= <-]. split; [lia|]. split; [by left|]. left. lia.
- destruct (lookupZ keys (key + 1)) as [k|] eqn:Hk; [|done].
  destruct (ge f (IAnimationKey.frame k)) eqn:Hge.
  + intros H. destruct (IH (key + 1) ltac:(lia) H) as (? & Hmoved & ?).
    split; [lia|]. split; [|done]. right.
    destruct Hmoved as [->|?]; [by exists k|done].
  + intros [= <-]. split; [lia|]. split; [by left|]. right. by exists k.
Qed.

(** The key the two loops end on is one they do not leave. *)
Lemma resolveKey_fixed keys f (c key : Z) :
  -1 <= c < Z.of_nat (length keys) ->
  Animation.resolveKey keys f c = Returns key ->
  Animation.resolveKey keys f key = Returns key.
Proof.
intros Hc. unfold Animation.resolveKey.
destruct (Animation.walkLeft keys f (Z.to_nat (c + 1)) c) as [k1|] eqn:E1; [|done].
cbn [bind]. intros E2.
destruct (walkLeft_stops keys f (Z.to_nat (c + 1)) c k1 ltac:(lia) E1) as (Hk1 & Hstop1).
destruct (walkRight_stops keys f (Z.to_nat (Z.of_nat (length keys) - 1 - k1)) k1 key
            ltac:(lia) E2) as (Hkey & Hmoved & Hstop2).
assert (Hleft : Animation.walkLeft keys f (Z.to_nat (key + 1)) key = Returns key).
{ destruct (decide (key = -1)) as [->|Hne]; [done|].
  assert (Hat : exists k, lookupZ keys key = Some k
                          /\ lt f (IAnimationKey.frame k) = false).
  { destruct Hmoved as [->|(k & Hk & Hge)].
    - destruct Hstop1 as [?|?]; [lia|done].
    - exists k. split; [done|]. by apply ge_not_lt. }
  destruct Hat as (k & Hk & Hlt). by apply (walkLeft_stay _ _ _ k). }
rewrite Hleft. cbn [bind].
destruct Hstop2 as [->|(k & Hk & Hge)].
- by replace (Z.to_nat _) with 0%nat by lia.
- assert (key + 1 < Z.of_nat (length keys)).
  { unfold lookupZ in Hk. destruct (Z.ltb_spec (key + 1) 0); [done|].
    apply lookup_lt_Some in Hk. lia. }
  replace (Z.to_nat (Z.of_nat (length keys) - 1 - key))
    with (S (Z.to_nat (Z.of_nat (length keys) - 2 - key))) by lia.
  by apply (walkRight_stay _ _ _ _ k).
Qed.

(** The [switch] on the data type answers the same on the cursor it left. *)
Lemma interpolateSegment_again this startKey endKey (frameDelta gradient : number) state :
  Animation.interpolateSegment M sw this startKey endKey frameDelta gradient
    (snd (Animation.interpolateSegment M sw this startKey endKey frameDelta gradient state))
  = Animation.interpolateSegment M sw this startKey endKey frameDelta gradient state.
Proof.
unfold Animation.interpolateSegment.
repeat (match goal with
        | |- context [Animation.dataType this =? ?c] =>
            destruct (Animation.dataType this =? c); [done|]
        end).
destruct (Animation.dataType this =? Animation.ANIMATIONTYPE_MATRIX); [|done].
destruct (Animation.isCycleConstantYoyo (_IAnimationState.loopMode state)) eqn:Hloop.
- destruct (AllowMatricesInterpolation sw); [|cbn [snd]; by rewrite Hloop].
  destruct (Animation.asMatrix (Animation._getKeyValue (IAnimationKey.value startKey)))
    as [s|]; [|cbn [snd]; by rewrite Hloop].
  destruct (Animation.asMatrix (Animation._getKeyValue (IAnimationKey.value endKey)))
    as [e|]; [|cbn [snd]; by rewrite Hloop].
  destruct (_IAnimationState.workValue state) eqn:Hw; cbn [snd].
  + cbn [_IAnimationState.set_workValue _IAnimationState.loopMode
         _IAnimationState.workValue]. by rewrite Hloop.
  + by rewrite Hloop, Hw.
- destruct (Animation.isLoopMode Animation.ANIMATIONLOOPMODE_RELATIVE
              (_IAnimationState.loopMode state)) eqn:Hrel;
    cbn [snd]; by rewrite Hloop, Hrel.
Qed.

Lemma interpolateSegment_cursor this startKey endKey (frameDelta gradient : number) state :
  let state' :=
    snd (Animation.interpolateSegment M sw this startKey endKey frameDelta gradient state) in
  _IAnimationState.loopMode state' = _IAnimationState.loopMode state
  /\ _IAnimationState.repeatCount state' = _IAnimationState.repeatCount state.
Proof.
unfold Animation.interpolateSegment.
repeat case_match; done.
Qed.

Lemma set_key_same state (key : Z) :
  _IAnimationState.key state = key -> _IAnimationState.set_key key state = state.
Proof. destruct state. simpl. by intros ->. Qed.

(** X3.  A call made again at the same frame with the cursor the first call
    left returns the same value and leaves the cursor as it is, whatever the
    order of the frames. *)
Theorem interpolate_twice this f state :
  cursorInRange (Animation._keys this) state ->
  Animation._interpolate M sw this f (snd (Animation._interpolate M sw this f state))
  = Animation._interpolate M sw this f state.
Proof.
intros Hc. unfold cursorInRange in Hc. unfold Animation._interpolate at 2 3.
destruct (_ && _) eqn:Hsc.
{ unfold Animation._interpolate. cbn [snd]. by rewrite Hsc. }
destruct (Animation.resolveKey _ _ _) as [key|e] eqn:Hres.
2:{ unfold Animation._interpolate. cbn [snd]. by rewrite Hsc, Hres. }
pose proof (resolveKey_fixed _ _ _ _ Hc Hres) as Hfix.
set (st0 := _IAnimationState.set_key key state).
assert (Hunfold : forall st,
          _IAnimationState.key st = key ->
          _IAnimationState.loopMode st = _IAnimationState.loopMode state ->
          _IAnimationState.repeatCount st = _IAnimationState.repeatCount state ->
          Animation._interpolate M sw this f st
          = (if key <? 0 then (Animation.keyValueAt (Animation._keys this) 0, st)
             else if key + 1 >? Z.of_nat (length (Animation._keys this)) - 1
             then (Animation.keyValueAt (Animation._keys this)
                     (Z.of_nat (length (Animation._keys this)) - 1), st)
             else
               match lookupZ (Animation._keys this) key,
                     lookupZ (Animation._keys this) (key + 1) with
               | Some startKey, Some endKey =>
                   if isStep startKey then
                     if JsNumber.gt (IAnimationKey.frame endKey) f
                     then (Returns (Animation._getKeyValue (IAnimationKey.value startKey)), st)
                     else (Returns (Animation._getKeyValue (IAnimationKey.value endKey)), st)
                   else
                     Animation.interpolateSegment M sw this startKey endKey
                       (IAnimationKey.frame endKey - IAnimationKey.frame startKey)%float
                       match Animation.getEasingFunction this with
                       | Some ease =>
                           ease ((f - IAnimationKey.frame startKey)
                                 / (IAnimationKey.frame endKey
                                    - IAnimationKey.frame startKey))%float
                       | None =>
                           ((f - IAnimationKey.frame startKey)
                            / (IAnimationKey.frame endKey - IAnimationKey.frame startKey))%float
                       end st
               | _, _ => (Throws TypeError, st)
               end)).
{ intros st Hk Hl Hr. unfold Animation._interpolate. rewrite Hl, Hr, Hsc, Hk, Hfix.
  by rewrite (set_key_same st key Hk). }
assert (H0 : Animation._interpolate M sw this f st0
             = (if key <? 0 then (Animation.keyValueAt (Animation._keys this) 0, st0)
                else if key + 1 >? Z.of_nat (length (Animation._keys this)) - 1
                then (Animation.keyValueAt (Animation._keys this)
                        (Z.of_nat (length (Animation._keys this)) - 1), st0)
                else
                  match lookupZ (Animation._keys this) key,
                        lookupZ (Animation._keys this) (key + 1) with
                  | Some startKey, Some endKey =>
                      if isStep startKey then
                        if JsNumber.gt (IAnimationKey.frame endKey) f
                        then (Returns (Animation._getKeyValue (IAnimationKey.value startKey)), st0)
                        else (Returns (Animation._getKeyValue (IAnimationKey.value endKey)), st0)
                      else
                        Animation.interpolateSegment M sw this startKey endKey
                          (IAnimationKey.frame endKey - IAnimationKey.frame startKey)%float
                          match Animation.getEasingFunction this with
                          | Some ease =>
                              ease ((f - IAnimationKey.frame startKey)
                                    / (IAnimationKey.frame endKey
                                       - IAnimationKey.frame startKey))%float
                          | None =>
                              ((f - IAnimationKey.frame startKey)
                               / (IAnimationKey.frame endKey
                                  - IAnimationKey.frame startKey))%float
                          end st0
                  | _, _ => (Throws TypeError, st0)
                  end)).
{ by apply Hunfold. }
cbv zeta. fold st0.
destruct (key <? 0); [cbn [snd]; by rewrite H0|].
destruct (key + 1 >? _); [cbn [snd]; by rewrite H0|].
destruct (lookupZ _ key) as [startKey|]; [|cbn [snd]; by rewrite H0].
destruct (lookupZ _ (key + 1)) as [endKey|]; [|cbn [snd]; by rewrite H0].
destruct (isStep startKey).
{ destruct (JsNumber.gt (IAnimationKey.frame endKey) f); cbn [snd]; by rewrite H0. }
destruct (interpolateSegment_cursor this startKey endKey
            (IAnimationKey.frame endKey - IAnimationKey.frame startKey)%float
            match Animation.getEasingFunction this with
            | Some ease =>
                ease ((f - IAnimationKey.frame startKey)
                      / (IAnimationKey.frame endKey - IAnimationKey.frame startKey))%float
            | None =>
                ((f - IAnimationKey.frame startKey)
                 / (IAnimationKey.frame endKey - IAnimationKey.frame startKey))%float
            end st0) as [Hl Hr].
rewrite Hunfold; [|by rewrite interpolateSegment_key|done..].
apply interpolateSegment_again.
Qed.

End Replay.

(** ** The registries: highest frame, ranges, events *)

Section HighestFrame.
Import JsNumber JsNumberFacts.

(** The loop of [getHighestFrame], from any value of [ret] that is not
    [NaN]. *)
Lemma highest_fold (keys : list IAnimationKey.t) (r0 : number) :
  isNaN r0 = false ->
  let ret := fold_left (fun ret k => if lt ret (IAnimationKey.frame k)
                                    then IAnimationKey.frame k else ret) keys r0 in
  isNaN ret = false
  /\ lt ret r0 = false
  /\ (forall k, In k keys -> lt ret (IAnimationKey.frame k) = false)
  /\ (ret = r0 \/ exists k, In k keys /\ ret = IAnimationKey.frame k).
Proof.
revert r0. induction keys as [|k rest IH]; intros r0 Hr0; cbn [fold_left].
- split; [done|]. split; [|split; [done|by left]].
  apply ge_not_lt. unfold ge. by apply le_refl_notNaN.
- set (r1 := if lt r0 (IAnimationKey.frame k) then IAnimationKey.frame k else r0).
  assert (Hr1 : isNaN r1 = false /\ le r0 r1 = true
                /\ lt r1 (IAnimationKey.frame k) = false).
  { unfold r1. destruct (lt r0 (IAnimationKey.frame k)) eqn:E.
    - destruct (lt_defined _ _ E) as [_ Hk]. split; [done|]. split; [by apply lt_le|].
      apply ge_not_lt. unfold ge. by apply le_refl_notNaN.
    - split; [done|]. split; [by apply le_refl_notNaN|done]. }
  destruct Hr1 as (Hn1 & Hle1 & Hk1).
  destruct (IH r1 Hn1) as (Hn & Hlt & Hall & Hfrom).
  set (ret := fold_left _ rest r1) in *.
  assert (Hle : le r1 ret = true) by (by apply (not_lt_ge _ _ Hn Hn1)).
  split; [done|]. split; [|split].
  + apply ge_not_lt. unfold ge. by eapply le_trans.
  + intros z [<-|Hz]; [|by apply Hall].
    destruct (lt ret (IAnimationKey.frame k)) eqn:E; [|done].
    pose proof (le_lt_trans _ _ _ Hle E). congruence.
  + destruct Hfrom as [Hret|(z & Hz & Hret)].
    * rewrite Hret. unfold r1. destruct (lt r0 (IAnimationKey.frame k)).
      -- right. exists k. split; [by left|done].
      -- by left.
    * right. exists z. split; [by right|done].
Qed.


End HighestFrame.

Section Ranges.
Import JsNumber JsNumberFacts.

Lemma ge_nan (x : number) : ge x nan = false.
Proof. unfold ge, le. by rewrite FloatAxioms.leb_spec. Qed.

(** The loop of [deleteRange] deletes no key when the bounds are
    [undefined]. *)
Lemma deleteRangeLoop_undefined (n : nat) (keys : list IAnimationKey.t) :
  Animation.deleteRangeLoop nan nan n keys = keys.
Proof.
induction n as [|n IH]; [done|]. simpl. destruct (keys !! n) as [k|]; [|done].
by rewrite ge_nan.
Qed.

Ltac ranges_cases this name :=
  unfold Animation.getRange, Animation.createRange, Animation.deleteRange,
    Dictionary.get, Dictionary.truthy;
  destruct (Animation._ranges this !! name) as [[r|]|] eqn:Eown;
  destruct (Animation._rangesPrototype this) eqn:Eproto;
  destruct (Dictionary.inherited name) eqn:Einh;
  cbn [Animation._ranges Animation._rangesPrototype Animation.set_ranges
       Animation.set_keys Animation.set_rangesPrototype Animation._keys];
  rewrite ?Eproto.

(** X7.  [createRange] under a name where [this._ranges[name]] is falsy (no
    property or a null one, and no inherited member) makes [getRange] answer
    the new range, named after its entry.  Where it is truthy, [createRange]
    changes nothing: the name holds a range, or [Object.prototype] has a
    member under it, so that no range called [constructor] or [toString] can
    be created on a new track.  The other names and the keys are untouched. *)
Theorem createRange_getRange (this : Animation.t) (name : string) (from to : number) :
  (Dictionary.truthy (Animation.getRange this name) = false ->
     Animation.getRange (Animation.createRange this name from to) name
     = Dictionary.Own (Some (AnimationRange.mk name from to)))
  /\ (Dictionary.truthy (Animation.getRange this name) = true ->
        Animation.createRange this name from to = this)
  /\ (forall other, other <> name ->
        Animation.getRange (Animation.createRange this name from to) other
        = Animation.getRange this other)
  /\ Animation._keys (Animation.createRange this name from to) = Animation._keys this
  /\ (forall uid n targetProperty framePerSecond dataType loopMode enableBlending,
        Dictionary.inherited name = true ->
        Animation.createRange
          (Animation.new uid n targetProperty framePerSecond dataType loopMode
             enableBlending) name from to
        = Animation.new uid n targetProperty framePerSecond dataType loopMode
            enableBlending).
Proof.
split; [|split; [|split; [|split]]].
- ranges_cases this name; try done; intros _; by rewrite lookup_insert_eq.
- ranges_cases this name; done.
- intros other Hne. ranges_cases this name; try done; by rewrite lookup_insert_ne.
- ranges_cases this name; done.
- intros uid n tp fps dt lm eb Hinh.
  unfold Animation.createRange, Animation.new, Dictionary.get.
  cbn [Animation._ranges Animation._rangesPrototype]. by rewrite lookup_empty, Hinh.
Qed.


End Ranges.

Section EventComposition.
Import JsNumber JsNumberFacts.
Context (sort : ArraySort.t).
Hypothesis sort_conforms : ArraySort.conforms sort.

Lemma filter_Permutation_proper (p : AnimationEvent.t -> bool) (l1 l2 : list AnimationEvent.t) :
  l1 ≡ₚ l2 -> List.filter p l1 ≡ₚ List.filter p l2.
Proof.
induction 1 as [|x l1 l2 _ IH|x y l|l1 l2 l3 _ IH1 _ IH2]; simpl.
- done.
- destruct (p x); [by constructor|done].
- destruct (p x), (p y); try done. apply Permutation_swap.
- by etrans.
Qed.

(** X9.  Adding an event and then removing the events of its frame leaves
    the events that removing them from the first list leaves, up to their
    order.  An event whose frame is [NaN] is never removed: no frame is
    strictly equal to it. *)
Theorem addEvent_then_removeEvents (this : Animation.t) (event : AnimationEvent.t) :
  (isNaN (AnimationEvent.frame event) = false ->
     Animation._events
       (Animation.removeEvents (Animation.addEvent sort this event)
          (AnimationEvent.frame event))
     ≡ₚ Animation._events (Animation.removeEvents this (AnimationEvent.frame event)))
  /\ (isNaN (AnimationEvent.frame event) = true ->
      forall frame,
        In event (Animation._events
                    (Animation.removeEvents (Animation.addEvent sort this event) frame))).
Proof using sort_conforms.
pose proof (addEvent_Permutation sort sort_conforms this event) as Hadd.
split.
- intros Hnan. unfold Animation.removeEvents.
  rewrite !removeEventsLoop_filter by done. rewrite !take_0, !drop_0. cbn [app].
  cbn [Animation._events Animation.set_events].
  rewrite (filter_Permutation_proper _ _ _ Hadd), List.filter_app. cbn [List.filter].
  unfold isNaN in Hnan. apply negb_false_iff in Hnan.
  unfold sameFrame at 2. unfold strictEq. rewrite Hnan. simpl. by rewrite app_nil_r.
- intros Hnan frame. unfold Animation.removeEvents.
  rewrite removeEventsLoop_filter by done. rewrite take_0, drop_0. cbn [app].
  cbn [Animation._events Animation.set_events].
  apply List.filter_In. split.
  + apply list_elem_of_In. rewrite Hadd. apply list_elem_of_In, in_app_iff. right. by left.
  + unfold sameFrame. apply negb_true_iff.
    destruct (strictEq (AnimationEvent.frame event) frame) eqn:E; [|done].
    rewrite strictEq_cmp in E. destruct (cmp _ _) as [c|] eqn:Ec; [|done].
    destruct (cmp_operands_defined _ _ _ Ec). congruence.
Qed.

End EventComposition.

(** ** The round trip of the serializer, key by key *)

Section KeyRoundTrip.

Ltac typed_slot H :=
  match type of H with
  | slotOfType _ ?x = true =>
      destruct x as [[]|]; try (vm_compute in H; discriminate H); clear H
  end.

Lemma Returns_key_neq (k1 k2 : IAnimationKey.t) :
  absent (IAnimationKey.inTangent k1) <> absent (IAnimationKey.inTangent k2)
  \/ absent (IAnimationKey.outTangent k1) <> absent (IAnimationKey.outTangent k2)
  \/ absent (IAnimationKey.interpolation k1) <> absent (IAnimationKey.interpolation k2)
  \/ match IAnimationKey.interpolation k1, IAnimationKey.interpolation k2 with
     | Some (InterpNumber _), Some (InterpColor4FromArray _)
     | Some (InterpColor4FromArray _), Some (InterpNumber _) => True
     | _, _ => False
     end ->
  Returns k1 <> Returns k2.
Proof.
intros H E. apply Returns_inj in E. subst k2.
destruct H as [H|[H|[H|H]]]; try done.
by destruct (IAnimationKey.interpolation k1) as [[]|].
Qed.

Ltac eta_values :=
  repeat match goal with
         | v : Vector2 |- _ => destruct v
         | v : Vector3 |- _ => destruct v
         | v : Quaternion |- _ => destruct v
         | v : Color3 |- _ => destruct v
         | v : Color4 |- _ => destruct v
         | v : Size |- _ => destruct v
         end.

Ltac settle :=
  let E := fresh "E" in
  eta_values; split; intros E;
  [ first [ reflexivity
          | discriminate E
          | exfalso; revert E; apply Returns_key_neq; cbn; intuition discriminate ]
  | first [ reflexivity | discriminate E
          | rewrite ?andb_false_r in E; discriminate E ] ].

Ltac settle_truthy :=
  unfold roundTripKey, survivesRoundTrip, truthySlot; cbn;
  repeat (case_match; simplify_eq; cbn); settle.

(** The keys the round trip gives back unchanged, data type by data type. *)
Lemma roundTripKey_survives (dataType : Z) (k : IAnimationKey.t) :
  wellTypedKey dataType k = true -> wellFormedKey k = true ->
  (roundTripKey dataType k = Returns k <-> survivesRoundTrip dataType k = true).
Proof.
unfold wellTypedKey, wellFormedKey. destruct k as [f v i o p].
cbn [IAnimationKey.value IAnimationKey.inTangent IAnimationKey.outTangent].
intros [[Hv Hi]%andb_true_iff Ho]%andb_true_iff [[Wv Wi]%andb_true_iff Wo]%andb_true_iff.
apply Z.eqb_eq in Hv. subst dataType.
destruct v as [n|v|v|q|m|c|c|sz].
- typed_slot Hi; typed_slot Ho; destruct p as [[]|]; settle.
- settle.
- typed_slot Hi; typed_slot Ho; destruct p as [[]|]; first [settle | settle_truthy].
- typed_slot Hi; typed_slot Ho; destruct p as [[]|]; first [settle | settle_truthy].
- destruct m as [es]. cbn in Wv.
  do 17 (destruct es as [|? es]; try discriminate Wv).
  typed_slot Hi; typed_slot Ho; destruct p as [[]|]; first [settle | settle_truthy].
- typed_slot Hi; typed_slot Ho; destruct p as [[]|]; first [settle | settle_truthy].
- typed_slot Hi; typed_slot Ho; destruct p as [[]|]; first [settle | settle_truthy].
- settle.
Qed.

(** X10.  Which keys the serializer and the parser give back unchanged, for
    a key whose value and tangents are instances of the data type (a matrix
    having sixteen entries).  Float: all but the keys with an out-tangent and
    an interpolation flag and no in-tangent.  Vector3 and Color3: the same,
    provided the flag, if any, is truthy (a flag equal to 0 is dropped).
    Color4: the keys without a flag.  Quaternion and Matrix: the keys without
    tangents and without a flag.  Vector2 and Size: none. *)
Theorem serializeKey_parseKey (dataType : Z) (k : IAnimationKey.t) :
  wellTypedKey dataType k = true -> wellFormedKey k = true ->
  (roundTripKey dataType k = Returns k <-> survivesRoundTrip dataType k = true).
Proof. apply roundTripKey_survives. Qed.
End KeyRoundTrip.

Section TrackRoundTrip.

Lemma roundTripKeys (dataType : Z) (keys : list IAnimationKey.t) :
  Forall (fun k => roundTripKey dataType k = Returns k) keys ->
  (let* serialized := Animation.serializeKeys dataType keys in
   Animation.parseKeys dataType serialized) = Returns keys.
Proof.
induction 1 as [|k rest Hk _ IH]; [done|]. cbn [Animation.serializeKeys].
unfold roundTripKey in Hk.
destruct (Animation.serializeKey dataType k) as [sk|]; [|done]. cbn [bind] in *.
destruct (Animation.serializeKeys dataType rest) as [srest|]; [|done]. cbn [bind] in *.
cbn [Animation.parseKeys]. by rewrite Hk, IH.
Qed.

Lemma createRange_fold (ranges : list Animation.SerializedRange.t) (a : Animation.t) :
  Animation._rangesPrototype a = Dictionary.ObjectPrototype ->
  fold_left (fun animation data =>
               Animation.createRange animation (Animation.SerializedRange.name data)
                 (Animation.SerializedRange.from data) (Animation.SerializedRange.to data))
            ranges a
  = Animation.set_ranges (fold_left createRangeIn ranges (Animation._ranges a)) a.
Proof.
revert a. induction ranges as [|data rest IH]; intros a Hproto; cbn [fold_left].
- by destruct a.
- rewrite IH.
  + unfold Animation.createRange, createRangeIn. rewrite Hproto.
    by destruct (Dictionary.truthy _); destruct a.
  + unfold Animation.createRange. by destruct (Dictionary.truthy _).
Qed.

Lemma createRangeIn_lookup (entries : list (string * option AnimationRange.t))
    (acc : gmap string (option AnimationRange.t)) (n : string) :
  NoDup entries.*1 ->
  fold_left createRangeIn (omap serializeEntry entries) acc !! n
  = let restoredEntry :=
      match (list_to_map entries : gmap string (option AnimationRange.t)) !! n with
      | Some (Some source) =>
          Some (AnimationRange.mk n (AnimationRange.from source) (AnimationRange.to source))
      | _ => None
      end in
    match acc !! n with
    | Some (Some r) => Some (Some r)
    | Some None =>
        match restoredEntry with Some r => Some (Some r) | None => Some None end
    | None =>
        match restoredEntry with
        | Some r => if Dictionary.inherited n then None else Some (Some r)
        | None => None
        end
    end.
Proof.
revert acc. induction entries as [|[n0 [r0|]] rest IH]; intros acc Hnd.
- simpl. rewrite lookup_empty. by destruct (acc !! n) as [[]|].
- apply NoDup_cons in Hnd as [Hn0 Hnd]. cbn [omap list_omap serializeEntry fst snd fold_left].
  rewrite IH by done. cbv zeta. rewrite list_to_map_cons. unfold createRangeIn.
  cbn [Animation.SerializedRange.name Animation.SerializedRange.from
       Animation.SerializedRange.to].
  unfold Dictionary.get, Dictionary.truthy.
  destruct (decide (n = n0)) as [->|Hne].
  + rewrite lookup_insert_eq. rewrite (not_elem_of_list_to_map_1 _ _ Hn0).
    destruct (acc !! n0) as [[r|]|] eqn:E; rewrite ?E, ?lookup_insert_eq; try done.
    destruct (Dictionary.inherited n0); by rewrite ?E, ?lookup_insert_eq.
  + rewrite (lookup_insert_ne _ n0 n) by done.
    destruct (acc !! n0) as [[r|]|] eqn:E; rewrite ?lookup_insert_ne by done; try done.
    destruct (Dictionary.inherited n0); by rewrite ?lookup_insert_ne by done.
- apply NoDup_cons in Hnd as [Hn0 Hnd]. cbn [omap list_omap serializeEntry fst snd].
  rewrite IH by done. cbv zeta. rewrite list_to_map_cons.
  destruct (decide (n = n0)) as [->|Hne].
  + rewrite lookup_insert_eq, (not_elem_of_list_to_map_1 _ _ Hn0). done.
  + by rewrite (lookup_insert_ne _ n0 n) by done.
Qed.

Lemma serializeRanges_restored (ranges : gmap string (option AnimationRange.t)) :
  fold_left createRangeIn (Animation.serializeRanges ranges) ∅ = restoredRanges ranges.
Proof.
apply map_eq. intros n. unfold restoredRanges. rewrite map_lookup_imap.
unfold Animation.serializeRanges.
change (fold_left createRangeIn (omap serializeEntry (map_to_list ranges)) ∅ !! n
        = ranges !! n ≫=
          (fun entry => match entry with
                        | Some source =>
                            if Dictionary.inherited n then None
                            else Some (Some (AnimationRange.mk n (AnimationRange.from source)
                                               (AnimationRange.to source)))
                        | None => None
                        end)).
rewrite createRangeIn_lookup by apply NoDup_fst_map_to_list. cbv zeta.
rewrite lookup_empty, list_to_map_to_list. by destruct (ranges !! n) as [[]|].
Qed.


End TrackRoundTrip.

Section UnsupportedRoundTrip.

Lemma serializeKeys_without_values (dataType : Z) (keys : list IAnimationKey.t) :
  dataType = Animation.ANIMATIONTYPE_VECTOR2 \/ dataType = Animation.ANIMATIONTYPE_SIZE ->
  Animation.serializeKeys dataType keys
  = Returns (List.map (fun k => Animation.SerializedKey.mk (IAnimationKey.frame k) None) keys).
Proof.
intros Hdt. induction keys as [|k rest IH]; [done|].
cbn [Animation.serializeKeys List.map]. rewrite IH.
by destruct Hdt as [-> | ->].
Qed.


End UnsupportedRoundTrip.

(** ** The additive converter on float tracks, and what a clone shares *)

Section AdditiveFloat.
Import Objects.
Import JsNumber JsNumberFacts.
Context (M : Maths.t) (sw : Switches).

Lemma get_put_eq (l : loc) (o : object) (s : store) : get (put l o s) l = Some o.
Proof. unfold get, put. simpl. by rewrite lookup_insert_eq. Qed.

Lemma keysOf_put (animation : Animation) (l : loc) (o : object) (s : store) elems k :
  keysOf s animation = Returns elems -> get s l = Some (OKey k) ->
  keysOf (put l o s) animation = Returns elems.
Proof.
unfold keysOf. destruct (_keys animation) as [arr|]; [|done].
destruct (get s arr) as [[]|] eqn:E; try done. intros H Hl.
rewrite get_put_ne; [by rewrite E|]. intros ->. congruence.
Qed.

Lemma subtractLoop_float (animation : Animation) (first : loc) (b : bookends) (p : prepared)
    (elems : list loc) (ks : list Key.t) (n index : nat) (s : store) :
  dataType animation = Animation.ANIMATIONTYPE_FLOAT ->
  keysOf s animation = Returns elems -> NoDup elems ->
  first ∈ elems ->
  (index + n = length elems)%nat ->
  (forall l, l ∈ elems -> exists k, get s l = Some (OKey k)) ->
  (forall (i : nat) l k, (index <= i)%nat -> elems !! i = Some l -> ks !! i = Some k ->
     get s l = Some (OKey k)) ->
  (forall i : nat, (i < length elems)%nat -> is_Some (ks !! i)) ->
  exists s',
    subtractLoop M n animation first b p index s = Returns s'
    /\ (forall (i : nat) l k, (index <= i)%nat -> elems !! i = Some l -> ks !! i = Some k ->
          get s' l = Some (OKey (subtracted (referenceValue b) k)))
    /\ (forall l, (forall i : nat, (index <= i)%nat -> elems !! i <> Some l) ->
          get s' l = get s l).
Proof.
intros Hdt. revert index s.
induction n as [|n IH]; intros index s Hk Hnd Hfirst Hn Hall Hrest Hks.
- exists s. split; [done|]. split; [|done].
  intros i l k Hi Hl _. apply lookup_lt_Some in Hl. lia.
- cbn [subtractLoop]. rewrite Hk. cbn [bind].
  destruct (lookup_lt_is_Some_2 elems index ltac:(lia)) as [l Hl]. rewrite Hl.
  destruct (Hks index ltac:(lia)) as [k Hkk].
  rewrite (Hrest index l k ltac:(lia) Hl Hkk).
  destruct (Hall first Hfirst) as [k0 Hk0]. unfold valueOf. rewrite Hk0. cbn [bind].
  rewrite Hdt. replace (negb (Animation.ANIMATIONTYPE_FLOAT =? Animation.ANIMATIONTYPE_FLOAT))
    with false by done.
  rewrite andb_false_r. cbn [andb]. rewrite subtractReference_float by done. cbn [bind].
  set (s1 := put l (OKey (Key.set_value _ k)) s).
  assert (Hl1 : get s l = Some (OKey k)) by (by apply (Hrest index)).
  destruct (IH (S index) s1) as (s' & Hrun & Hdone & Hother).
  + by eapply keysOf_put.
  + done.
  + done.
  + lia.
  + intros l' Hl'. destruct (decide (l' = l)) as [->|Hne].
    * eexists. apply get_put_eq.
    * unfold s1. rewrite get_put_ne by done. by apply Hall.
  + intros i l' k' Hi Hl' Hk'. unfold s1. rewrite get_put_ne; [apply (Hrest i); [lia|done..]|].
    intros ->. pose proof (NoDup_lookup _ _ _ _ Hnd Hl Hl'). lia.
  + done.
  + exists s'. split; [done|]. split.
    * intros i l' k' Hi Hl' Hk'. destruct (decide (i = index)) as [->|Hne].
      -- assert (l' = l) by congruence. assert (k' = k) by congruence. subst l' k'.
         rewrite Hother; [apply get_put_eq|].
         intros j Hj Hlj. pose proof (NoDup_lookup _ _ _ _ Hnd Hl Hlj). lia.
      -- apply (Hdone i); [lia|done..].
    * intros l' Hl'. rewrite Hother.
      -- unfold s1. apply get_put_ne. intros ->. by apply (Hl' index).
      -- intros j Hj. apply Hl'. lia.
Qed.

Lemma makeAdditive_float (animation : Animation) (referenceFrame : number)
    (clonedName : option string) (s : store) (arr : loc) (elems : list loc)
    (ks : list Key.t) (firstKey lastKey referenceKey : Key.t) (r : number) :
  _keys animation = Some arr -> get s arr = Some (OArray elems) ->
  Forall2 (fun l k => get s l = Some (OKey k)) elems ks -> NoDup elems ->
  (2 <= length elems)%nat ->
  dataType animation = Animation.ANIMATIONTYPE_FLOAT ->
  head ks = Some firstKey -> last ks = Some lastKey ->
  isNaN (Key.frame firstKey) = false -> isNaN (Key.frame lastKey) = false ->
  referenceAtEnds (clampReferenceFrame referenceFrame) firstKey lastKey = Some referenceKey ->
  Key.value referenceKey = RNumber r ->
  exists s',
    MakeAnimationAdditive M sw animation referenceFrame None false clonedName s
    = Returns (animation, s')
    /\ (forall (i : nat) l k, elems !! i = Some l -> ks !! i = Some k ->
          get s' l = Some (OKey (subtracted (RNumber r) k)))
    /\ (forall l, l ∉ elems -> get s' l = get s l).
Proof.
intros Hkeys Harr Hks Hnd Hlen Hdt Hfirst Hlast Hnf Hnl Href Hr.
pose proof (Forall2_length _ _ _ Hks) as Hlenks.
assert (Hkeysof : keysOf s animation = Returns elems).
{ unfold keysOf. by rewrite Hkeys, Harr. }
destruct elems as [|l0 elems']; [simpl in Hlen; lia|].
destruct ks as [|k0 ks']; [done|]. injection Hfirst as ->.
assert (Hl0 : get s l0 = Some (OKey firstKey)).
{ by apply Forall2_cons_1 in Hks as [? _]. }
set (elems := l0 :: elems') in *. set (ks := firstKey :: ks') in *.
destruct (lookup_lt_is_Some_2 elems (length elems - 1) ltac:(lia)) as [ll Hll].
assert (Hlastk : ks !! (length elems - 1)%nat = Some lastKey).
{ rewrite last_lookup in Hlast. rewrite <- Hlast. f_equal. lia. }
assert (Hllk : get s ll = Some (OKey lastKey)).
{ by eapply (Forall2_lookup_lr _ _ _ _ _ _ Hks). }
unfold MakeAnimationAdditive. cbn [bind]. rewrite Hkeysof. cbn [bind].
replace (Nat.eqb (length elems) 0) with false by (symmetry; apply Nat.eqb_neq; lia).
unfold makeAdditiveFrom. rewrite Hll. change (elems !! 0%nat) with (Some l0).
unfold valueOf, frameOf. rewrite Hl0, Hllk. cbn [bind].
replace (Nat.eqb (length elems) 1) with false by (symmetry; apply Nat.eqb_neq; lia).
assert (Hff : strictEq (Key.frame firstKey) (Key.frame firstKey) = true).
{ unfold isNaN in Hnf. by apply negb_false_iff in Hnf. }
assert (Hfl : strictEq (Key.frame lastKey) (Key.frame lastKey) = true).
{ unfold isNaN in Hnl. by apply negb_false_iff in Hnl. }
rewrite Hff, Hfl.
set (rf := clampReferenceFrame referenceFrame) in *.
unfold referenceAtEnds in Href.
assert (Hloop : forall b,
          referenceValue b = RNumber r -> referenceFound b = true ->
          fromKeyFound b = true -> toKeyFound b = true ->
          startIndex b = 0%nat -> endIndex b = (length elems - 1)%nat ->
          exists s',
            (let* bs := match findBookends M sw (length elems + 3) animation rf
                                (Key.frame firstKey) (Key.frame lastKey) 0 b s with
                        | Some result => result
                        | None => Throws OutOfFuel
                        end in
             let '(b, s) := bs in
             let* ps := prepareReference M animation b s in
             let '(p, s) := ps in
             let* s := subtractLoop M (endIndex b + 1 - startIndex b) animation l0 b p
                         (startIndex b) s in
             Returns (animation, s))
            = Returns (animation, s')
            /\ (forall (i : nat) l k, elems !! i = Some l -> ks !! i = Some k ->
                  get s' l = Some (OKey (subtracted (RNumber r) k)))
            /\ (forall l, l ∉ elems -> get s' l = get s l)).
{ intros b Hbr Hbf Hbfrom Hbto Hbs Hbe.
  rewrite (findBookends_found M sw _ _ _ _ _ _ _ _ elems) by done. cbn [bind].
  rewrite prepareReference_float by done. cbn [bind].
  rewrite Hbs, Hbe.
  replace (length elems - 1 + 1 - 0)%nat with (length elems) by lia.
  destruct (subtractLoop_float animation l0 b PreparedNone elems ks (length elems) 0 s)
    as (s' & Hrun & Hdone & Hother); try done.
  - by left.
  - intros l Hl. apply list_elem_of_lookup in Hl as [i Hi].
    destruct (Forall2_lookup_l _ _ _ _ _ Hks Hi) as (k & _ & ?). by exists k.
  - intros i l k _ Hl Hk. by eapply (Forall2_lookup_lr _ _ _ _ _ _ Hks).
  - intros i Hi. apply lookup_lt_is_Some. lia.
  - rewrite Hrun. cbn [bind]. exists s'. split; [done|]. rewrite Hbr in Hdone. split.
    + intros i l k Hl Hk. apply (Hdone i); [lia|done..].
    + intros l Hl. apply Hother. intros i _ Hi. apply Hl. by eapply list_elem_of_lookup_2. }
destruct (le rf (Key.frame firstKey)).
- injection Href as <-. rewrite Hr. cbn [cloneValue bind]. by apply Hloop.
- destruct (ge rf (Key.frame lastKey)); [|done]. injection Href as <-.
  cbn [bind]. rewrite Hr. cbn [cloneValue bind]. by apply Hloop.
Qed.

(** X13.  On a float track with at least two distinct key objects whose
    first and last frames are not [NaN], converted in place without a range,
    with a reference frame at or before the first key (the reference is then
    the first key's value) or at or after the last key (the last key's
    value), the reference being a number [r]: the call returns the same
    track, every key's value is overwritten with the difference between it
    and [r], frames and tangents are kept, and no other object changes. *)
Theorem additive_float_subtracts (animation : Animation) (referenceFrame : number)
    (clonedName : option string) (s : store) (arr : loc) (elems : list loc)
    (ks : list Key.t) (firstKey lastKey referenceKey : Key.t) (r : number) :
  _keys animation = Some arr -> get s arr = Some (OArray elems) ->
  Forall2 (fun l k => get s l = Some (OKey k)) elems ks -> NoDup elems ->
  (2 <= length elems)%nat ->
  dataType animation = Animation.ANIMATIONTYPE_FLOAT ->
  head ks = Some firstKey -> last ks = Some lastKey ->
  isNaN (Key.frame firstKey) = false -> isNaN (Key.frame lastKey) = false ->
  referenceAtEnds (clampReferenceFrame referenceFrame) firstKey lastKey = Some referenceKey ->
  Key.value referenceKey = RNumber r ->
  exists s',
    MakeAnimationAdditive M sw animation referenceFrame None false clonedName s
    = Returns (animation, s')
    /\ (forall (i : nat) l k, elems !! i = Some l -> ks !! i = Some k ->
          get s' l = Some (OKey (subtracted (RNumber r) k)))
    /\ (forall l, l ∉ elems -> get s' l = get s l).
Proof. apply makeAdditive_float. Qed.

Lemma clone_shares_keys (this c : Animation) (s s1 : store) (arr : loc) (elems : list loc) :
  wf s -> clone this s = Returns (c, s1) ->
  _keys this = Some arr -> get s arr = Some (OArray elems) ->
  dataType c = dataType this
  /\ (forall l o, get s l = Some o -> get s1 l = Some o)
  /\ exists arr', _keys c = Some arr' /\ arr' <> arr /\ get s1 arr' = Some (OArray elems).
Proof.
intros Hwf Hclone Hkeys Harr. unfold clone, newAnimation in Hclone. cbn [bind] in Hclone.
rewrite Hkeys in Hclone. unfold setKeys in Hclone.
set (s0 := mkStore (objects s) (next s) (_UniqueIdGenerator s + 1)) in *.
assert (Hwf0 : wf s0) by exact Hwf.
change (get s0 arr) with (get s arr) in Hclone. rewrite Harr in Hclone.
cbn [alloc bind] in Hclone.
set (s2 := mkStore _ _ _) in Hclone.
assert (Hs2 : s2 = (alloc (OArray elems) s0).2) by done.
destruct (cloneRanges (map_to_list (_ranges this)) ∅ s2) as [[ranges s3]|] eqn:Hranges;
  [|done].
cbn [bind] in Hclone. apply Returns_inj in Hclone. injection Hclone as <- <-.
assert (Hwf2 : wf s2) by (rewrite Hs2; by apply wf_alloc).
destruct (cloneRanges_spec _ _ _ _ _ Hwf2 Hranges) as (_ & _ & Hold & _).
split; [done|]. split.
- intros l o Hl. apply Hold. rewrite Hs2. by apply (get_alloc_old _ s0).
- exists (next s). split; [done|]. split.
  + intros <-. by rewrite (wf_fresh s (next s)) in Harr.
  + apply Hold. rewrite Hs2. apply (get_alloc_new (OArray elems) s0).
Qed.

(** X14.  With [cloneOriginal] the converter works on a clone, which has a
    key array of its own but shares the key objects of the source: under the
    conditions of the in-place conversion, the call returns another track,
    and the values read through the source track after the call are the
    differences too. *)
Theorem additive_clone_changes_source (animation c : Animation) (referenceFrame : number)
    (clonedName : option string) (s s1 : store) (arr : loc) (elems : list loc)
    (ks : list Key.t) (firstKey lastKey referenceKey : Key.t) (r : number) :
  wf s -> clone animation s = Returns (c, s1) ->
  _keys animation = Some arr -> get s arr = Some (OArray elems) ->
  Forall2 (fun l k => get s l = Some (OKey k)) elems ks -> NoDup elems ->
  (2 <= length elems)%nat ->
  dataType animation = Animation.ANIMATIONTYPE_FLOAT ->
  head ks = Some firstKey -> last ks = Some lastKey ->
  isNaN (Key.frame firstKey) = false -> isNaN (Key.frame lastKey) = false ->
  referenceAtEnds (clampReferenceFrame referenceFrame) firstKey lastKey = Some referenceKey ->
  Key.value referenceKey = RNumber r ->
  exists c' s',
    MakeAnimationAdditive M sw animation referenceFrame None true clonedName s
    = Returns (c', s')
    /\ _keys c' <> _keys animation
    /\ forall (i : nat) k, ks !! i = Some k ->
         keyValueAt s animation i = Some (Key.value k)
         /\ keyValueAt s' animation i
            = Some (RNumber (minus (Key.value k) (RNumber r)))
         /\ keyValueAt s' c' i = keyValueAt s' animation i.
Proof.
intros Hwf Hclone Hkeys Harr Hks Hnd Hlen Hdt Hfirst Hlast Hnf Hnl Href Hr.
destruct (clone_shares_keys _ _ _ _ _ _ Hwf Hclone Hkeys Harr)
  as (Hcdt & Hold & arr' & Hckeys & Hne & Harr').
set (c' := set_name match clonedName with
                    | Some n => if String.eqb n "" then name c else n
                    | None => name c
                    end c).
assert (Hks1 : Forall2 (fun l k => get s1 l = Some (OKey k)) elems ks).
{ eapply Forall2_impl; [exact Hks|]. intros l k Hl. by apply Hold. }
destruct (makeAdditive_float c' referenceFrame clonedName s1 arr' elems ks firstKey lastKey
            referenceKey r) as (s' & Hrun & Hdone & Hother); try done.
{ by rewrite <- Hdt, <- Hcdt. }
exists c', s'. split.
- unfold MakeAnimationAdditive in *. rewrite Hclone. cbn [bind] in *. exact Hrun.
- split; [simpl; rewrite Hckeys, Hkeys; congruence|].
  assert (Hnotin : forall a, (exists x, get s1 a = Some (OArray x)) -> a ∉ elems).
  { intros a [x Ha] Hin. apply list_elem_of_lookup in Hin as [i Hi].
    destruct (Forall2_lookup_l _ _ _ _ _ Hks1 Hi) as (k & _ & ?). congruence. }
  intros i k Hk.
  destruct (Forall2_lookup_r _ _ _ _ _ Hks Hk) as (l & Hl & Hlk).
  assert (Hsrc : keyAt s' animation i = Some l).
  { unfold keyAt. rewrite Hkeys, Hother, (Hold _ _ Harr); [done|].
    apply Hnotin. exists elems. by apply Hold. }
  assert (Hcl : keyAt s' c' i = Some l).
  { unfold keyAt. simpl. rewrite Hckeys, Hother, Harr'; [done|].
    apply Hnotin. by exists elems. }
  split; [|split].
  + unfold keyValueAt, keyAt. by rewrite Hkeys, Harr, Hl, Hlk.
  + unfold keyValueAt. by rewrite Hsrc, (Hdone i l k Hl Hk).
  + unfold keyValueAt. by rewrite Hsrc, Hcl.
Qed.

Lemma cloneRanges_counter (entries : list (string * option loc))
    (acc acc' : gmap string (option loc)) (s s' : store) :
  cloneRanges entries acc s = Returns (acc', s') ->
  _UniqueIdGenerator s' = _UniqueIdGenerator s.
Proof.
revert acc s. induction entries as [|[n [l|]] rest IH]; intros acc s; simpl.
- by intros [= <- <-].
- destruct (get s l) as [[| |r|]|]; try done.
  destruct (String.eqb n "__proto__"); [done|]. intros H. by rewrite (IH _ _ H).
- apply IH.
Qed.

(** X16.  [clone()] gives the copy the next unique id and advances the
    counter by one; the copy has the name, the property, the frame rate, the
    data type, the loop mode and the blending settings of the source, but
    neither its easing function nor its events. *)
Theorem clone_fields (this c : Animation) (s s' : store) :
  clone this s = Returns (c, s') ->
  uniqueId c = _UniqueIdGenerator s
  /\ _UniqueIdGenerator s' = _UniqueIdGenerator s + 1
  /\ name c = name this /\ targetProperty c = targetProperty this
  /\ framePerSecond c = framePerSecond this /\ dataType c = dataType this
  /\ loopMode c = loopMode this /\ enableBlending c = enableBlending this
  /\ blendingSpeed c = blendingSpeed this
  /\ _easingFunction c = None /\ _events c = [].
Proof.
unfold clone, newAnimation. cbn [bind].
set (s0 := mkStore (objects s) (next s) (_UniqueIdGenerator s + 1)).
set (c0 := mkAnimation _ _ _ _ _ _ _ _ _ _ _ _).
assert (Hkeys : forall c1 s1,
          match _keys this with
          | Some values => setKeys c0 values s0
          | None => Returns (c0, s0)
          end = Returns (c1, s1) ->
          _UniqueIdGenerator s1 = _UniqueIdGenerator s + 1
          /\ exists keys, c1 = mkAnimation (_UniqueIdGenerator s) (name this)
                             (targetProperty this) (framePerSecond this) (dataType this)
                             (loopMode this) (enableBlending this) (blendingSpeed this)
                             keys None [] ∅).
{ intros c1 s1. destruct (_keys this) as [values|].
  - unfold setKeys. destruct (get s0 values) as [[|elems| |]|]; try done.
    intros [= <- <-]. split; [done|]. by eexists.
  - intros [= <- <-]. split; [done|]. by eexists. }
destruct (match _keys this with
          | Some values => setKeys c0 values s0
          | None => Returns (c0, s0)
          end) as [[c1 s1]|]; [|done].
destruct (Hkeys c1 s1 eq_refl) as (Huid & keys & ->). cbn [bind].
destruct (cloneRanges (map_to_list (_ranges this)) ∅ s1) as [[ranges s2]|] eqn:Hranges;
  [|done].
cbn [bind]. intros [= <- <-]. apply cloneRanges_counter in Hranges.
rewrite Hranges, Huid. by repeat split.
Qed.

End AdditiveFloat.

(** ** Tracks made by [_PrepareAnimation] *)

Section PreparedTrack.
Import JsNumber JsNumberFacts.
Context (M : Maths.t) (sw : Switches) (numericObject : Value -> bool).

Lemma two_key_track_ends (this : Animation.t) (totalFrame : number) (from to : Value) :
  Animation._keys this
  = [IAnimationKey.mk 0%float from None None None;
     IAnimationKey.mk totalFrame to None None None] ->
  le 0%float totalFrame = true ->
  forall f,
    (lt f 0%float = true -> Animation.evaluate M sw this f = Returns from)
    /\ (ge f totalFrame = true -> Animation.evaluate M sw this f = Returns to).
Proof.
intros Hkeys Hle f. unfold Animation.evaluate.
assert (Hs : nondecreasing (Animation._keys this) = true).
{ rewrite Hkeys. simpl. by rewrite Hle. }
assert (Hc : cursorInRange (Animation._keys this)
               (_IAnimationState.mk 0 0%float None
                  (Some Animation.ANIMATIONLOOPMODE_CONSTANT) None None)).
{ rewrite Hkeys. unfold cursorInRange. simpl. lia. }
split; intros Hf.
- rewrite (_interpolate_before_first M sw this f _
             (IAnimationKey.mk 0%float from None None None)); try done.
  by rewrite Hkeys.
- rewrite (_interpolate_after_last M sw this f _
             (IAnimationKey.mk totalFrame to None None None)); try done.
  by rewrite Hkeys.
Qed.

(** X17.  [_PrepareAnimation] builds no track ([null]) from a number that is
    [NaN] or infinite, nor from a matrix that the numeric test rejects (there
    is no case for a matrix).  From every other [from] it builds a track: from
    a value that passes the numeric test, and from a quaternion, a vector, a
    colour or a size.  The track it builds has two keys, [from] at frame 0 and
    [to] at frame [totalFrame], the data type of [from] and the easing
    function passed; when [totalFrame] is not negative it evaluates to [from]
    before frame 0 and to [to] from [totalFrame] on. *)
Theorem PrepareAnimation_track (uid : Z) (name targetProperty : string)
    (framePerSecond totalFrame : number) (from to : Value) (loopMode : option Z)
    (easingFunction : option (number -> number)) :
  let prepared :=
    _PrepareAnimation numericObject uid name targetProperty framePerSecond totalFrame
      from to loopMode easingFunction in
  (forall n, from = VNumber n -> isFinite n = false -> prepared = None)
  /\ (forall m, from = VMatrix m -> numericObject from = false -> prepared = None)
  /\ (forall animation, prepared = Some animation ->
        Animation._keys animation
        = [IAnimationKey.mk 0%float from None None None;
           IAnimationKey.mk totalFrame to None None None]
        /\ Animation.dataType animation
           = (if isNumeric numericObject from then Animation.ANIMATIONTYPE_FLOAT
              else dataTypeOf from)
        /\ Animation.getEasingFunction animation = easingFunction
        /\ (le 0%float totalFrame = true ->
            forall f,
              (lt f 0%float = true -> Animation.evaluate M sw animation f = Returns from)
              /\ (ge f totalFrame = true ->
                  Animation.evaluate M sw animation f = Returns to)))
  /\ (isNumeric numericObject from = true
      \/ ((forall n, from <> VNumber n) /\ (forall m, from <> VMatrix m)) ->
      exists animation, prepared = Some animation).
Proof.
intros prepared. split; [|split; [|split]].
- intros n -> Hn. unfold prepared, _PrepareAnimation. cbn [isNumeric]. by rewrite Hn.
- intros m -> Hm. unfold prepared, _PrepareAnimation. cbn [isNumeric]. by rewrite Hm.
- intros animation Hprepared.
  assert (Hfields :
            Animation._keys animation
            = [IAnimationKey.mk 0%float from None None None;
               IAnimationKey.mk totalFrame to None None None]
            /\ Animation.dataType animation
               = (if isNumeric numericObject from then Animation.ANIMATIONTYPE_FLOAT
                  else dataTypeOf from)
            /\ Animation.getEasingFunction animation = easingFunction).
  { revert Hprepared. unfold prepared, _PrepareAnimation.
    destruct (isNumeric numericObject from).
    - intros [= <-]. by destruct easingFunction.
    - destruct from; try done; intros [= <-]; by destruct easingFunction. }
  destruct Hfields as (Hkeys & Hdt & Hease). repeat split; try done.
  + by apply (two_key_track_ends animation totalFrame from to).
  + by apply (two_key_track_ends animation totalFrame from to).
- unfold prepared, _PrepareAnimation. intros [Hnum|[Hn Hm]].
  + rewrite Hnum. eexists. reflexivity.
  + destruct (isNumeric numericObject from); [eexists; reflexivity|].
    destruct from; try (eexists; reflexivity);
      [by destruct (Hn n)|by destruct (Hm m)].
Qed.

End PreparedTrack.

Section AdditiveVector.
Import Objects.
Import JsNumber JsNumberFacts.
Context (M : Maths.t) (sw : Switches).

Lemma keysOf_put_value (animation : Animation) (l : loc) (o : object) (s : store) elems v :
  keysOf s animation = Returns elems -> get s l = Some (OMath v) ->
  keysOf (put l o s) animation = Returns elems.
Proof.
unfold keysOf. destruct (_keys animation) as [arr|]; [|done].
destruct (get s arr) as [[]|] eqn:E; try done. intros H Hl.
rewrite get_put_ne; [by rewrite E|]. intros ->. congruence.
Qed.

Lemma subtractReference_toRef (animation : Animation) (b : bookends) (p : prepared)
    (l lv lr : loc) (k : Key.t) (s : store) (v r : Value) :
  subtractedToRef (dataType animation) = true ->
  Key.value k = RObject lv -> referenceValue b = RObject lr ->
  get s lv = Some (OMath v) -> get s lr = Some (OMath r) ->
  dataTypeOf v = dataType animation -> dataTypeOf r = dataType animation ->
  subtractReference M animation b p l k s
  = Returns (put lv (OMath (subtractToRef M v r)) s).
Proof.
intros Hdt Hk Hb Hv Hr Tv Tr. unfold subtractReference. rewrite Hk, Hb, Hv, Hr.
unfold subtractedToRef in Hdt. rewrite <- Tv in *.
destruct v; try (vm_compute in Hdt; discriminate Hdt);
  destruct r; try (vm_compute in Tr; discriminate Tr); reflexivity.
Qed.

Lemma processed_S (ks : list Key.t) (index : nat) (k : Key.t) (l : loc) :
  ks !! index = Some k ->
  processed ks (S index) l = processed ks index l || sameValue (Key.value k) (RObject l).
Proof.
intros Hk. unfold processed. rewrite (take_S_r _ _ _ Hk), existsb_app. simpl.
by rewrite orb_false_r.
Qed.

Lemma processed_true (ks : list Key.t) (index : nat) (l : loc) :
  processed ks index l = true ->
  exists (j : nat) kj, (j < index)%nat /\ ks !! j = Some kj /\ Key.value kj = RObject l.
Proof.
unfold processed. rewrite existsb_exists. intros (kj & Hin & Hsame).
apply list_elem_of_In, list_elem_of_lookup in Hin as [j Hj].
apply lookup_take_Some in Hj as [Hj Hlt]. exists j, kj. split; [done|]. split; [done|].
unfold sameValue in Hsame. destruct (Key.value kj) as [|l']; [done|].
apply Nat.eqb_eq in Hsame. by subst.
Qed.

Lemma processed_intro (ks : list Key.t) (index j : nat) (kj : Key.t) (l : loc) :
  (j < index)%nat -> ks !! j = Some kj -> Key.value kj = RObject l ->
  processed ks index l = true.
Proof.
intros Hlt Hj Hv. unfold processed. apply existsb_exists. exists kj. split.
- apply list_elem_of_In, list_elem_of_lookup. exists j. by apply lookup_take_Some.
- rewrite Hv. simpl. apply Nat.eqb_refl.
Qed.

Section Loop.
Variables (animation : Animation) (first lv0 lr : loc) (b : bookends) (p : prepared)
  (elems : list loc) (ks : list Key.t) (k0 : Key.t) (vr : Value) (orig : loc -> Value).
Hypothesis Hdt : subtractedToRef (dataType animation) = true.
Hypothesis Hb : referenceValue b = RObject lr.
Hypothesis Hfirst : elems !! 0%nat = Some first.
Hypothesis Hk0 : ks !! 0%nat = Some k0.
Hypothesis Hv0 : Key.value k0 = RObject lv0.
Hypothesis Hlen : length ks = length elems.
Hypothesis Hvr : dataTypeOf vr = dataType animation.
Hypothesis Hvalues : forall (i : nat) k, ks !! i = Some k ->
  exists lv, Key.value k = RObject lv
             /\ dataTypeOf (orig lv) = dataType animation
             /\ lv <> lr /\ lv ∉ elems.
Hypothesis Hshare : forall (i j : nat) ki kj, (i < j)%nat ->
  ks !! i = Some ki -> ks !! j = Some kj ->
  Key.value ki = Key.value kj -> Key.value kj = RObject lv0.

Lemma subtractLoop_toRef (n index : nat) (s : store) :
  keysOf s animation = Returns elems ->
  (index + n = length elems)%nat ->
  (forall (i : nat) l k, elems !! i = Some l -> ks !! i = Some k ->
     get s l = Some (OKey k)) ->
  get s lr = Some (OMath vr) ->
  (forall (i : nat) k lv, ks !! i = Some k -> Key.value k = RObject lv ->
     get s lv = Some (OMath (if processed ks index lv
                             then subtractToRef M (orig lv) vr else orig lv))) ->
  exists s',
    subtractLoop M n animation first b p index s = Returns s'
    /\ (forall (i : nat) l k, elems !! i = Some l -> ks !! i = Some k ->
          get s' l = Some (OKey k))
    /\ get s' lr = Some (OMath vr)
    /\ (forall (i : nat) k lv, ks !! i = Some k -> Key.value k = RObject lv ->
          get s' lv = Some (OMath (subtractToRef M (orig lv) vr)))
    /\ (forall l, (forall (i : nat) k, ks !! i = Some k -> Key.value k <> RObject l) ->
          get s' l = get s l).
Proof using Hb Hdt Hfirst Hk0 Hlen Hshare Hv0 Hvalues Hvr.
revert index s. induction n as [|n IH]; intros index s Hk Hn Hkeys Hr Hinv.
- exists s. split; [done|]. split; [done|]. split; [done|]. split; [|done].
  intros i k lv Hi Hv. rewrite (Hinv i k lv Hi Hv).
  rewrite (processed_intro ks index i k lv); [done| |done..].
  apply lookup_lt_Some in Hi. lia.
- cbn [subtractLoop]. rewrite Hk. cbn [bind].
  destruct (lookup_lt_is_Some_2 elems index ltac:(lia)) as [l Hl]. rewrite Hl.
  destruct (lookup_lt_is_Some_2 ks index ltac:(lia)) as [k Hkk].
  rewrite (Hkeys index l k Hl Hkk).
  unfold valueOf. rewrite (Hkeys 0%nat first k0 Hfirst Hk0). cbn [bind]. rewrite Hv0.
  destruct (Hvalues index k Hkk) as (lv & Hv & Tv & Hlr & Hnotkey). rewrite Hv.
  assert (Hnf : negb (dataType animation =? Animation.ANIMATIONTYPE_FLOAT) = true).
  { unfold subtractedToRef in Hdt. clear -Hdt.
    destruct (Z.eqb_spec (dataType animation) Animation.ANIMATIONTYPE_FLOAT) as [E|]; [|done].
    rewrite E in Hdt. done. }
  rewrite Hnf, andb_true_r. cbn [sameValue].
  destruct (negb (Nat.eqb index 0) && Nat.eqb lv lv0) eqn:Hskip.
  + apply andb_true_iff in Hskip as [Hidx Hsame%Nat.eqb_eq]. subst lv.
    apply negb_true_iff, Nat.eqb_neq in Hidx.
    assert (Hp0 : processed ks index lv0 = true).
    { apply (processed_intro ks index 0 k0 lv0); [lia|done..]. }
    destruct (IH (S index) s) as (s' & Hrun & ?); try done; [lia| |by exists s'].
    intros i k' lv' Hi Hv'. rewrite (Hinv i k' lv' Hi Hv').
    rewrite (processed_S ks index k lv' Hkk), Hv. cbn [sameValue].
    destruct (Nat.eqb_spec lv0 lv') as [<-|Hne]; [by rewrite Hp0|by rewrite orb_false_r].
  + assert (Hnew : processed ks index lv = false).
    { destruct (processed ks index lv) eqn:Hp; [|done].
      apply processed_true in Hp as (j & kj & Hj & Hkj & Hvj).
      assert (Hlv : Key.value k = RObject lv0).
      { apply (Hshare j index kj k); [done..|congruence]. }
      assert (lv = lv0) by congruence. subst lv.
      rewrite Nat.eqb_refl, andb_true_r in Hskip.
      apply negb_false_iff, Nat.eqb_eq in Hskip. lia. }
    pose proof (Hinv index k lv Hkk Hv) as Hcur. rewrite Hnew in Hcur.
    rewrite (subtractReference_toRef animation b p l lv lr k s (orig lv) vr) by done.
    cbn [bind].
    set (s1 := put lv (OMath (subtractToRef M (orig lv) vr)) s).
    destruct (IH (S index) s1) as (s' & Hrun & Hkeys' & Hr' & Hdone & Hother).
    * by eapply keysOf_put_value.
    * lia.
    * intros i l' k' Hl' Hk'. unfold s1. rewrite get_put_ne; [by apply (Hkeys i)|].
      intros ->. apply Hnotkey. by eapply list_elem_of_lookup_2.
    * unfold s1. by rewrite get_put_ne.
    * intros i k' lv' Hi Hv'. rewrite (processed_S ks index k lv' Hkk), Hv. cbn [sameValue].
      destruct (Nat.eqb_spec lv lv') as [<-|Hne].
      -- rewrite orb_true_r. unfold s1. apply get_put_eq.
      -- rewrite orb_false_r. unfold s1. rewrite get_put_ne by done. by apply (Hinv i k').
    * exists s'. split; [done|]. split; [done|]. split; [done|]. split; [done|].
      intros l' Hl'. rewrite Hother by done. unfold s1. apply get_put_ne.
      intros ->. by apply (Hl' index k).
Qed.

End Loop.

Lemma prepareReference_toRef (animation : Animation) (b : bookends) (s : store) :
  subtractedToRef (dataType animation) = true ->
  prepareReference M animation b s = Returns (PreparedNone, s).
Proof.
intros Hdt. unfold prepareReference, subtractedToRef in *.
destruct (Z.eqb_spec (dataType animation) Animation.ANIMATIONTYPE_QUATERNION) as [E|_].
{ rewrite E in Hdt. done. }
destruct (Z.eqb_spec (dataType animation) Animation.ANIMATIONTYPE_MATRIX) as [E|_].
{ rewrite E in Hdt. done. }
done.
Qed.

(** X18. MakeAnimationAdditive in place on a Vector2, Vector3, Color3 or
    Color4 track of two keys or more, with the reference frame at or before
    the first key or at or after the last, the frames of these two keys not
    [NaN], every key's value an object of the track's type, and two keys
    sharing a value object only when it is the value object of the first key:
    the reference is a clone of that key's value, allocated at the next free
    location; afterwards every value object holds its old contents minus the
    reference, also the one the reference was cloned from, and a value object
    that later keys share with the first key is subtracted once.  The key
    objects are unchanged.  (A value object that two keys share and that is
    not the first key's is outside the statement.) *)
Theorem additive_vector_subtracts (animation : Animation) (referenceFrame : number)
    (clonedName : option string) (s : store) (arr : loc) (elems : list loc)
    (ks : list Key.t) (firstKey lastKey referenceKey : Key.t) (lr : loc) (vr : Value) :
  wf s ->
  _keys animation = Some arr -> get s arr = Some (OArray elems) ->
  Forall2 (fun l k => get s l = Some (OKey k)) elems ks ->
  (2 <= length elems)%nat ->
  subtractedToRef (dataType animation) = true ->
  head ks = Some firstKey -> last ks = Some lastKey ->
  isNaN (Key.frame firstKey) = false -> isNaN (Key.frame lastKey) = false ->
  referenceAtEnds (clampReferenceFrame referenceFrame) firstKey lastKey = Some referenceKey ->
  Key.value referenceKey = RObject lr -> get s lr = Some (OMath vr) ->
  (forall (i : nat) k, ks !! i = Some k ->
     exists lv v, Key.value k = RObject lv /\ get s lv = Some (OMath v)
                  /\ dataTypeOf v = dataType animation) ->
  (forall (i j : nat) ki kj, (i < j)%nat -> ks !! i = Some ki -> ks !! j = Some kj ->
     Key.value ki = Key.value kj -> Key.value kj = Key.value firstKey) ->
  exists s',
    MakeAnimationAdditive M sw animation referenceFrame None false clonedName s
    = Returns (animation, s')
    /\ (forall (i : nat) k lv v, ks !! i = Some k -> Key.value k = RObject lv ->
          get s lv = Some (OMath v) ->
          get s' lv = Some (OMath (subtractToRef M v vr)))
    /\ (forall (i : nat) l k, elems !! i = Some l -> ks !! i = Some k ->
          get s' l = Some (OKey k))
    /\ get s' (next s) = Some (OMath vr).
Proof.
intros Hwf Hkeys Harr Hks Hlen Hdt Hfirst Hlast Hnf Hnl Href Hrv Hrc Hvals Hshare.
pose proof (Forall2_length _ _ _ Hks) as Hlenks.
assert (Hkeysof : keysOf s animation = Returns elems).
{ unfold keysOf. by rewrite Hkeys, Harr. }
destruct elems as [|l0 elems']; [simpl in Hlen; lia|].
destruct ks as [|k0 ks']; [done|]. injection Hfirst as ->.
assert (Hl0 : get s l0 = Some (OKey firstKey)).
{ by apply Forall2_cons_1 in Hks as [? _]. }
set (elems := l0 :: elems') in *. set (ks := firstKey :: ks') in *.
destruct (lookup_lt_is_Some_2 elems (length elems - 1) ltac:(lia)) as [ll Hll].
assert (Hlastk : ks !! (length elems - 1)%nat = Some lastKey).
{ rewrite last_lookup in Hlast. rewrite <- Hlast. f_equal. lia. }
assert (Hllk : get s ll = Some (OKey lastKey)).
{ by eapply (Forall2_lookup_lr _ _ _ _ _ _ Hks). }
destruct (Hvals 0%nat firstKey eq_refl) as (lv0 & v0 & Hv0 & Hc0 & Ht0).
assert (Hvrt : dataTypeOf vr = dataType animation).
{ unfold referenceAtEnds in Href.
  assert (Hin : exists i : nat, ks !! i = Some referenceKey).
  { destruct (le _ _); [injection Href as <-; by exists 0%nat|].
    destruct (ge _ _); [|done]. injection Href as <-. by eexists. }
  destruct Hin as [i Hi]. destruct (Hvals i referenceKey Hi) as (lv & v & Hv & Hc & Ht).
  congruence. }
unfold MakeAnimationAdditive. cbn [bind]. rewrite Hkeysof. cbn [bind].
replace (Nat.eqb (length elems) 0) with false by (symmetry; apply Nat.eqb_neq; lia).
unfold makeAdditiveFrom. rewrite Hll. change (elems !! 0%nat) with (Some l0).
unfold valueOf, frameOf. rewrite Hl0, Hllk. cbn [bind].
replace (Nat.eqb (length elems) 1) with false by (symmetry; apply Nat.eqb_neq; lia).
assert (Hff : strictEq (Key.frame firstKey) (Key.frame firstKey) = true).
{ unfold isNaN in Hnf. by apply negb_false_iff in Hnf. }
assert (Hfl : strictEq (Key.frame lastKey) (Key.frame lastKey) = true).
{ unfold isNaN in Hnl. by apply negb_false_iff in Hnl. }
rewrite Hff, Hfl.
set (rf := clampReferenceFrame referenceFrame) in *.
set (s1 := (alloc (OMath vr) s).2).
assert (Hwf1 : wf s1) by (by apply wf_alloc).
assert (Hold : forall l o, get s l = Some o -> get s1 l = Some o).
{ intros l o Hl. by apply get_alloc_old. }
assert (Hloop : forall b,
          referenceValue b = RObject (next s) -> referenceFound b = true ->
          fromKeyFound b = true -> toKeyFound b = true ->
          startIndex b = 0%nat -> endIndex b = (length elems - 1)%nat ->
          exists s',
            (let* bs := match findBookends M sw (length elems + 3) animation rf
                                (Key.frame firstKey) (Key.frame lastKey) 0 b s1 with
                        | Some result => result
                        | None => Throws OutOfFuel
                        end in
             let '(b, s) := bs in
             let* ps := prepareReference M animation b s in
             let '(p, s) := ps in
             let* s := subtractLoop M (endIndex b + 1 - startIndex b) animation l0 b p
                         (startIndex b) s in
             Returns (animation, s))
            = Returns (animation, s')
            /\ (forall (i : nat) k lv v, ks !! i = Some k -> Key.value k = RObject lv ->
                  get s lv = Some (OMath v) ->
                  get s' lv = Some (OMath (subtractToRef M v vr)))
            /\ (forall (i : nat) l k, elems !! i = Some l -> ks !! i = Some k ->
                  get s' l = Some (OKey k))
            /\ get s' (next s) = Some (OMath vr)).
{ intros b Hbr Hbf Hbfrom Hbto Hbs Hbe.
  assert (Hk1 : keysOf s1 animation = Returns elems) by (by apply keysOf_alloc).
  rewrite (findBookends_found M sw _ _ _ _ _ _ _ _ elems) by done. cbn [bind].
  rewrite prepareReference_toRef by done. cbn [bind].
  rewrite Hbs, Hbe.
  replace (length elems - 1 + 1 - 0)%nat with (length elems) by lia.
  destruct (subtractLoop_toRef animation l0 lv0 (next s) b PreparedNone elems ks firstKey vr
              (contentsAt s) Hdt Hbr eq_refl eq_refl Hv0 (eq_sym Hlenks) Hvrt)
    with (n := length elems) (index := 0%nat) (s := s1)
    as (s' & Hrun & Hkeys' & Hr' & Hdone & _).
  - intros i k Hi. destruct (Hvals i k Hi) as (lv & v & Hv & Hc & Ht).
    exists lv. split; [done|]. unfold contentsAt. rewrite Hc. split; [done|]. split.
    + intros ->. by rewrite (wf_fresh s (next s)) in Hc.
    + intros Hin. apply list_elem_of_lookup in Hin as [j Hj].
      destruct (Forall2_lookup_l _ _ _ _ _ Hks Hj) as (k' & _ & ?). congruence.
  - intros i j ki kj Hij Hi Hj Heq. rewrite <- Hv0. by apply (Hshare i j ki kj).
  - done.
  - lia.
  - intros i l k Hl Hk. apply Hold. by eapply (Forall2_lookup_lr _ _ _ _ _ _ Hks).
  - apply (get_alloc_new (OMath vr) s).
  - intros i k lv Hi Hv. destruct (Hvals i k Hi) as (lv' & v & Hv' & Hc & Ht).
    assert (lv' = lv) by congruence. subst lv'.
    unfold processed. rewrite take_0. cbn [existsb]. unfold contentsAt. rewrite Hc.
    by apply Hold.
  - rewrite Hrun. cbn [bind]. exists s'. split; [done|]. split; [|by split].
    intros i k lv v Hi Hv Hc. rewrite (Hdone i k lv Hi Hv). unfold contentsAt.
    by rewrite Hc. }
unfold referenceAtEnds in Href.
destruct (le rf (Key.frame firstKey)).
- injection Href as <-. rewrite Hrv. cbn [cloneValue]. rewrite Hrc.
  change (alloc (OMath vr) s) with (next s, s1). cbn [bind]. by apply Hloop.
- destruct (ge rf (Key.frame lastKey)); [|done]. injection Href as <-.
  cbn [bind]. rewrite Hrv. cbn [cloneValue]. rewrite Hrc.
  change (alloc (OMath vr) s) with (next s, s1). cbn [bind]. by apply Hloop.
Qed.

End AdditiveVector.

(** ** The properties above on concrete tracks *)

(** X1, witness: keys at frames 0, 5, 10, 15 and 20; a call at frame 7 with
    the cursor on the last key leaves the cursor on the key at frame 5. *)
Lemma cursor_rests_on_last_key_witness :
  _IAnimationState.key
    (snd (Animation._interpolate ReferenceMaths.instance ReferenceMaths.switches
            Examples.fiveKeys 7%float Examples.cursorOnLast))
  = 1.
Proof.
rewrite (cursor_rests_on_last_key ReferenceMaths.instance ReferenceMaths.switches
           Examples.fiveKeys 7%float Examples.cursorOnLast eq_refl eq_refl eq_refl
           ltac:(split; [apply Z.leb_le|apply Z.ltb_lt]; reflexivity) eq_refl).
reflexivity.
Defined.

(** X2, witness: on the same track, the call at frame 7 answers the same from
    the first key and from the last. *)
Lemma cursor_key_is_a_cache_witness :
  Animation._interpolate ReferenceMaths.instance ReferenceMaths.switches
    Examples.fiveKeys 7%float (_IAnimationState.set_key 0 Examples.evaluateCursor)
  = Animation._interpolate ReferenceMaths.instance ReferenceMaths.switches
      Examples.fiveKeys 7%float (_IAnimationState.set_key 4 Examples.evaluateCursor).
Proof.
apply cursor_key_is_a_cache;
  first [reflexivity | split; [apply Z.leb_le|apply Z.ltb_lt]; reflexivity].
Defined.

(** X3, witness: the call at frame 7, made twice. *)
Lemma interpolate_twice_witness :
  Animation._interpolate ReferenceMaths.instance ReferenceMaths.switches Examples.fiveKeys
    7%float
    (snd (Animation._interpolate ReferenceMaths.instance ReferenceMaths.switches
            Examples.fiveKeys 7%float Examples.cursorOnLast))
  = Animation._interpolate ReferenceMaths.instance ReferenceMaths.switches
      Examples.fiveKeys 7%float Examples.cursorOnLast.
Proof.
apply interpolate_twice. split; [apply Z.leb_le|apply Z.ltb_lt]; reflexivity.
Defined.

(** X4, witness: the track (0, 1), (10, 2) at frame 5. *)
Lemma float_segment_witness :
  fst (Animation._interpolate ReferenceMaths.instance ReferenceMaths.switches
         Examples.twoKeys 5%float Examples.evaluateCursor)
  = Returns (VNumber (Maths.Scalar_Lerp ReferenceMaths.instance 1%float 2%float
                        ((5 - 0) / (10 - 0))%float)).
Proof.
apply (float_segment ReferenceMaths.instance ReferenceMaths.switches Examples.twoKeys
         5%float Examples.evaluateCursor 0 (Examples.floatKey 0 1) (Examples.floatKey 10 2)
         1%float 2%float eq_refl eq_refl eq_refl eq_refl eq_refl eq_refl eq_refl
         ltac:(split; [apply Z.leb_le|apply Z.ltb_lt]; reflexivity) eq_refl eq_refl eq_refl eq_refl).
left. reflexivity.
Defined.

(** X5, witness: the track (0, 1), (10, 2) evaluates to a number at frame 5. *)
Lemma evaluate_returns_witness :
  exists v,
    Animation.evaluate ReferenceMaths.instance ReferenceMaths.switches Examples.twoKeys
      5%float = Returns v
    /\ dataTypeOf v = Animation.ANIMATIONTYPE_FLOAT.
Proof.
apply (proj2 (evaluate_returns ReferenceMaths.instance ReferenceMaths.switches
                Examples.twoKeys 5%float)); [discriminate|reflexivity].
Defined.

(** X7, witness: on the track (0, 1), (10, 2), which has no range, a range
    "walk" is created and found; no range "constructor" is created, the name
    being the one of a member of [Object.prototype]. *)
Lemma createRange_getRange_witness :
  Animation.getRange (Animation.createRange Examples.twoKeys "walk" 0%float 10%float) "walk"
  = Dictionary.Own (Some (AnimationRange.mk "walk" 0%float 10%float))
  /\ Animation.getRange Examples.twoKeys "constructor" = Dictionary.Inherited "constructor"
  /\ Animation.createRange Examples.twoKeys "constructor" 0%float 10%float
     = Examples.twoKeys.
Proof.
split; [|split].
- by apply (proj1 (createRange_getRange Examples.twoKeys "walk" 0%float 10%float)).
- reflexivity.
- by apply (proj1 (proj2 (createRange_getRange Examples.twoKeys "constructor"
                            0%float 10%float))).
Defined.


(** X9, witness: events at frames 3, 1 and 3; one more at frame 3, then the
    events of frame 3 removed. *)
Lemma addEvent_then_removeEvents_witness :
  Animation._events
    (Animation.removeEvents
       (Animation.addEvent ArraySort.reference Examples.threeEvents (AnimationEvent.mk 3 3))
       3%float)
  ≡ₚ Animation._events (Animation.removeEvents Examples.threeEvents 3%float).
Proof.
apply (proj1 (addEvent_then_removeEvents ArraySort.reference reference_conforms
                Examples.threeEvents (AnimationEvent.mk 3 3))).
reflexivity.
Defined.

(** X10, witness: a float key with both tangents and the STEP flag comes
    back as it was. *)
Lemma serializeKey_parseKey_witness :
  roundTripKey Animation.ANIMATIONTYPE_FLOAT Examples.tangentStepKey
  = Returns Examples.tangentStepKey.
Proof.
apply (proj2 (serializeKey_parseKey Animation.ANIMATIONTYPE_FLOAT Examples.tangentStepKey
                eq_refl eq_refl)).
reflexivity.
Defined.



(** X13, witness: the track (0, 1), (10, 2) with reference frame 0: the
    reference is 1. *)
Lemma additive_float_subtracts_witness :
  exists s',
    Objects.MakeAnimationAdditive ReferenceMaths.instance ReferenceMaths.switches
      Examples.twoKeyTrack 0%float None false None Examples.twoKeyStore
    = Returns (Examples.twoKeyTrack, s')
    /\ (forall (i : nat) l k,
          [0%nat; 1%nat] !! i = Some l ->
          [Examples.firstStoredKey; Examples.lastStoredKey] !! i = Some k ->
          Objects.get s' l
          = Some (Objects.OKey (subtracted (Objects.RNumber 1%float) k)))
    /\ (forall l, l ∉ [0%nat; 1%nat] -> Objects.get s' l = Objects.get Examples.twoKeyStore l).
Proof.
apply (additive_float_subtracts ReferenceMaths.instance ReferenceMaths.switches
         Examples.twoKeyTrack 0%float None Examples.twoKeyStore 2%nat [0%nat; 1%nat]
         [Examples.firstStoredKey; Examples.lastStoredKey]
         Examples.firstStoredKey Examples.lastStoredKey Examples.firstStoredKey 1%float);
  try reflexivity.
- repeat constructor.
- apply NoDup_cons. split; [|apply NoDup_singleton]. intros H%list_elem_of_singleton.
  discriminate H.
Defined.

(** X14, witness: the same conversion on a clone; the values of the source
    track are 0 and 1 afterwards. *)
Lemma additive_clone_changes_source_witness :
  exists c' s',
    Objects.MakeAnimationAdditive ReferenceMaths.instance ReferenceMaths.switches
      Examples.twoKeyTrack 0%float None true None Examples.twoKeyStore
    = Returns (c', s')
    /\ Objects._keys c' <> Objects._keys Examples.twoKeyTrack
    /\ forall (i : nat) k,
         [Examples.firstStoredKey; Examples.lastStoredKey] !! i = Some k ->
         Objects.keyValueAt Examples.twoKeyStore Examples.twoKeyTrack i
         = Some (Objects.Key.value k)
         /\ Objects.keyValueAt s' Examples.twoKeyTrack i
            = Some (Objects.RNumber
                      (Objects.minus (Objects.Key.value k) (Objects.RNumber 1%float)))
         /\ Objects.keyValueAt s' c' i = Objects.keyValueAt s' Examples.twoKeyTrack i.
Proof.
assert (Hwf : Objects.wf Examples.twoKeyStore).
{ unfold Objects.wf. apply (bool_decide_unpack _). vm_compute. reflexivity. }
assert (E : Objects.clone Examples.twoKeyTrack Examples.twoKeyStore
            = Returns (Examples.clonedTrack, Examples.clonedStore)).
{ vm_compute. reflexivity. }
apply (additive_clone_changes_source ReferenceMaths.instance ReferenceMaths.switches
         Examples.twoKeyTrack Examples.clonedTrack 0%float None Examples.twoKeyStore
         Examples.clonedStore 2%nat [0%nat; 1%nat]
         [Examples.firstStoredKey; Examples.lastStoredKey]
         Examples.firstStoredKey Examples.lastStoredKey Examples.firstStoredKey 1%float
         Hwf E);
  try reflexivity.
- repeat constructor.
- apply NoDup_cons. split; [|apply NoDup_singleton]. intros H%list_elem_of_singleton.
  discriminate H.
Defined.

(** X15, witness: the track (0, 1), (10, 2) with a reference frame between
    its keys. *)
Lemma MakeAnimationAdditive_bound_witness :
  Objects.wf Examples.twoKeyStore
  /\ Objects.MakeAnimationAdditive ReferenceMaths.instance ReferenceMaths.switches
       Examples.twoKeyTrack 5%float None false None Examples.twoKeyStore
     <> Throws OutOfFuel.
Proof.
assert (Hwf : Objects.wf Examples.twoKeyStore).
{ unfold Objects.wf. apply (bool_decide_unpack _). vm_compute. reflexivity. }
split; [exact Hwf|]. by apply MakeAnimationAdditive_bound.
Defined.

(** X16, witness: the clone of the track (0, 1), (10, 2). *)
Lemma clone_fields_witness :
  Objects.uniqueId Examples.clonedTrack = 1
  /\ Objects._UniqueIdGenerator Examples.clonedStore = 1 + 1
  /\ Objects.name Examples.clonedTrack = "anim"
  /\ Objects._easingFunction Examples.clonedTrack = None
  /\ Objects._events Examples.clonedTrack = [].
Proof.
assert (E : Objects.clone Examples.twoKeyTrack Examples.twoKeyStore
            = Returns (Examples.clonedTrack, Examples.clonedStore)).
{ vm_compute. reflexivity. }
destruct (clone_fields _ _ _ _ E) as (H1 & H2 & H3 & _ & _ & _ & _ & _ & _ & H4 & H5).
by repeat split.
Defined.

(** X17, witness: the track prepared from 1 to 2 over 10 frames evaluates to
    2 at frame 12; a track is prepared from a colour with four components;
    nothing is prepared from an infinite number. *)
Lemma PrepareAnimation_track_witness :
  (exists animation,
     _PrepareAnimation (fun _ => false) 0 "anim" "position.x" 30%float 10%float
       (VNumber 1%float) (VNumber 2%float) None None = Some animation
     /\ Animation.evaluate ReferenceMaths.instance ReferenceMaths.switches animation
          12%float = Returns (VNumber 2%float))
  /\ (exists animation,
        _PrepareAnimation (fun _ => false) 0 "anim" "color" 30%float 10%float
          (VColor4 (MkColor4 0 0 0 1)) (VColor4 (MkColor4 1 1 1 1)) None None
        = Some animation)
  /\ _PrepareAnimation (fun _ => false) 0 "anim" "position.x" 30%float 10%float
       (VNumber infinity) (VNumber 2%float) None None = None.
Proof.
split; [|split].
- eexists. split; [reflexivity|].
  apply (proj1 (proj2 (proj2 (PrepareAnimation_track ReferenceMaths.instance
                         ReferenceMaths.switches (fun _ => false) 0 "anim" "position.x"
                         30%float 10%float (VNumber 1%float) (VNumber 2%float) None None)))
           _ eq_refl); reflexivity.
- apply (proj2 (proj2 (proj2 (PrepareAnimation_track ReferenceMaths.instance
                         ReferenceMaths.switches (fun _ => false) 0 "anim" "color"
                         30%float 10%float (VColor4 (MkColor4 0 0 0 1))
                         (VColor4 (MkColor4 1 1 1 1)) None None)))).
  right. split; intros; discriminate.
- by apply (proj1 (PrepareAnimation_track ReferenceMaths.instance ReferenceMaths.switches
                     (fun _ => false) 0 "anim" "position.x" 30%float 10%float
                     (VNumber infinity) (VNumber 2%float) None None) infinity).
Defined.

(** X18, witness: the Vector3 track (0, (1, 2, 3)), (10, (4, 6, 8)) with
    reference frame 0: the reference is (1, 2, 3). *)
Lemma additive_vector_subtracts_witness :
  exists s',
    Objects.MakeAnimationAdditive ReferenceMaths.instance ReferenceMaths.switches
      Examples.vectorTrack 0%float None false None Examples.vectorStore
    = Returns (Examples.vectorTrack, s')
    /\ (forall (i : nat) k lv v,
          [Examples.firstVectorKey; Examples.lastVectorKey] !! i = Some k ->
          Objects.Key.value k = Objects.RObject lv ->
          Objects.get Examples.vectorStore lv = Some (Objects.OMath v) ->
          Objects.get s' lv
          = Some (Objects.OMath (subtractToRef ReferenceMaths.instance v
                                   (VVector3 (MkVector3 1 2 3)))))
    /\ (forall (i : nat) l k,
          [2%nat; 3%nat] !! i = Some l ->
          [Examples.firstVectorKey; Examples.lastVectorKey] !! i = Some k ->
          Objects.get s' l = Some (Objects.OKey k))
    /\ Objects.get s' (Objects.next Examples.vectorStore)
       = Some (Objects.OMath (VVector3 (MkVector3 1 2 3))).
Proof.
apply (additive_vector_subtracts ReferenceMaths.instance ReferenceMaths.switches
         Examples.vectorTrack 0%float None Examples.vectorStore 4%nat [2%nat; 3%nat]
         [Examples.firstVectorKey; Examples.lastVectorKey]
         Examples.firstVectorKey Examples.lastVectorKey Examples.firstVectorKey
         0%nat (VVector3 (MkVector3 1 2 3)));
  try reflexivity.
- unfold Objects.wf. apply (bool_decide_unpack _). vm_compute. reflexivity.
- repeat constructor.
- intros [|[|i]] k Hk; try discriminate Hk; injection Hk as <-.
  + exists 0%nat, (VVector3 (MkVector3 1 2 3)). repeat split.
  + exists 1%nat, (VVector3 (MkVector3 4 6 8)). repeat split.
- intros [|[|i]] [|[|j]] ki kj Hij Hi Hj; try lia; try discriminate Hi; try discriminate Hj.
  injection Hi as <-. injection Hj as <-. intros H. discriminate H.
Defined.
